(** * wsdl-tsclient: the WSDL parser and the definition generator

    A shallow embedding of [parser.ts] (the schema-to-type-graph resolver:
    [getType], [findReferenceDefiniton], [parseDefinition], [parseWsdl]) and of
    the part of [generator.ts] that touches the parsed model
    ([generateDefinitionFile], [generate]).

    JavaScript objects have identity.  Raw schema nodes live in a read-only
    heap and are named by their address; a [Definition] object is named by its
    position in [parsedWsdl.definitions], where it is pushed exactly once, on
    creation.  Mutation of a Definition (pushing a property, renaming a
    property) is an update of the session store at that position. *)

From Stdlib Require Import String Ascii List Arith Bool Lia.
From Stdlib Require Import DecimalString.
Import ListNotations.
Local Open Scope string_scope.
Local Open Scope list_scope.

(** ** JavaScript strings *)

Module Js.

(** [s.split(sep)] for a one-character separator: never empty. *)
Fixpoint split (sep : ascii) (s : string) : list string :=
match s with
| EmptyString => [EmptyString]
| String c rest =>
    if Ascii.eqb c sep then EmptyString :: split sep rest
    else match split sep rest with
         | [] => [String c EmptyString]
         | seg :: segs => String c seg :: segs
         end
end.

(** [arr.pop()]: the last element, [undefined] on an empty array. *)
Fixpoint pop (arr : list string) : option string :=
match arr with
| [] => None
| [x] => Some x
| _ :: rest => pop rest
end.

(** [arr.join(sep)]. *)
Definition join (sep : string) (arr : list string) : string :=
String.concat sep arr.

(** [s.endsWith(suffix)]. *)
Definition endsWith (s suffix : string) : bool :=
let n := String.length s in
let m := String.length suffix in
Nat.leb m n && String.eqb (String.substring (n - m) m s) suffix.

(** [String(n)] for a non-negative integer. *)
Definition ofNat (n : nat) : string :=
NilZero.string_of_uint (Nat.to_uint n).

(** The property names every object literal inherits from
  [Object.prototype]; a lookup [obj[key]] with one of them finds the
  inherited member (a function, or the prototype itself), which is truthy. *)
Definition objectPrototypeKeys : list string :=
[ "constructor"; "__defineGetter__"; "__defineSetter__"; "hasOwnProperty";
  "__lookupGetter__"; "__lookupSetter__"; "isPrototypeOf";
  "propertyIsEnumerable"; "toString"; "valueOf"; "__proto__";
  "toLocaleString" ].

Definition inherited (key : string) : bool :=
existsb (String.eqb key) objectPrototypeKeys.

End Js.

(** ** Primitive type mapper *)

(** What an index into the type table evaluates to: one of the table's
    strings, or a member inherited from [Object.prototype]. *)
Inductive TypeName :=
| TsType (ts : string)
| Inherited (key : string).

(** The object literal of [getType], own properties only. *)
Definition typeTable : list (string * string) :=
  [ ("int", "number"); ("integer", "number"); ("short", "number");
    ("long", "number"); ("double", "number"); ("float", "number");
    ("decimal", "number"); ("bool", "boolean"); ("boolean", "boolean");
    ("dateTime", "Date"); ("date", "Date"); ("anyType", "any") ].

Fixpoint assoc {A} (key : string) (l : list (string * A)) : option A :=
  match l with
  | [] => None
  | (k, v) :: rest => if String.eqb k key then Some v else assoc key rest
  end.

(** [type.split(":").pop()] used as a property key; an [undefined] key reads
    the property called "undefined". *)
Definition typeKey (type : string) : string :=
  match Js.pop (Js.split ":" type) with
  | Some k => k
  | None => "undefined"
  end.

(** [({...}[type.split(":").pop()] || "string")]. *)
Definition getType (type : string) : TypeName :=
  let key := typeKey type in
  match assoc key typeTable with
  | Some ts => TsType ts
  | None => if Js.inherited key then Inherited key else TsType "string"
  end.

(** ** Raw schema nodes

    What the decoder hands over: strings, objects, [undefined] and [null].
    Objects live in a heap and are compared by address ([===]); an object is
    its [Object.entries] list plus the answer to
    [instanceof ComplexTypeElement]. *)

Definition NodeId := nat.

Inductive RawValue :=
| VStr (s : string)
| VObj (node : NodeId)
| VUndefined
| VNull.

Record RawObject := {
  isComplexTypeElement : bool;
  entries : list (string * RawValue)
}.

Definition Heap := list RawObject.

Definition emptyObject : RawObject :=
  {| isComplexTypeElement := false; entries := [] |}.

(** The object at an address.  A reference never dangles in JavaScript; an
    address outside the heap reads as an object without entries. *)
Definition deref (heap : Heap) (node : NodeId) : RawObject :=
  nth node heap emptyObject.

(** [obj[key]]: [undefined] when the key is missing. *)
Definition getProp (obj : RawObject) (key : string) : RawValue :=
  match assoc key (entries obj) with
  | Some v => v
  | None => VUndefined
  end.

(** [key in obj]. *)
Definition hasProp (obj : RawObject) (key : string) : bool :=
  match assoc key (entries obj) with
  | Some _ => true
  | None => false
  end.

(** [a === b]. *)
Definition strictEq (a b : RawValue) : bool :=
  match a, b with
  | VStr s, VStr t => String.eqb s t
  | VObj m, VObj n => Nat.eqb m n
  | VUndefined, VUndefined => true
  | VNull, VNull => true
  | _, _ => false
  end.

(** Truthiness, as tested by [if (defParts)]. *)
Definition truthy (v : RawValue) : bool :=
  match v with
  | VStr s => negb (String.eqb s "")
  | VObj _ => true
  | VUndefined | VNull => false
  end.

(** A value inside a template literal. *)
Definition template (v : RawValue) : string :=
  match v with
  | VStr s => s
  | VObj _ => "[object Object]"
  | VUndefined => "undefined"
  | VNull => "null"
  end.

(** ** The parsed model *)

Definition DefId := nat.

Module Property.
Inductive t :=
| PRIMITIVE (name sourceName description : string) (type : TypeName)
            (isArray : bool)
| REFERENCE (name : string) (sourceName : RawValue)
            (description : option string) (ref : DefId) (isArray : bool).

Definition name (p : t) : string :=
  match p with
  | PRIMITIVE n _ _ _ _ => n
  | REFERENCE n _ _ _ _ => n
  end.

(** [prop.name = n]. *)
Definition setName (n : string) (p : t) : t :=
  match p with
  | PRIMITIVE _ s d ty a => PRIMITIVE n s d ty a
  | REFERENCE _ s d r a => REFERENCE n s d r a
  end.

Definition isArray (p : t) : bool :=
  match p with
  | PRIMITIVE _ _ _ _ a => a
  | REFERENCE _ _ _ _ a => a
  end.

Definition ref (p : t) : option DefId :=
  match p with
  | PRIMITIVE _ _ _ _ _ => None
  | REFERENCE _ _ _ r _ => Some r
  end.
End Property.

Module Def.
Record t := {
  name : string;
  sourceName : string;
  description : string;
  docs : list string;
  properties : list Property.t
}.

(** [definition.properties.push(p)]. *)
Definition pushProperty (p : Property.t) (d : t) : t :=
  {| name := name d; sourceName := sourceName d;
     description := description d; docs := docs d;
     properties := properties d ++ [p] |}.

(** [definition.docs.push(doc)]. *)
Definition pushDoc (doc : string) (d : t) : t :=
  {| name := name d; sourceName := sourceName d;
     description := description d; docs := docs d ++ [doc];
     properties := properties d |}.
End Def.

Module Visited.
Record t := {
  name : string;
  parts : RawValue;
  definition : DefId
}.
End Visited.

(** Calls to the [Logger]. *)
Inductive LogEntry :=
| LogDebug (msg : string)
| LogWarn (msg : string)
| LogError (message path : string) (parts : RawValue).

Inductive JsError :=
| Error (message : string)
| TypeError.

(** The objects a resolution run mutates: [parsedWsdl.definitions], the
    [visitedDefs] array handed to every [parseDefinition] call, and the
    logger's output. *)
Record Session := {
  definitions : list Def.t;
  visitedDefs : list Visited.t;
  logs : list LogEntry
}.

Definition emptySession : Session :=
  {| definitions := []; visitedDefs := []; logs := [] |}.

(** [visited.find((def) => def.parts === definitionParts)]. *)
Definition findReferenceDefiniton (visited : list Visited.t)
    (definitionParts : RawValue) : option Visited.t :=
  find (fun def => strictEq (Visited.parts def) definitionParts) visited.

(** ** Computations over a session

    A computation returns normally, throws, or runs out of the recursion
    budget of the model.  A throw keeps every mutation made before it. *)

Inductive Outcome (A : Type) :=
| Ok (a : A)
| Throw (e : JsError)
| OutOfFuel.
Arguments Ok {A} a.
Arguments Throw {A} e.
Arguments OutOfFuel {A}.

(** A computation over a mutable store [S]. *)
Definition St (S A : Type) := S -> Outcome A * S.

Definition ret {S A} (a : A) : St S A := fun s => (Ok a, s).

Definition bind {S A B} (m : St S A) (k : A -> St S B) : St S B :=
  fun s =>
    match m s with
    | (Ok a, s') => k a s'
    | (Throw e, s') => (Throw e, s')
    | (OutOfFuel, s') => (OutOfFuel, s')
    end.

Definition throw {S A} (e : JsError) : St S A := fun s => (Throw e, s).

Definition outOfFuel {S A} : St S A := fun s => (OutOfFuel, s).

(** [try { m } catch (err) { handler(err) }]. *)
Definition tryCatch {S A} (m : St S A) (handler : JsError -> St S A)
  : St S A :=
  fun s =>
    match m s with
    | (Throw e, s') => handler e s'
    | r => r
    end.

Declare Scope session_scope.
Delimit Scope session_scope with session.
Notation "x <- m ;; k" := (bind m (fun x => k))
  (at level 61, m at next level, right associativity) : session_scope.
Notation "m ;; k" := (bind m (fun _ => k))
  (at level 61, right associativity) : session_scope.
Local Open Scope session_scope.

(** [arr.forEach(f)] and [for (const x of arr)]: a throw leaves the loop. *)
Fixpoint forEach {S A} (f : A -> St S unit) (arr : list A) : St S unit :=
  match arr with
  | [] => ret tt
  | x :: rest => f x ;; forEach f rest
  end.

(** The resolver's computations. *)
Definition M := St Session.

Definition log (e : LogEntry) : M unit :=
  fun s => (Ok tt, {| definitions := definitions s;
                      visitedDefs := visitedDefs s;
                      logs := logs s ++ [e] |}).

(** [parsedWsdl.definitions.push(definition)]; answers the new Definition's
    position, which names the object from then on. *)
Definition pushDefinition (d : Def.t) : M DefId :=
  fun s => (Ok (length (definitions s)),
            {| definitions := definitions s ++ [d];
               visitedDefs := visitedDefs s;
               logs := logs s |}).

(** [visitedDefs.push(v)]. *)
Definition pushVisited (v : Visited.t) : M unit :=
  fun s => (Ok tt, {| definitions := definitions s;
                      visitedDefs := visitedDefs s ++ [v];
                      logs := logs s |}).

Fixpoint updateAt {A} (i : nat) (f : A -> A) (l : list A) : list A :=
  match l, i with
  | [], _ => []
  | x :: rest, 0 => f x :: rest
  | x :: rest, S j => x :: updateAt j f rest
  end.

(** A mutation of the Definition object at position [d]. *)
Definition mutate (d : DefId) (f : Def.t -> Def.t) : M unit :=
  fun s => (Ok tt, {| definitions := updateAt d f (definitions s);
                      visitedDefs := visitedDefs s;
                      logs := logs s |}).

Definition getVisited : M (list Visited.t) :=
  fun s => (Ok (visitedDefs s), s).

Definition getDefinitions : M (list Def.t) :=
  fun s => (Ok (definitions s), s).

(** ** parser.ts *)

Record ParserOptions := {
  modelNamePreffix : string;
  modelNameSuffix : string;
  maxRecursiveDefinitionName : nat
}.

Definition defaultOptions : ParserOptions :=
  {| modelNamePreffix := "";
     modelNameSuffix := "";
     maxRecursiveDefinitionName := 64 |}.

(** [typeof type === "string"] is decided by the constructor;
    [type instanceof ComplexTypeElement] reads the heap. *)
Definition instanceofComplexTypeElement (heap : Heap) (type : RawValue) : bool :=
  match type with
  | VObj node => isComplexTypeElement (deref heap node)
  | _ => false
  end.

(** [type.typeName ?? fallback] for the object at [node]: what [typeName]
    holds, a string or an object, unless that is [undefined] or [null]. *)
Definition typeNameOf (heap : Heap) (node : NodeId) (fallback : string)
  : RawValue :=
  match getProp (deref heap node) "typeName" with
  | VUndefined | VNull => VStr fallback
  | typeName => typeName
  end.

(** [type.typeName ?? fallback].  A string has no [typeName]; reading a
    property of [undefined] or [null] is a TypeError. *)
Definition typeNameOr (heap : Heap) (type : RawValue) (fallback : string)
  : M RawValue :=
  match type with
  | VObj node => ret (typeNameOf heap node fallback)
  | VStr _ => ret (VStr fallback)
  | VUndefined | VNull => throw TypeError
  end.

(** The call [parseDefinition(parsedWsdl, options, name, defParts, stack,
    visitedDefs)] made for a sub-structure, [rec] standing for
    [parseDefinition]; its [name] argument is the value of
    [type.typeName ?? propName].  The callee's first statement is
    [changeCase(name, { pascalCase: true })], which passes [name] on to
    [camelcase]; that throws a TypeError for an object, before the callee
    has logged or stored anything. *)
Definition nestedCall {A} (rec : string -> RawValue -> list string -> M A)
    (name : RawValue) (defParts : RawValue) (stack : list string) : M A :=
  match name with
  | VStr s => rec s defParts stack
  | VObj _ | VUndefined | VNull => throw TypeError
  end.

(** [`${type.$name}`] for a ComplexTypeElement. *)
Definition dollarName (heap : Heap) (type : RawValue) : string :=
  match type with
  | VObj node => template (getProp (deref heap node) "$name")
  | _ => "undefined"
  end.

Section Parser.

(** [changeCase(input, { pascalCase })] of [utils/change-case]. *)
Variable changeCase : string -> bool -> string.

(** [parsedWsdl.findNonCollisionDefinitionName(defName)], a method of the
    [ParsedWsdl] class of [models/parsed-wsdl]: it reads
    [parsedWsdl.definitions] and returns a name or throws. *)
Variable findNonCollisionDefinitionName :
  list Def.t -> string -> JsError + string.

Variable heap : Heap.
Variable options : ParserOptions.

Definition callFindNonCollisionDefinitionName (defName : string) : M string :=
  fun s =>
    match findNonCollisionDefinitionName (definitions s) defName with
    | inr n => (Ok n, s)
    | inl e => (Throw e, s)
    end.

(** The branch of the [forEach] callback for a key ending in "[]".
    [rec] is [parseDefinition] itself; [d] is [definition]. *)
Definition parseArrayProperty
    (rec : string -> RawValue -> list string -> M DefId)
    (d : DefId) (name : string) (stack : list string)
    (propName : string) (type : RawValue) : M unit :=
  let stripedPropName :=
    String.substring 0 (String.length propName - 2) propName in
  match type with
  | VStr ty =>
      mutate d (Def.pushProperty
        (Property.PRIMITIVE stripedPropName propName ty (getType ty) true))
  | _ =>
      if instanceofComplexTypeElement heap type then
        mutate d (Def.pushProperty
          (Property.PRIMITIVE stripedPropName propName
             (dollarName heap type ++ " - ComplexType are not supported yet")
             (TsType "any") true)) ;;
        log (LogWarn ("Cannot parse ComplexType '" ++ Js.join "." stack
                      ++ "." ++ name ++ "' - using 'any' type"))
      else
        visitedDefs <- getVisited ;;
        match findReferenceDefiniton visitedDefs type with
        | Some visited =>
            sourceName <- typeNameOr heap type stripedPropName ;;
            mutate d (Def.pushProperty
              (Property.REFERENCE stripedPropName sourceName None
                 (Visited.definition visited) true))
        | None =>
            tryCatch
              (subName <- typeNameOr heap type stripedPropName ;;
               subDefinition <- nestedCall rec subName type
                                           (stack ++ [propName]) ;;
               sourceName <- typeNameOr heap type stripedPropName ;;
               mutate d (Def.pushProperty
                 (Property.REFERENCE stripedPropName sourceName None
                    subDefinition true)))
              (fun _ =>
                 throw (Error ("Error while parsing Subdefinition for '"
                               ++ Js.join "." stack ++ "." ++ name ++ "'")))
        end
  end.

(** The last branch of the callback: a key that is neither metadata nor
    array-marked. *)
Definition parsePlainProperty
    (rec : string -> RawValue -> list string -> M DefId)
    (d : DefId) (name : string) (stack : list string)
    (propName : string) (type : RawValue) : M unit :=
  match type with
  | VStr ty =>
      mutate d (Def.pushProperty
        (Property.PRIMITIVE propName propName ty (getType ty) false))
  | _ =>
      if instanceofComplexTypeElement heap type then
        mutate d (Def.pushProperty
          (Property.PRIMITIVE propName propName
             (dollarName heap type ++ " - ComplexType are not supported yet")
             (TsType "any") false)) ;;
        log (LogWarn ("Cannot parse ComplexType '" ++ Js.join "." stack
                      ++ "." ++ name ++ "' - using 'any' type"))
      else
        visitedDefs <- getVisited ;;
        match findReferenceDefiniton visitedDefs type with
        | Some reference =>
            sourceName <- typeNameOr heap type propName ;;
            mutate d (Def.pushProperty
              (Property.REFERENCE propName sourceName (Some "")
                 (Visited.definition reference) false))
        | None =>
            tryCatch
              (subName <- typeNameOr heap type propName ;;
               subDefinition <- nestedCall rec subName type
                                           (stack ++ [propName]) ;;
               sourceName <- typeNameOr heap type propName ;;
               mutate d (Def.pushProperty
                 (Property.REFERENCE propName sourceName None
                    subDefinition false)))
              (fun _ =>
                 throw (Error ("Error while parsing Subdefinition for "
                               ++ Js.join "." stack ++ "." ++ name)))
        end
  end.

(** The callback of [Object.entries(defParts).forEach]. *)
Definition parseEntry
    (rec : string -> RawValue -> list string -> M DefId)
    (d : DefId) (name : string) (stack : list string)
    (entry : string * RawValue) : M unit :=
  let (propName, type) := entry in
  if String.eqb propName "targetNSAlias" then
    mutate d (Def.pushDoc ("@targetNSAlias `" ++ template type ++ "`"))
  else if String.eqb propName "typeName" then
    ret tt
  else if String.eqb propName "targetNamespace" then
    mutate d (Def.pushDoc ("@targetNamespace `" ++ template type ++ "`"))
  else if Js.endsWith propName "[]" then
    parseArrayProperty rec d name stack propName type
  else
    parsePlainProperty rec d name stack propName type.

(** [parseDefinition(parsedWsdl, options, name, defParts, stack,
    visitedDefs)].  The statement that splices [err.stack] into [e.stack]
    in each [catch] is an expression whose value is dropped, so the error
    thrown is the fresh [e] alone.  [fuel] bounds the depth of nested
    calls. *)
Fixpoint parseDefinition (fuel : nat) (name : string) (defParts : RawValue)
    (stack : list string) : M DefId :=
  match fuel with
  | 0 => outOfFuel
  | S fuel' =>
      let defName := changeCase name true in
      log (LogDebug ("Parsing Definition " ++ Js.join "." stack
                     ++ "." ++ name)) ;;
      nonCollisionDefName <-
        tryCatch (callFindNonCollisionDefinitionName defName)
          (fun _ =>
             throw (Error
               ("Error for finding non-collision definition name for "
                ++ Js.join "." stack ++ "." ++ name))) ;;
      let definition :=
        {| Def.name := modelNamePreffix options
                       ++ changeCase nonCollisionDefName true
                       ++ modelNameSuffix options;
           Def.sourceName := name;
           Def.docs := [name];
           Def.properties := [];
           Def.description := "" |} in
      d <- pushDefinition definition ;;
      pushVisited {| Visited.name := Def.name definition;
                     Visited.parts := defParts;
                     Visited.definition := d |} ;;
      match defParts with
      | VStr "" | VUndefined | VNull => ret tt
      | VStr s =>
          let newParts := Js.split "|" s in
          match nth_error newParts 1 with
          | Some ty =>
              mutate d (Def.pushProperty
                (Property.PRIMITIVE (Def.name definition)
                   (nth 0 newParts "") s (getType ty) false))
          | None => throw TypeError
          end
      | VObj node =>
          let obj := deref heap node in
          if hasProp obj "undefined"
             && strictEq (getProp obj "undefined") VUndefined then
            log (LogError "Problem while generating a definition file"
                          (Js.join "." stack) defParts)
          else
            forEach (parseEntry (parseDefinition fuel') d name stack)
                    (entries obj)
      end ;;
      ret d
  end.

End Parser.

(** ** The decoded WSDL consumed by [parseWsdl] *)

(** [{ $name }]: a message reference of a binding operation. *)
Record MessageRef := { dollar_name : string }.

(** [message.element]: [{ $type?, $name }]. *)
Record Element := {
  element_type : option string;
  element_name : string
}.

Record Message := {
  element : option Element;
  parts : RawValue
}.

(** [method.inputSoap] / [method.outputSoap]. *)
Record SoapOperation := { header : option MessageRef }.

Record RawMethod := {
  input : option MessageRef;
  inputSoap : option SoapOperation;
  output : option MessageRef;
  outputSoap : option SoapOperation;
  fault : option MessageRef
}.

Record RawPort := { binding_methods : list (string * RawMethod) }.

Record RawService := { raw_ports : list (string * RawPort) }.

(** [wsdl.definitions]. *)
Record Wsdl := {
  raw_services : list (string * RawService);
  messages : list (string * Message)
}.

(** ** The result of [parseWsdl] *)

Module Method.
Record t := {
  name : string;
  paramName : string;
  paramDefinition : option DefId;
  returnDefinition : option DefId;
  inputHeaderDefinition : option DefId;
  outputHeaderDefinition : option DefId;
  faultDefinition : option DefId
}.
End Method.

Module Port.
Record t := {
  name : string;
  sourceName : string;
  methods : list Method.t
}.
End Port.

Module Service.
Record t := {
  name : string;
  sourceName : string;
  ports : list Port.t
}.
End Service.

(** The fields of [ParsedWsdl] the resolver fills ([name], [wsdlFilename]
    and [wsdlPath] only echo the file path). *)
Record ParsedWsdl := {
  pw_definitions : list Def.t;
  pw_ports : list Port.t;
  pw_services : list Service.t
}.

(** [Partial<ParserOptions>]. *)
Record PartialParserOptions := {
  opt_modelNamePreffix : option string;
  opt_modelNameSuffix : option string;
  opt_maxRecursiveDefinitionName : option nat
}.

Definition orElse {A} (o : option A) (default : A) : A :=
  match o with
  | Some a => a
  | None => default
  end.

(** [{ ...defaultOptions, ...options }]. *)
Definition mergeOptions (o : PartialParserOptions) : ParserOptions :=
  {| modelNamePreffix :=
       orElse (opt_modelNamePreffix o) (modelNamePreffix defaultOptions);
     modelNameSuffix :=
       orElse (opt_modelNameSuffix o) (modelNameSuffix defaultOptions);
     maxRecursiveDefinitionName :=
       orElse (opt_maxRecursiveDefinitionName o)
              (maxRecursiveDefinitionName defaultOptions) |}.

Section Walker.

Variable changeCase : string -> bool -> string.

(** The [ParsedWsdl] class of [models/parsed-wsdl]:
    [new ParsedWsdl({ maxStack })] fixes the behaviour of
    [findNonCollisionDefinitionName]; [findDefinition(name)] answers a
    Definition of [parsedWsdl.definitions] or [undefined]. *)
Variable ParsedWsdl_findNonCollisionDefinitionName :
  option nat -> list Def.t -> string -> JsError + string.
Variable ParsedWsdl_findDefinition : list Def.t -> string -> option DefId.

(** [reservedKeywords] of [utils/javascript]. *)
Variable reservedKeywords : list string.

Variable heap : Heap.
Variable wsdl : Wsdl.
Variable options : PartialParserOptions.
Variable fuel : nat.

Definition mergedOptions : ParserOptions := mergeOptions options.

Definition parseTop (name : string) (defParts : RawValue)
    (stack : list string) : M DefId :=
  parseDefinition changeCase
    (ParsedWsdl_findNonCollisionDefinitionName
       (opt_maxRecursiveDefinitionName options))
    heap mergedOptions fuel name defParts stack.

(** [const type = parsedWsdl.findDefinition(typeName);
     type ? type : parseDefinition(parsedWsdl, mergedOptions, typeName,
                                   parts, [typeName], visitedDefinitions)]. *)
Definition findOrParse (typeName : string) (defParts : RawValue)
  : M (option DefId) :=
  defs <- getDefinitions ;;
  match ParsedWsdl_findDefinition defs typeName with
  | Some type => ret (Some type)
  | None => d <- parseTop typeName defParts [typeName] ;; ret (Some d)
  end.

(** [wsdl.definitions.messages[name]]; the caller reads a property of the
    result at once, a TypeError when the message is missing. *)
Definition lookupMessage (name : string) : M Message :=
  match assoc name (messages wsdl) with
  | Some m => ret m
  | None => throw TypeError
  end.

(** The [if (message.element)] branch, the same for the five roles. *)
Definition parseElementMessage (el : Element) (message : Message)
  : M (option DefId) :=
  let typeName := orElse (element_type el) (element_name el) in
  let typeName := orElse (Js.pop (Js.split ":" typeName)) "undefined" in
  let simple := match parts message with VStr _ => true | _ => false end in
  let typeName := if simple then element_name el else typeName in
  findOrParse typeName (parts message).

(** A header role ([method.inputSoap.header], [method.outputSoap.header]). *)
Definition parseHeader (serviceName portName methodName : string)
    (soap : option SoapOperation) : M (option DefId) :=
  match soap with
  | None => throw TypeError
  | Some soap =>
      match header soap with
      | None => ret None
      | Some h =>
          headerMessage <- lookupMessage (dollar_name h) ;;
          match element headerMessage with
          | Some el => parseElementMessage el headerMessage
          | None =>
              if truthy (parts headerMessage) then
                findOrParse (dollar_name h) (parts headerMessage)
              else
                log (LogDebug ("Method '" ++ serviceName ++ "." ++ portName
                               ++ "." ++ methodName
                               ++ "' doesn't have any input header defined")) ;;
                ret None
          end
      end
  end.

Definition parseInput (serviceName portName methodName : string)
    (method : RawMethod) : M (string * option DefId * option DefId) :=
  match input method with
  | None => ret ("request", None, None)
  | Some inp =>
      let paramName :=
        if String.eqb (dollar_name inp) "" then "request"
        else dollar_name inp in
      inputHeaderDefinition <-
        parseHeader serviceName portName methodName (inputSoap method) ;;
      inputMessage <- lookupMessage (dollar_name inp) ;;
      inputDefinition <-
        match element inputMessage with
        | Some el => parseElementMessage el inputMessage
        | None =>
            if truthy (parts inputMessage) then
              findOrParse paramName (parts inputMessage)
            else
              log (LogDebug ("Method '" ++ serviceName ++ "." ++ portName
                             ++ "." ++ methodName
                             ++ "' doesn't have any input defined")) ;;
              ret None
        end ;;
      ret (paramName, inputDefinition, inputHeaderDefinition)
  end.

Definition parseOutput (serviceName portName methodName : string)
    (method : RawMethod) : M (option DefId * option DefId) :=
  match output method with
  | None => ret (None, None)
  | Some out =>
      outputHeaderDefinition <-
        parseHeader serviceName portName methodName (outputSoap method) ;;
      outputMessage <- lookupMessage (dollar_name out) ;;
      outputDefinition <-
        match element outputMessage with
        | Some el => parseElementMessage el outputMessage
        | None => findOrParse (dollar_name out) (parts outputMessage)
        end ;;
      ret (outputDefinition, outputHeaderDefinition)
  end.

Definition parseFault (serviceName portName methodName : string)
    (method : RawMethod) : M (option DefId) :=
  match fault method with
  | None => ret None
  | Some flt =>
      faultMessage <- lookupMessage (dollar_name flt) ;;
      match element faultMessage with
      | Some el => parseElementMessage el faultMessage
      | None =>
          if truthy (parts faultMessage) then
            findOrParse (dollar_name flt) (parts faultMessage)
          else
            log (LogDebug ("Method '" ++ serviceName ++ "." ++ portName
                           ++ "." ++ methodName
                           ++ "' doesn't have any fault defined")) ;;
            ret None
      end
  end.

(** The body of the loop over [port.binding.methods]. *)
Definition parseMethod (serviceName portName : string)
    (entry : string * RawMethod) : M Method.t :=
  let (methodName, method) := entry in
  log (LogDebug ("Parsing Method " ++ methodName)) ;;
  i <- parseInput serviceName portName methodName method ;;
  let '(paramName, inputDefinition, inputHeaderDefinition) := i in
  o <- parseOutput serviceName portName methodName method ;;
  let '(outputDefinition, outputHeaderDefinition) := o in
  faultDefinition <- parseFault serviceName portName methodName method ;;
  let camelParamName := changeCase paramName false in
  ret {| Method.name := methodName;
         Method.paramName :=
           if existsb (String.eqb camelParamName) reservedKeywords
           then camelParamName ++ "Param" else camelParamName;
         Method.paramDefinition := inputDefinition;
         Method.returnDefinition := outputDefinition;
         Method.inputHeaderDefinition := inputHeaderDefinition;
         Method.outputHeaderDefinition := outputHeaderDefinition;
         Method.faultDefinition := faultDefinition |}.

(** [for (... of ...)] collecting one result per element. *)
Fixpoint forOf {A B} (f : A -> M B) (l : list A) : M (list B) :=
  match l with
  | [] => ret []
  | x :: rest => y <- f x ;; ys <- forOf f rest ;; ret (y :: ys)
  end.

Definition parsePort (serviceName : string) (entry : string * RawPort)
  : M Port.t :=
  let (portName, port) := entry in
  log (LogDebug ("Parsing Port " ++ portName)) ;;
  portMethods <- forOf (parseMethod serviceName portName)
                       (binding_methods port) ;;
  ret {| Port.name := changeCase portName true;
         Port.sourceName := portName;
         Port.methods := portMethods |}.

Definition parseService (entry : string * RawService) : M Service.t :=
  let (serviceName, service) := entry in
  log (LogDebug ("Parsing Service " ++ serviceName)) ;;
  servicePorts <- forOf (parsePort serviceName) (raw_ports service) ;;
  ret {| Service.name := changeCase serviceName true;
         Service.sourceName := serviceName;
         Service.ports := servicePorts |}.

(** The callback given to [open_wsdl], once the document is decoded: a
    fresh [ParsedWsdl] and a fresh [visitedDefinitions]. *)
Definition parseWsdl : Outcome ParsedWsdl * Session :=
  match forOf parseService (raw_services wsdl) emptySession with
  | (Ok services, s) =>
      (Ok {| pw_definitions := definitions s;
             pw_ports := flat_map Service.ports services;
             pw_services := services |}, s)
  | (Throw e, s) => (Throw e, s)
  | (OutOfFuel, s) => (OutOfFuel, s)
  end.

End Walker.

(** ** The name registry of [ParsedWsdl] *)

Module Registry.

(** Modelled from the spec: the [ParsedWsdl] class of [models/parsed-wsdl]
    is not among the sources.  Its configuration is the retry ceiling
    (default 64) and the case-insensitive comparison switch. *)
Record Options := {
  maxNameCollisionRetries : nat;
  caseInsensitiveNameComparison : bool
}.

Definition lowerAscii (c : ascii) : ascii :=
  let n := nat_of_ascii c in
  if Nat.leb 65 n && Nat.leb n 90 then ascii_of_nat (n + 32) else c.

Fixpoint toLowerCase (s : string) : string :=
  match s with
  | EmptyString => EmptyString
  | String c rest => String (lowerAscii c) (toLowerCase rest)
  end.

(** Modelled from the spec: name comparison, "case-sensitive or
    case-insensitive per configuration". *)
Definition sameName (o : Options) (a b : string) : bool :=
  if caseInsensitiveNameComparison o
  then String.eqb (toLowerCase a) (toLowerCase b)
  else String.eqb a b.

(** Modelled from the spec: "an existing Definition has that name". *)
Definition taken (o : Options) (defs : list Def.t) (n : string) : bool :=
  existsb (fun d => sameName o (Def.name d) n) defs.

(** Modelled from the spec: "append an increasing numeric suffix (Name2,
    Name3, ...) and retry", at most [retries] times, starting at suffix
    [k]. *)
Fixpoint retry (o : Options) (defs : list Def.t) (base : string)
    (k retries : nat) : option string :=
  match retries with
  | 0 => None
  | S r =>
      let candidate := (base ++ Js.ofNat k)%string in
      if taken o defs candidate then retry o defs base (S k) r
      else Some candidate
  end.

(** The error the spec calls NameCollisionExhausted; it carries the
    attempted base name. *)
Definition NameCollisionExhausted (base : string) : JsError :=
  Error ("NameCollisionExhausted: " ++ base).

(** Modelled from the spec: [reserve(proposedBaseName)] of the Name
    Registry, on a name the caller has already PascalCased: the name as it
    is when no Definition has it, else the first free suffixed name, else
    NameCollisionExhausted once the retries are used up. *)
Definition findNonCollisionDefinitionName (o : Options)
    (defs : list Def.t) (defName : string) : JsError + string :=
  if taken o defs defName then
    match retry o defs defName 2 (maxNameCollisionRetries o) with
    | Some n => inr n
    | None => inl (NameCollisionExhausted defName)
    end
  else inr defName.

Fixpoint findIndex {A} (p : A -> bool) (l : list A) : option nat :=
  match l with
  | [] => None
  | x :: rest =>
      if p x then Some 0 else option_map S (findIndex p rest)
  end.

(** Modelled from the spec: [lookup(finalName)], "by name, not by
    identity". *)
Definition findDefinition (defs : list Def.t) (definitionName : string)
  : option DefId :=
  findIndex (fun d => String.eqb (Def.name d) definitionName) defs.

(** Modelled from the spec: [new ParsedWsdl({ maxStack })]; the ceiling
    defaults to 64 and names are compared case-sensitively unless
    configured otherwise. *)
Definition create (caseInsensitive : bool) (maxStack : option nat)
  : Options :=
  {| maxNameCollisionRetries := orElse maxStack 64;
     caseInsensitiveNameComparison := caseInsensitive |}.

End Registry.

(** ** generator.ts *)

Inductive ModelPropertyNaming := camelCase | PascalCase.

Record GeneratorOptions := {
  emitDefinitionsOnly : bool;
  modelPropertyNaming : option ModelPropertyNaming
}.

Definition defaultGeneratorOptions : GeneratorOptions :=
  {| emitDefinitionsOnly := false; modelPropertyNaming := None |}.

(** [OptionalKind<ImportDeclarationStructure>]. *)
Record ImportDeclaration := {
  moduleSpecifier : string;
  namedImport : string
}.

(** [PropertySignatureStructure]; [hasQuestionToken] is always true.
    [docs] has one element: the [description] of a PRIMITIVE property or
    the [sourceName] of a REFERENCE property, which is whatever
    [type.typeName ?? propName] gave. *)
Record PropertySignature := {
  sig_name : string;
  sig_doc : RawValue;
  sig_type : TypeName
}.

(** The interface written to [path.join(defDir, defName + ".ts")]. *)
Record DefinitionFile := {
  file_name : string;
  file_imports : list ImportDeclaration;
  file_docs : string;
  file_properties : list PropertySignature
}.

(** What generation mutates: the Definitions of the parsed model (shared
    with the resolver's result), the [generated] array and the project's
    files. *)
Record GenState := {
  gen_definitions : list Def.t;
  generated : list DefId;
  files : list DefinitionFile
}.

Definition G := St GenState.

(** [addSafeImport(imports, moduleSpecifier, namedImport)]. *)
Definition addSafeImport (imports : list ImportDeclaration)
    (specifier named : string) : list ImportDeclaration :=
  if existsb (fun imp => String.eqb (moduleSpecifier imp) specifier) imports
  then imports
  else imports ++ [{| moduleSpecifier := specifier; namedImport := named |}].

Fixpoint includes (needle s : string) : bool :=
  String.prefix needle s
  || match s with
     | EmptyString => false
     | String _ rest => includes needle rest
     end.

Definition doubleQuote : string := String (ascii_of_nat 34) EmptyString.

Definition incorrectPropNameChars : list string := [" "; "-"; "."].

Definition sanitizePropName (propName : string) : string :=
  if existsb (fun char => includes char propName) incorrectPropNameChars
  then (doubleQuote ++ propName ++ doubleQuote)%string
  else propName.

(** [isArray ? `Array<${type}>` : type]; the text of an inherited member is
    not modelled and stays as it is. *)
Definition arrayOf (isArray : bool) (type : TypeName) : TypeName :=
  match type with
  | TsType ts => if isArray then TsType ("Array<" ++ ts ++ ">") else type
  | Inherited _ => type
  end.

Definition createProperty (name : string) (type : TypeName)
    (doc : RawValue) (isArray : bool) : PropertySignature :=
  {| sig_name := sanitizePropName name;
     sig_doc := doc;
     sig_type := arrayOf isArray type |}.

Definition setGenDefinitions (defs : list Def.t) (g : GenState) : GenState :=
  {| gen_definitions := defs; generated := generated g; files := files g |}.

(** The object behind a Definition reference. *)
Definition readDefinition (d : DefId) : G Def.t :=
  fun g =>
    match nth_error (gen_definitions g) d with
    | Some def => (Ok def, g)
    | None => (Throw TypeError, g)
    end.

(** The [i]-th element of [definition.properties]. *)
Definition readProperty (d : DefId) (i : nat) : G Property.t :=
  def <- readDefinition d ;;
  match nth_error (Def.properties def) i with
  | Some p => ret p
  | None => throw TypeError
  end.

Definition mapProperties (f : list Property.t -> list Property.t)
    (d : Def.t) : Def.t :=
  {| Def.name := Def.name d; Def.sourceName := Def.sourceName d;
     Def.description := Def.description d; Def.docs := Def.docs d;
     Def.properties := f (Def.properties d) |}.

(** A write to the [i]-th property object of Definition [d]. *)
Definition mutateProperty (d : DefId) (i : nat)
    (f : Property.t -> Property.t) : G unit :=
  fun g =>
    (Ok tt, setGenDefinitions
              (updateAt d (mapProperties (updateAt i f)) (gen_definitions g))
              g).

Definition getGenerated : G (list DefId) := fun g => (Ok (generated g), g).

(** [generated.push(definition)]. *)
Definition pushGenerated (d : DefId) : G unit :=
  fun g => (Ok tt, {| gen_definitions := gen_definitions g;
                      generated := generated g ++ [d];
                      files := files g |}).

(** [defFile.addStatements(...); defFile.saveSync()]. *)
Definition saveFile (f : DefinitionFile) : G unit :=
  fun g => (Ok tt, {| gen_definitions := gen_definitions g;
                      generated := generated g;
                      files := files g ++ [f] |}).

Section Generator.

(** [camelcase(input, { pascalCase })] of the npm package. *)
Variable camelcase : string -> bool -> string.

Variable options : GeneratorOptions.

(** The [if (options.modelPropertyNaming) switch ...] that opens the loop
    body: an assignment to [prop.name]. *)
Definition renameProperty (p : Property.t) : Property.t :=
  match modelPropertyNaming options with
  | Some camelCase =>
      Property.setName (camelcase (Property.name p) false) p
  | Some PascalCase =>
      Property.setName (camelcase (Property.name p) true) p
  | None => p
  end.

(** One turn of [for (const prop of definition.properties)]; the two
    accumulators are [definitionImports] and [definitionProperties]. *)
Definition generateProperty (rec : DefId -> G unit) (definition : DefId)
    (acc : list ImportDeclaration * list PropertySignature) (i : nat)
  : G (list ImportDeclaration * list PropertySignature) :=
  let (definitionImports, definitionProperties) := acc in
  mutateProperty definition i renameProperty ;;
  prop <- readProperty definition i ;;
  match prop with
  | Property.PRIMITIVE name _ description type isArray =>
      ret (definitionImports,
           definitionProperties
             ++ [createProperty name type (VStr description) isArray])
  | Property.REFERENCE _ _ _ ref _ =>
      gen <- getGenerated ;;
      (if existsb (Nat.eqb ref) gen then ret tt else rec ref) ;;
      refDef <- readDefinition ref ;;
      self <- readDefinition definition ;;
      prop <- readProperty definition i ;;
      let imports :=
        if String.eqb (Def.name refDef) (Def.name self)
        then definitionImports
        else addSafeImport definitionImports ("./" ++ Def.name refDef)
                           (Def.name refDef) in
      ret (imports,
           definitionProperties
             ++ [createProperty (Property.name prop)
                   (TsType (Def.name refDef))
                   (match prop with
                    | Property.PRIMITIVE _ s _ _ _ => VStr s
                    | Property.REFERENCE _ s _ _ _ => s
                    end)
                   (Property.isArray prop)])
  end.

Fixpoint foldM {S A B} (f : B -> A -> St S B) (l : list A) (acc : B)
  : St S B :=
  match l with
  | [] => ret acc
  | x :: rest => acc' <- f acc x ;; foldM f rest acc'
  end.

(** [generateDefinitionFile(project, definition, defDir, stack, generated,
    options)]; [fuel] bounds the depth of nested calls. *)
Fixpoint generateDefinitionFile (fuel : nat) (definition : DefId)
  : G unit :=
  match fuel with
  | 0 => outOfFuel
  | S fuel' =>
      def <- readDefinition definition ;;
      let defName := Def.name def in
      pushGenerated definition ;;
      acc <- foldM (generateProperty (generateDefinitionFile fuel')
                                     definition)
                   (seq 0 (length (Def.properties def))) ([], []) ;;
      let (definitionImports, definitionProperties) :=
        acc : list ImportDeclaration * list PropertySignature in
      def <- readDefinition definition ;;
      saveFile {| file_name := defName;
                  file_imports := definitionImports;
                  file_docs := Js.join (String (ascii_of_nat 10) "")
                                       (Def.docs def);
                  file_properties :=
                    definitionProperties
                      ++ [{| sig_name := "[arg: string]";
                             sig_doc := VStr "Hold additional properties";
                             sig_type := TsType "any" |}] |}
  end.

(** [if (method.X !== null) { if (!allDefinitions.includes(method.X))
    generateDefinitionFile(...) ... }]; the import lists of the port and
    client files are not part of the model. *)
Definition generateRole (fuel : nat) (role : option DefId) : G unit :=
  match role with
  | None => ret tt
  | Some d =>
      allDefinitions <- getGenerated ;;
      if existsb (Nat.eqb d) allDefinitions then ret tt
      else generateDefinitionFile fuel d
  end.

Definition generateMethod (fuel : nat) (method : Method.t) : G unit :=
  generateRole fuel (Method.paramDefinition method) ;;
  generateRole fuel (Method.returnDefinition method) ;;
  generateRole fuel (Method.inputHeaderDefinition method) ;;
  generateRole fuel (Method.outputHeaderDefinition method) ;;
  generateRole fuel (Method.faultDefinition method).

(** [generate(parsedWsdl, outDir, options)], as far as it reaches the
    parsed model: for every service, every port of [parsedWsdl.ports],
    every method.  The port, service, client and index files are built
    from names only and are left out. *)
Definition generate (fuel : nat) (parsedWsdl : ParsedWsdl)
  : Outcome unit * GenState :=
  forEach
    (fun _ : Service.t =>
       forEach
         (fun port => forEach (generateMethod fuel) (Port.methods port))
         (pw_ports parsedWsdl))
    (pw_services parsedWsdl)
    {| gen_definitions := pw_definitions parsedWsdl;
       generated := [];
       files := [] |}.

End Generator.

(** ** Stand-ins for the collaborators, and sample inputs

    [changeCase] and [camelcase] are parameters of the development.  Where a
    concrete run is needed they are instantiated by a function that raises
    the first letter for PascalCase and lowers it otherwise: all that
    PascalCase and camelCase change in the plain alphanumeric words used
    here. *)

Module Examples.

Definition upperAscii (c : ascii) : ascii :=
  let n := nat_of_ascii c in
  if Nat.leb 97 n && Nat.leb n 122 then ascii_of_nat (n - 32) else c.

Definition upperFirst (s : string) : string :=
  match s with
  | EmptyString => EmptyString
  | String c rest => String (upperAscii c) rest
  end.

Definition lowerFirst (s : string) : string :=
  match s with
  | EmptyString => EmptyString
  | String c rest => String (Registry.lowerAscii c) rest
  end.

(** Stands for [changeCase] and for [camelcase] on alphanumeric words. *)
Definition wordCase (input : string) (pascalCase : bool) : string :=
  if pascalCase then upperFirst input else lowerFirst input.

(** The registry as [parseWsdl] builds it, with names compared
    case-sensitively. *)
Definition registry (maxStack : option nat)
  : list Def.t -> string -> JsError + string :=
  Registry.findNonCollisionDefinitionName (Registry.create false maxStack).

Definition object (l : list (string * RawValue)) : RawObject :=
  {| isComplexTypeElement := false; entries := l |}.

Definition withPrefix (p : string) : ParserOptions :=
  {| modelNamePreffix := p;
     modelNameSuffix := "";
     maxRecursiveDefinitionName := 64 |}.

(** [{ self: <this object>, n: "xs:int" }]. *)
Definition selfHeap : Heap :=
  [ object [("self", VObj 0); ("n", VStr "xs:int")] ].

(** [A = { b: B }], [B = { typeName: "bee", "a[]": A }]. *)
Definition loopHeap : Heap :=
  [ object [("b", VObj 1)];
    object [("typeName", VStr "bee"); ("a[]", VObj 0)] ].

(** Three distinct structures that all propose the name "Address", under
    one root. *)
Definition addressHeap : Heap :=
  [ object [("home", VObj 1); ("work", VObj 2); ("other", VObj 3)];
    object [("typeName", VStr "Address"); ("street", VStr "xs:string")];
    object [("typeName", VStr "Address"); ("zip", VStr "xs:int")];
    object [("typeName", VStr "Address"); ("city", VStr "xs:string")] ].


(** The decoder quirk: [{ undefined: undefined, a: "xs:int" }]. *)
Definition quirkHeap : Heap :=
  [ object [("undefined", VUndefined); ("a", VStr "xs:int")] ].

(** [{ inner: { typeName: "Mid", leaf: { typeName: "Root" } } }]: the
    innermost structure proposes the name the outermost one has. *)
Definition deepHeap : Heap :=
  [ object [("inner", VObj 1)];
    object [("typeName", VStr "Mid"); ("leaf", VObj 2)];
    object [("typeName", VStr "Root")] ].

(** An order with two distinct address structures of the same type name. *)
Definition ordersHeap : Heap :=
  [ object [("billing", VObj 1); ("shipping", VObj 2)];
    object [("typeName", VStr "Address"); ("street", VStr "xs:string")];
    object [("typeName", VStr "Address"); ("zip", VStr "xs:int")] ].

Definition noHeader : option SoapOperation := Some {| header := None |}.

Definition service (name portName methodName : string) (m : RawMethod)
  : string * RawService :=
  (name,
   {| raw_ports :=
        [(portName, {| binding_methods := [(methodName, m)] |})] |}).

(** One operation whose input message carries the order structure. *)
Definition ordersWsdl : Wsdl :=
  {| raw_services :=
       [service "Orders" "OrdersPort" "Place"
          {| input := Some {| dollar_name := "PlaceOrder" |};
             inputSoap := noHeader;
             output := None;
             outputSoap := None;
             fault := None |}];
     messages :=
       [("PlaceOrder", {| element := None; parts := VObj 0 |})] |}.

(** One operation whose input and output messages declare neither an
    element nor parts. *)
Definition statusWsdl : Wsdl :=
  {| raw_services :=
       [service "Status" "StatusPort" "GetStatus"
          {| input := Some {| dollar_name := "GetStatusRequest" |};
             inputSoap := noHeader;
             output := Some {| dollar_name := "GetStatusResponse" |};
             outputSoap := noHeader;
             fault := None |}];
     messages :=
       [("GetStatusRequest", {| element := None; parts := VUndefined |});
        ("GetStatusResponse", {| element := None; parts := VUndefined |})]
  |}.



(** [{ child: { typeName: {}, a: "xs:int" }, again: <the same child> }]: a
    [typeName] that holds an object. *)
Definition namelessHeap : Heap :=
  [ object [("child", VObj 1); ("again", VObj 1)];
    object [("typeName", VObj 2); ("a", VStr "xs:int")];
    object [] ].

Definition noOptions : PartialParserOptions :=
  {| opt_modelNamePreffix := None;
     opt_modelNameSuffix := None;
     opt_maxRecursiveDefinitionName := None |}.

Definition prefixI : PartialParserOptions :=
  {| opt_modelNamePreffix := Some "I";
     opt_modelNameSuffix := None;
     opt_maxRecursiveDefinitionName := None |}.

(** A stand-in for [reservedKeywords]. *)
Definition keywords : list string := ["class"; "delete"; "function"].

(** [parseWsdl] with the stand-ins in place of the collaborators. *)
Definition runParseWsdl (heap : Heap) (wsdl : Wsdl)
    (options : PartialParserOptions) (fuel : nat)
  : Outcome ParsedWsdl * Session :=
  parseWsdl wordCase registry Registry.findDefinition keywords heap wsdl
            options fuel.

(** A parsed model with one Definition, the parameter of one method. *)
Definition orderModel : ParsedWsdl :=
  let method :=
    {| Method.name := "Place"; Method.paramName := "order";
       Method.paramDefinition := Some 0;
       Method.returnDefinition := None;
       Method.inputHeaderDefinition := None;
       Method.outputHeaderDefinition := None;
       Method.faultDefinition := None |} in
  let port :=
    {| Port.name := "OrdersPort"; Port.sourceName := "OrdersPort";
       Port.methods := [method] |} in
  {| pw_definitions :=
       [{| Def.name := "Order"; Def.sourceName := "Order";
           Def.description := ""; Def.docs := ["Order"];
           Def.properties :=
             [Property.PRIMITIVE "OrderId" "OrderId" "xs:int"
                (TsType "number") false] |}];
     pw_ports := [port];
     pw_services :=
       [{| Service.name := "Orders"; Service.sourceName := "Orders";
           Service.ports := [port] |}] |}.

Definition camelCaseNaming : GeneratorOptions :=
  {| emitDefinitionsOnly := false; modelPropertyNaming := Some camelCase |}.

End Examples.

(** * Properties *)

(** ** Strings *)

Fixpoint hasChar (c : ascii) (s : string) : bool :=
  match s with
  | EmptyString => false
  | String c' rest => Ascii.eqb c' c || hasChar c rest
  end.

Lemma split_not_nil sep s : Js.split sep s <> [].
Proof.
  destruct s as [|c s]; simpl; [discriminate|].
  destruct (Ascii.eqb c sep); [discriminate|].
  destruct (Js.split sep s); discriminate.
Qed.

Lemma split_no_sep sep s : hasChar sep s = false -> Js.split sep s = [s].
Proof.
  induction s as [|c s IH]; simpl; [reflexivity|].
  intros H. apply orb_false_iff in H as [Hc Hs].
  rewrite Hc, (IH Hs). reflexivity.
Qed.

Lemma pop_cons x l : l <> [] -> Js.pop (x :: l) = Js.pop l.
Proof. destruct l; [congruence | reflexivity]. Qed.

(** The last segment of [ns ++ sep ++ t] is [t] when [t] holds no [sep]. *)
Lemma pop_split_prefix sep ns t :
  hasChar sep t = false ->
  Js.pop (Js.split sep (ns ++ String sep t)) = Some t.
Proof.
  intros Ht. induction ns as [|c ns IH]; simpl.
  - rewrite Ascii.eqb_refl, pop_cons by apply split_not_nil.
    rewrite split_no_sep by assumption. reflexivity.
  - destruct (Ascii.eqb c sep).
    + rewrite pop_cons by apply split_not_nil. exact IH.
    + destruct (Js.split sep (ns ++ String sep t)) as [|seg segs] eqn:E.
      * exfalso. exact (split_not_nil _ _ E).
      * destruct segs; [|exact IH].
        simpl in IH. exfalso.
        assert (Hlen : 2 <= length (Js.split sep (ns ++ String sep t))).
        { clear. induction ns as [|c' ns IHn]; simpl.
          - rewrite Ascii.eqb_refl. simpl.
            destruct (Js.split sep t) eqn:E';
              [exfalso; exact (split_not_nil _ _ E') | simpl; lia].
          - destruct (Ascii.eqb c' sep); simpl; [lia|].
            destruct (Js.split sep (ns ++ String sep t)); simpl in *; lia. }
        rewrite E in Hlen. simpl in Hlen. lia.
Qed.

Lemma typeKey_plain t : hasChar ":" t = false -> typeKey t = t.
Proof.
  intros H. unfold typeKey. rewrite split_no_sep by assumption. reflexivity.
Qed.

Lemma typeKey_prefixed ns t :
  hasChar ":" t = false -> typeKey (ns ++ ":" ++ t) = t.
Proof.
  intros H. unfold typeKey.
  change (ns ++ ":" ++ t)%string with (ns ++ String ":" t)%string.
  rewrite pop_split_prefix by assumption. reflexivity.
Qed.

(** ** C6: the primitive type mapper *)

(** C6, as the specification states it, fails: the table is looked up
    case-sensitively, so the token "tns:INT" is not an integer token; and a
    token that names a member of [Object.prototype] is not unrecognized. *)
Lemma getType_uppercase_token :
  getType "tns:INT" <> TsType "number"
  /\ getType "xs:constructor" <> TsType "string".
Proof. split; vm_compute; discriminate. Qed.

(** C6 (amended): [getType] is a total function; it looks at the text after
    the last ':' only; case-sensitively, the integer and floating tokens map
    to "number", bool/boolean to "boolean", date/dateTime to "Date", anyType
    to "any"; a token outside the table that is not the name of a member
    inherited from [Object.prototype] maps to "string", as does "tns:INT". *)
Theorem getType_mapping (ns token : string) :
  hasChar ":" token = false ->
  getType (ns ++ ":" ++ token) = getType token
  /\ (In token ["int"; "integer"; "short"; "long"; "double"; "float";
                "decimal"] -> getType token = TsType "number")
  /\ (In token ["bool"; "boolean"] -> getType token = TsType "boolean")
  /\ (In token ["date"; "dateTime"] -> getType token = TsType "Date")
  /\ (token = "anyType" -> getType token = TsType "any")
  /\ (~ In token (map fst typeTable) -> Js.inherited token = false ->
      getType token = TsType "string")
  /\ getType "xs:int" = TsType "number"
  /\ getType "int" = TsType "number"
  /\ getType "tns:INT" = TsType "string"
  /\ getType "xs:unknownThing" = TsType "string".
Proof.
  intros Hc. split.
  { unfold getType. rewrite typeKey_prefixed, typeKey_plain by assumption.
    reflexivity. }
  repeat split; try reflexivity.
  - simpl. intros H.
    repeat (destruct H as [<- | H]; [reflexivity|]). contradiction.
  - simpl. intros H.
    repeat (destruct H as [<- | H]; [reflexivity|]). contradiction.
  - simpl. intros H.
    repeat (destruct H as [<- | H]; [reflexivity|]). contradiction.
  - intros ->. reflexivity.
  - intros Hnot Hinh. unfold getType. rewrite typeKey_plain by assumption.
    rewrite Hinh.
    assert (Hassoc : forall l : list (string * string),
               ~ In token (map fst l) -> assoc token l = None).
    { induction l as [|[k v] l IH]; simpl; [reflexivity|].
      intros Hn. destruct (String.eqb_spec k token) as [->|Hne].
      - exfalso. apply Hn. now left.
      - apply IH. intros Hin. apply Hn. now right. }
    rewrite (Hassoc typeTable Hnot). reflexivity.
Qed.

Lemma getType_mapping_witness :
  hasChar ":" "long" = false
  /\ getType ("soapenc" ++ ":" ++ "long") = getType "long"
  /\ getType "long" = TsType "number".
Proof.
  split; [reflexivity|].
  destruct (getType_mapping "soapenc" "long" eq_refl)
    as (Hstrip & Hnum & _).
  split; [exact Hstrip|].
  apply Hnum. simpl. tauto.
Defined.

(** ** How a session evolves under [parseDefinition] *)

Lemma updateAt_length {A} (f : A -> A) l i :
  length (updateAt i f l) = length l.
Proof.
  revert i. induction l as [|x l IH]; intros [|i]; simpl; auto.
Qed.

Lemma updateAt_nth_error {A} (f : A -> A) l i j :
  nth_error (updateAt i f l) j =
  if Nat.eqb i j then option_map f (nth_error l j) else nth_error l j.
Proof.
  revert i j. induction l as [|x l IH]; intros [|i] [|j]; simpl; auto.
  - destruct (Nat.eqb i j); reflexivity.
Qed.

Lemma updateAt_map {A B} (g : A -> B) (f : A -> A) l i :
  (forall x, g (f x) = g x) -> map g (updateAt i f l) = map g l.
Proof.
  intros Hg. revert i. induction l as [|x l IH]; intros [|i]; simpl;
    rewrite ?Hg, ?IH; reflexivity.
Qed.

(** ** Computations that respect a relation on stores *)

Section Respects.

Context {S : Type}.
Variable R : S -> S -> Prop.
Hypothesis R_refl : forall s, R s s.
Hypothesis R_trans : forall s t u, R s t -> R t u -> R s u.

(** Whatever the outcome, the store a computation leaves is related to the
    store it started from. *)
Definition respects {A} (m : St S A) : Prop :=
  forall s, R s (snd (m s)).

Lemma respects_ret {A} (a : A) : respects (ret a).
Proof. intros s. apply R_refl. Qed.

Lemma respects_throw {A} e : respects (@throw S A e).
Proof. intros s. apply R_refl. Qed.

Lemma respects_outOfFuel {A} : respects (@outOfFuel S A).
Proof. intros s. apply R_refl. Qed.

Lemma respects_bind {A B} (m : St S A) (k : A -> St S B) :
  respects m -> (forall a, respects (k a)) -> respects (bind m k).
Proof.
  intros Hm Hk s. unfold bind. specialize (Hm s).
  destruct (m s) as [[a|e|] s1]; simpl in *; try assumption.
  eapply R_trans; [eassumption | apply Hk].
Qed.

Lemma respects_tryCatch {A} (m : St S A) (h : JsError -> St S A) :
  respects m -> (forall e, respects (h e)) -> respects (tryCatch m h).
Proof.
  intros Hm Hh s. unfold tryCatch. specialize (Hm s).
  destruct (m s) as [[a|e|] s1]; simpl in *; try assumption.
  eapply R_trans; [eassumption | apply Hh].
Qed.

Lemma respects_forEach {A} (f : A -> St S unit) l :
  (forall x, respects (f x)) -> respects (forEach f l).
Proof.
  intros Hf. induction l as [|x l IH]; simpl.
  - apply respects_ret.
  - apply respects_bind; auto.
Qed.

End Respects.

Lemma nth_error_Some_lt {A} (l : list A) i x :
  nth_error l i = Some x -> i < length l.
Proof. intros H. apply nth_error_Some. congruence. Qed.

Section Evolution.

Variable changeCase : string -> bool -> string.
Variable findNonCollisionDefinitionName :
  list Def.t -> string -> JsError + string.
Variable heap : Heap.
Variable options : ParserOptions.

(** The object literal [parseDefinition] builds once a name is found. *)
Definition newDefinition (nonCollisionDefName name : string) : Def.t :=
  {| Def.name := modelNamePreffix options
                 ++ changeCase nonCollisionDefName true
                 ++ modelNameSuffix options;
     Def.sourceName := name;
     Def.docs := [name];
     Def.properties := [];
     Def.description := "" |}.

(** The two pushes of lines 86 and 87. *)
Definition register (def : Def.t) (defParts : RawValue) (s : Session)
  : Session :=
  {| definitions := definitions s ++ [def];
     visitedDefs := visitedDefs s
                    ++ [{| Visited.name := Def.name def;
                           Visited.parts := defParts;
                           Visited.definition := length (definitions s) |}];
     logs := logs s |}.

(** The mutations a run is made of. *)
Inductive evolves (s : Session) : Session -> Prop :=
| ev_refl : evolves s s
| ev_log t e : evolves s t -> evolves s (snd (log e t))
| ev_register t name defParts base :
    evolves s t ->
    findNonCollisionDefinitionName (definitions t) (changeCase name true)
      = inr base ->
    evolves s (register (newDefinition base name) defParts t)
| ev_property t d p :
    evolves s t -> evolves s (snd (mutate d (Def.pushProperty p) t))
| ev_doc t d doc :
    evolves s t -> evolves s (snd (mutate d (Def.pushDoc doc) t)).

Lemma evolves_trans s t u : evolves s t -> evolves t u -> evolves s u.
Proof.
  intros Hst Htu. induction Htu.
  - assumption.
  - now apply ev_log.
  - now apply ev_register.
  - now apply ev_property.
  - now apply ev_doc.
Qed.

(** A computation all of whose effects are such mutations. *)
Definition closed {A} (m : M A) : Prop := respects evolves m.

Lemma closed_ret {A} (a : A) : closed (ret a).
Proof. apply respects_ret, ev_refl. Qed.

Lemma closed_throw {A} e : closed (@throw Session A e).
Proof. apply respects_throw, ev_refl. Qed.

Lemma closed_outOfFuel {A} : closed (@outOfFuel Session A).
Proof. apply respects_outOfFuel, ev_refl. Qed.

Lemma closed_bind {A B} (m : M A) (k : A -> M B) :
  closed m -> (forall a, closed (k a)) -> closed (bind m k).
Proof. apply respects_bind, evolves_trans. Qed.

Lemma closed_tryCatch {A} (m : M A) (h : JsError -> M A) :
  closed m -> (forall e, closed (h e)) -> closed (tryCatch m h).
Proof. apply respects_tryCatch, evolves_trans. Qed.

Lemma closed_forEach {A} (f : A -> M unit) l :
  (forall x, closed (f x)) -> closed (forEach f l).
Proof. apply respects_forEach; [apply ev_refl | apply evolves_trans]. Qed.

Lemma closed_log e : closed (log e).
Proof. intros s. apply ev_log, ev_refl. Qed.

Lemma closed_getVisited : closed getVisited.
Proof. intros s. apply ev_refl. Qed.

Lemma closed_pushProperty d p : closed (mutate d (Def.pushProperty p)).
Proof. intros s. apply ev_property, ev_refl. Qed.

Lemma closed_pushDoc d doc : closed (mutate d (Def.pushDoc doc)).
Proof. intros s. apply ev_doc, ev_refl. Qed.

Lemma closed_typeNameOr type fallback : closed (typeNameOr heap type fallback).
Proof.
  destruct type as [s|node| |]; simpl;
    try apply closed_ret; try apply closed_throw.
Qed.

Lemma closed_nestedCall (rec : string -> RawValue -> list string -> M DefId)
      name defParts stack :
  (forall n p st, closed (rec n p st)) ->
  closed (nestedCall rec name defParts stack).
Proof.
  intros Hrec. destruct name; simpl; [apply Hrec|apply closed_throw ..].
Qed.

Lemma closed_callFind defName :
  closed (callFindNonCollisionDefinitionName
            findNonCollisionDefinitionName defName).
Proof.
  intros s. unfold callFindNonCollisionDefinitionName.
  destruct (findNonCollisionDefinitionName _ _); apply ev_refl.
Qed.

Create HintDb closed.

#[local] Hint Resolve closed_ret closed_throw closed_outOfFuel closed_log
  closed_getVisited closed_pushProperty closed_pushDoc closed_typeNameOr
  closed_callFind : closed.

Ltac closed_step :=
  first [ apply closed_bind; [|intros ?]
        | apply closed_tryCatch; [|intros ?]
        | solve [auto with closed] ].

Lemma closed_parseArrayProperty rec d name stack propName type :
  (forall n p st, closed (rec n p st)) ->
  closed (parseArrayProperty heap rec d name stack propName type).
Proof.
  intros Hrec. unfold parseArrayProperty.
  destruct type as [ty|node| |];
    try solve [auto with closed];
    (destruct (instanceofComplexTypeElement heap _);
     [repeat closed_step|]);
    (apply closed_bind; [auto with closed|]; intros visited;
     destruct (findReferenceDefiniton visited _);
     repeat closed_step; apply closed_nestedCall, Hrec).
Qed.

Lemma closed_parsePlainProperty rec d name stack propName type :
  (forall n p st, closed (rec n p st)) ->
  closed (parsePlainProperty heap rec d name stack propName type).
Proof.
  intros Hrec. unfold parsePlainProperty.
  destruct type as [ty|node| |];
    try solve [auto with closed];
    (destruct (instanceofComplexTypeElement heap _);
     [repeat closed_step|]);
    (apply closed_bind; [auto with closed|]; intros visited;
     destruct (findReferenceDefiniton visited _);
     repeat closed_step; apply closed_nestedCall, Hrec).
Qed.

Lemma closed_parseEntry rec d name stack entry :
  (forall n p st, closed (rec n p st)) ->
  closed (parseEntry heap rec d name stack entry).
Proof.
  intros Hrec. unfold parseEntry. destruct entry as [propName type].
  repeat match goal with
         | |- closed (if ?b then _ else _) => destruct b
         end; auto with closed.
  - now apply closed_parseArrayProperty.
  - now apply closed_parsePlainProperty.
Qed.

(** What [parseDefinition] does after naming: both pushes, then the body. *)
Lemma parseDefinition_unfold fuel name defParts stack s :
  parseDefinition changeCase findNonCollisionDefinitionName heap options
    (S fuel) name defParts stack s =
  let s0 := snd (log (LogDebug ("Parsing Definition " ++ Js.join "." stack
                                ++ "." ++ name)) s) in
  match findNonCollisionDefinitionName (definitions s)
          (changeCase name true) with
  | inl _ =>
      (Throw (Error ("Error for finding non-collision definition name for "
                     ++ Js.join "." stack ++ "." ++ name)), s0)
  | inr base =>
      let def := newDefinition base name in
      let d := length (definitions s) in
      bind
        (match defParts with
         | VStr "" | VUndefined | VNull => ret tt
         | VStr str =>
             let newParts := Js.split "|" str in
             match nth_error newParts 1 with
             | Some ty =>
                 mutate d (Def.pushProperty
                   (Property.PRIMITIVE (Def.name def)
                      (nth 0 newParts "") str (getType ty) false))
             | None => throw TypeError
             end
         | VObj node =>
             let obj := deref heap node in
             if hasProp obj "undefined"
                && strictEq (getProp obj "undefined") VUndefined then
               log (LogError "Problem while generating a definition file"
                             (Js.join "." stack) defParts)
             else
               forEach
                 (parseEntry heap
                    (parseDefinition changeCase
                       findNonCollisionDefinitionName heap options fuel)
                    d name stack)
                 (entries obj)
         end)
        (fun _ => ret d)
        (register def defParts s0)
  end.
Proof.
  cbn [parseDefinition]. unfold bind at 1. cbn [log fst snd].
  unfold bind at 1, tryCatch, callFindNonCollisionDefinitionName.
  cbn [definitions].
  destruct (findNonCollisionDefinitionName (definitions s)
              (changeCase name true)) as [e|base]; reflexivity.
Qed.

Theorem parseDefinition_closed fuel name defParts stack :
  closed (parseDefinition changeCase findNonCollisionDefinitionName heap
            options fuel name defParts stack).
Proof.
  revert name defParts stack.
  induction fuel as [|fuel IH]; intros name defParts stack s.
  - apply ev_refl.
  - rewrite parseDefinition_unfold. cbv zeta.
    destruct (findNonCollisionDefinitionName (definitions s)
                (changeCase name true)) as [e|base] eqn:Hreg.
    + apply ev_log, ev_refl.
    + match goal with
      | |- evolves s (snd (bind ?m ?k (register ?d ?p ?s0))) =>
          apply (evolves_trans s (register d p s0));
            [ apply (ev_register s s0 name p base);
                [apply ev_log, ev_refl | exact Hreg]
            | apply (closed_bind m k); [|auto with closed] ]
      end.
      destruct defParts as [str|node| |]; auto with closed.
      * destruct str as [|c str]; auto with closed.
        cbv zeta. destruct (nth_error _ 1); auto with closed.
      * cbv zeta. destruct (_ && _); auto with closed.
        apply closed_forEach. intros entry.
        apply closed_parseEntry. exact IH.
Qed.

End Evolution.

(** ** C10: how a Definition gets its name *)

Section Naming.

Variable changeCase : string -> bool -> string.
Variable findNonCollisionDefinitionName :
  list Def.t -> string -> JsError + string.
Variable heap : Heap.
Variable options : ParserOptions.

Local Abbreviation evolves :=
  (evolves changeCase findNonCollisionDefinitionName options).
Local Abbreviation parseDefinition :=
  (parseDefinition changeCase findNonCollisionDefinitionName heap options).

(** [def], the [i]-th Definition of the collection [defs], was named by the
    policy: the registry, asked for the PascalCased source name while the
    collection held the [i] Definitions before it, answered [base], and the
    final name is prefix, PascalCased [base], suffix. *)
Definition namedByPolicy (defs : list Def.t) (i : nat) (def : Def.t) : Prop :=
  exists before base,
    map Def.name before = map Def.name (firstn i defs)
    /\ findNonCollisionDefinitionName before
         (changeCase (Def.sourceName def) true) = inr base
    /\ Def.name def = (modelNamePreffix options ++ changeCase base true
                       ++ modelNameSuffix options)%string.

Lemma map_firstn_updateAt {B} (g : Def.t -> B) f l d i :
  (forall x, g (f x) = g x) ->
  map g (firstn i (updateAt d f l)) = map g (firstn i l).
Proof.
  intros Hg. rewrite <- !firstn_map, updateAt_map by assumption. reflexivity.
Qed.

Lemma namedByPolicy_mutate defs i def d f :
  (forall x, Def.name (f x) = Def.name x) ->
  (forall x, Def.sourceName (f x) = Def.sourceName x) ->
  (forall def0, nth_error defs i = Some def0 -> namedByPolicy defs i def0) ->
  nth_error (updateAt d f defs) i = Some def ->
  namedByPolicy (updateAt d f defs) i def.
Proof.
  intros Hn Hs Hold Hnth. rewrite updateAt_nth_error in Hnth.
  assert (Hex : exists def0, nth_error defs i = Some def0
                 /\ Def.name def = Def.name def0
                 /\ Def.sourceName def = Def.sourceName def0).
  { destruct (Nat.eqb d i).
    - destruct (nth_error defs i) as [def0|]; [|discriminate].
      injection Hnth as <-. eauto.
    - eauto. }
  destruct Hex as (def0 & Hnth0 & En & Es).
  destruct (Hold def0 Hnth0) as (before & base & Hb & Hreg & Hname).
  exists before, base. rewrite map_firstn_updateAt by assumption.
  rewrite Es, En. auto.
Qed.

Lemma evolves_named s t :
  evolves s t ->
  forall i def,
    length (definitions s) <= i ->
    nth_error (definitions t) i = Some def ->
    namedByPolicy (definitions t) i def.
Proof.
  induction 1 as [|t e _ IH|t name defParts base _ IH Hreg
                  |t d p _ IH|t d doc _ IH]; intros i def Hi Hnth.
  - apply nth_error_Some_lt in Hnth. lia.
  - exact (IH i def Hi Hnth).
  - cbn [register definitions] in *.
    assert (Hlt : i < length (definitions t) \/ i = length (definitions t)).
    { apply nth_error_Some_lt in Hnth. rewrite length_app in Hnth.
      simpl in Hnth. lia. }
    destruct Hlt as [Hlt | ->].
    + rewrite nth_error_app1 in Hnth by assumption.
      destruct (IH i def Hi Hnth) as (before & b & Hb & Hr & Hn).
      exists before, b. rewrite firstn_app.
      replace (i - length (definitions t)) with 0 by lia.
      rewrite firstn_0, app_nil_r. auto.
    + rewrite nth_error_app2, Nat.sub_diag in Hnth by lia.
      injection Hnth as <-.
      exists (definitions t), base.
      rewrite firstn_app, Nat.sub_diag, firstn_0, app_nil_r, firstn_all.
      auto.
  - cbn [mutate snd definitions] in *.
    apply namedByPolicy_mutate with (4 := Hnth); auto.
  - cbn [mutate snd definitions] in *.
    apply namedByPolicy_mutate with (4 := Hnth); auto.
Qed.

Lemma evolves_visited s t :
  evolves s t -> exists more, visitedDefs t = visitedDefs s ++ more.
Proof.
  induction 1 as [|t e _ [m IH]|t name defParts base _ [m IH] Hreg
                  |t d p _ [m IH]|t d doc _ [m IH]];
    cbn [register log mutate snd visitedDefs].
  - exists []. now rewrite app_nil_r.
  - eauto.
  - rewrite IH, <- app_assoc. eauto.
  - eauto.
  - eauto.
Qed.

(** C10: every Definition created by a run of [parseDefinition] (one at a
    position the collection did not have before the run) got its name from
    the registry's answer for the PascalCased source name, asked without
    prefix or suffix; the final name is the prefix, the PascalCased answer
    and the suffix, concatenated after the collision check.  The Definition
    the call returns is such a one, with the call's [name] as source name. *)
Theorem parseDefinition_name_policy fuel name defParts stack s o s' :
  parseDefinition fuel name defParts stack s = (o, s') ->
  (forall i def,
      length (definitions s) <= i ->
      nth_error (definitions s') i = Some def ->
      namedByPolicy (definitions s') i def)
  /\ (forall d, o = Ok d ->
      d = length (definitions s)
      /\ exists def base,
           nth_error (definitions s') d = Some def
           /\ Def.sourceName def = name
           /\ findNonCollisionDefinitionName (definitions s)
                (changeCase name true) = inr base
           /\ Def.name def = (modelNamePreffix options
                              ++ changeCase base true
                              ++ modelNameSuffix options)%string).
Proof.
  intros Hrun. split.
  - apply evolves_named.
    pose proof (parseDefinition_closed changeCase
                  findNonCollisionDefinitionName heap options
                  fuel name defParts stack s) as H.
    now rewrite Hrun in H.
  - intros d ->. destruct fuel as [|fuel]; [discriminate|].
    rewrite parseDefinition_unfold in Hrun. cbv zeta in Hrun.
    destruct (findNonCollisionDefinitionName (definitions s)
                (changeCase name true)) as [e|base] eqn:Hreg;
      [discriminate|].
    unfold bind in Hrun.
    match type of Hrun with
    | (match ?body ?s1 with _ => _ end) = _ =>
        assert (Hnth : nth_error (definitions s1) (length (definitions s))
                       = Some (newDefinition changeCase options base name))
          by (cbn [register log snd definitions];
              rewrite nth_error_app2, Nat.sub_diag by lia; reflexivity);
        assert (Hbody : closed changeCase findNonCollisionDefinitionName
                          options body);
        [|specialize (Hbody s1); revert Hnth Hbody Hrun;
          generalize s1 as s1'; intros s1' Hnth Hbody Hrun;
          destruct (body s1') as [[[]|e|] s2] eqn:E]
    end.
    { destruct defParts as [str|node| |]; try apply closed_ret.
      - destruct str as [|c str]; try apply closed_ret.
        cbv zeta. destruct (nth_error _ 1);
          [apply closed_pushProperty | apply closed_throw].
      - cbv zeta. destruct (_ && _); [apply closed_log|].
        apply closed_forEach. intros entry. apply closed_parseEntry.
        intros n p st. apply parseDefinition_closed. }
    all: try discriminate.
    cbn [ret] in Hrun. injection Hrun as <- <-. split; [reflexivity|].
    cbn [snd] in Hbody.
    revert Hnth Hbody. generalize (length (definitions s)) as d.
    intros d Hnth Hbody.
    assert (Hkeep : forall t u,
               evolves t u ->
               forall def0, nth_error (definitions t) d = Some def0 ->
               exists def1, nth_error (definitions u) d = Some def1
                            /\ Def.name def1 = Def.name def0
                            /\ Def.sourceName def1 = Def.sourceName def0).
    { clear. induction 1 as [|u e _ IH|u n p b _ IH Hr|u d' p _ IH
                             |u d' doc _ IH]; intros def0 H0.
      - eauto.
      - exact (IH def0 H0).
      - destruct (IH def0 H0) as (def1 & H1 & Hn & Hs).
        exists def1. cbn [register definitions].
        rewrite nth_error_app1 by (now apply nth_error_Some_lt in H1). auto.
      - destruct (IH def0 H0) as (def1 & H1 & Hn & Hs).
        cbn [mutate snd definitions]. rewrite updateAt_nth_error, H1.
        destruct (Nat.eqb d' d); simpl; eauto.
      - destruct (IH def0 H0) as (def1 & H1 & Hn & Hs).
        cbn [mutate snd definitions]. rewrite updateAt_nth_error, H1.
        destruct (Nat.eqb d' d); simpl; eauto. }
    destruct (Hkeep _ _ Hbody _ Hnth) as (def1 & H1 & Hn & Hs).
    exists def1, base. repeat split; assumption.
Qed.

End Naming.

(** ** C8 and C4: the decoder quirk, and errors of sub-definitions *)

Section Failures.

Variable changeCase : string -> bool -> string.
Variable findNonCollisionDefinitionName :
  list Def.t -> string -> JsError + string.
Variable heap : Heap.
Variable options : ParserOptions.

Local Abbreviation parseDefinition :=
  (parseDefinition changeCase findNonCollisionDefinitionName heap options).

(** C8 (amended): when the mapping has the key "undefined" with the value
    [undefined], the branch that iterates the entries is not taken: once the
    registry has given a name, the Definition is pushed with no property at
    all, whatever other entries the mapping has, a diagnostic is logged and
    the call returns the Definition; when the registry refuses the name the
    call throws the naming error as for any other structure. *)
Theorem parseDefinition_undefined_key fuel name node stack s :
  hasProp (deref heap node) "undefined" = true ->
  getProp (deref heap node) "undefined" = VUndefined ->
  parseDefinition (S fuel) name (VObj node) stack s =
  let debug :=
    LogDebug ("Parsing Definition " ++ Js.join "." stack ++ "." ++ name) in
  match findNonCollisionDefinitionName (definitions s)
          (changeCase name true) with
  | inr base =>
      let finalName := (modelNamePreffix options ++ changeCase base true
                        ++ modelNameSuffix options)%string in
      (Ok (length (definitions s)),
       {| definitions :=
            definitions s
            ++ [{| Def.name := finalName;
                   Def.sourceName := name;
                   Def.description := "";
                   Def.docs := [name];
                   Def.properties := [] |}];
          visitedDefs :=
            visitedDefs s
            ++ [{| Visited.name := finalName;
                   Visited.parts := VObj node;
                   Visited.definition := length (definitions s) |}];
          logs :=
            logs s
            ++ [debug;
                LogError "Problem while generating a definition file"
                         (Js.join "." stack) (VObj node)] |})
  | inl _ =>
      (Throw (Error ("Error for finding non-collision definition name for "
                     ++ Js.join "." stack ++ "." ++ name)),
       {| definitions := definitions s;
          visitedDefs := visitedDefs s;
          logs := logs s ++ [debug] |})
  end.
Proof.
  intros Hin Hundef. rewrite parseDefinition_unfold. cbv zeta.
  destruct (findNonCollisionDefinitionName (definitions s)
              (changeCase name true)) as [e|base]; [reflexivity|].
  rewrite Hin, Hundef. cbn [strictEq andb].
  unfold bind, log, register, newDefinition, ret. cbn.
  rewrite <- app_assoc. reflexivity.
Qed.

(** Whatever error a nested [parseDefinition] call throws, the enclosing
    call throws a fresh [Error] built from its own [stack] and [name]
    alone. *)
Lemma parsePlainProperty_rethrows rec d name stack propName node s e s1 :
  isComplexTypeElement (deref heap node) = false ->
  findReferenceDefiniton (visitedDefs s) (VObj node) = None ->
  nestedCall rec (typeNameOf heap node propName) (VObj node)
             (stack ++ [propName]) s = (Throw e, s1) ->
  parsePlainProperty heap rec d name stack propName (VObj node) s =
  (Throw (Error ("Error while parsing Subdefinition for "
                 ++ Js.join "." stack ++ "." ++ name)), s1).
Proof.
  intros Hc Hfind Hrec. unfold parsePlainProperty.
  cbn [instanceofComplexTypeElement]. rewrite Hc.
  unfold bind at 1. cbn [getVisited]. rewrite Hfind.
  unfold tryCatch, bind, typeNameOr. cbn [ret].
  rewrite Hrec. reflexivity.
Qed.

Lemma parseArrayProperty_rethrows rec d name stack propName node s e s1 :
  isComplexTypeElement (deref heap node) = false ->
  findReferenceDefiniton (visitedDefs s) (VObj node) = None ->
  nestedCall rec
    (typeNameOf heap node
       (String.substring 0 (String.length propName - 2) propName))
    (VObj node) (stack ++ [propName]) s = (Throw e, s1) ->
  parseArrayProperty heap rec d name stack propName (VObj node) s =
  (Throw (Error ("Error while parsing Subdefinition for '"
                 ++ Js.join "." stack ++ "." ++ name ++ "'")), s1).
Proof.
  intros Hc Hfind Hrec. unfold parseArrayProperty.
  cbn [instanceofComplexTypeElement]. rewrite Hc.
  unfold bind at 1. cbn [getVisited]. rewrite Hfind.
  unfold tryCatch, bind, typeNameOr. cbn [ret].
  rewrite Hrec. reflexivity.
Qed.

End Failures.

(** ** C3: the name-collision policy *)

Lemma retry_Some o defs base k r res :
  Registry.retry o defs base k r = Some res ->
  Registry.taken o defs res = false
  /\ exists j, k <= j < k + r
               /\ res = (base ++ Js.ofNat j)%string
               /\ forall i, k <= i < j ->
                    Registry.taken o defs (base ++ Js.ofNat i) = true.
Proof.
  revert k. induction r as [|r IH]; intros k; simpl; [discriminate|].
  destruct (Registry.taken o defs (base ++ Js.ofNat k)) eqn:Hk.
  - intros H. destruct (IH _ H) as (Hfree & j & Hj & Hres & Hbelow).
    split; [assumption|]. exists j. repeat split; try lia; try assumption.
    intros i Hi. destruct (Nat.eq_dec i k) as [->|Hne]; [assumption|].
    apply Hbelow. lia.
  - intros [= <-]. split; [assumption|]. exists k.
    repeat split; try lia; intros; lia.
Qed.

Lemma retry_None o defs base k r :
  (forall j, k <= j < k + r ->
     Registry.taken o defs (base ++ Js.ofNat j) = true) ->
  Registry.retry o defs base k r = None.
Proof.
  revert k. induction r as [|r IH]; intros k Hall; simpl; [reflexivity|].
  rewrite Hall by lia. apply IH. intros j Hj. apply Hall. lia.
Qed.

(** C3: a proposed name no Definition has is accepted as it is; a name the
    registry answers is free, and is the proposed name or the proposed name
    with the least free suffix among 2, 3, ..., at most the configured
    number of retries away; when the name and all those suffixed names are
    taken the registry fails with NameCollisionExhausted; the ceiling
    defaults to 64.  Three distinct structures proposing "Address" resolve
    to "Address", "Address2" and "Address3"; with a ceiling of 1 the third
    fails. *)
Theorem name_collision_policy (o : Registry.Options) (defs : list Def.t)
    (n : string) :
  (Registry.taken o defs n = false ->
   Registry.findNonCollisionDefinitionName o defs n = inr n)
  /\ (forall r,
        Registry.findNonCollisionDefinitionName o defs n = inr r ->
        Registry.taken o defs r = false
        /\ (r = n
            \/ exists j,
                 2 <= j <= Registry.maxNameCollisionRetries o + 1
                 /\ r = (n ++ Js.ofNat j)%string
                 /\ Registry.taken o defs n = true
                 /\ forall i, 2 <= i < j ->
                      Registry.taken o defs (n ++ Js.ofNat i) = true))
  /\ (Registry.taken o defs n = true ->
      (forall j, 2 <= j <= Registry.maxNameCollisionRetries o + 1 ->
         Registry.taken o defs (n ++ Js.ofNat j) = true) ->
      Registry.findNonCollisionDefinitionName o defs n
      = inl (Registry.NameCollisionExhausted n))
  /\ Registry.maxNameCollisionRetries (Registry.create false None) = 64
  /\ maxRecursiveDefinitionName defaultOptions = 64
  /\ map Def.name
       (definitions
          (snd (parseDefinition Examples.wordCase (Examples.registry None)
                  Examples.addressHeap defaultOptions 2
                  "Root" (VObj 0) ["Root"] emptySession)))
     = ["Root"; "Address"; "Address2"; "Address3"]
  /\ (let run :=
        parseDefinition Examples.wordCase (Examples.registry (Some 1))
          Examples.addressHeap defaultOptions 2
          "Root" (VObj 0) ["Root"] emptySession in
      map Def.name (definitions (snd run)) = ["Root"; "Address"; "Address2"]
      /\ Examples.registry (Some 1) (definitions (snd run)) "Address"
         = inl (Registry.NameCollisionExhausted "Address")
      /\ exists e, fst run = Throw e).
Proof.
  unfold Registry.findNonCollisionDefinitionName.
  split; [|split; [|split; [|split; [|split; [|split]]]]].
  - intros ->. reflexivity.
  - intros r. destruct (Registry.taken o defs n) eqn:Hn.
    + destruct (Registry.retry o defs n 2 _) as [res|] eqn:Hr;
        [|discriminate].
      intros [= <-].
      destruct (retry_Some _ _ _ _ _ _ Hr) as (Hfree & j & Hj & Hres & Hb).
      split; [assumption|]. right. exists j.
      repeat split; try lia; assumption.
    + intros [= <-]. auto.
  - intros -> Hall. rewrite retry_None; [reflexivity|].
    intros j Hj. apply Hall. lia.
  - reflexivity.
  - reflexivity.
  - vm_compute. reflexivity.
  - vm_compute. repeat split; eauto.
Qed.

Lemma name_collision_policy_witness :
  Registry.findNonCollisionDefinitionName (Registry.create false None)
    [newDefinition Examples.wordCase defaultOptions "Address" "Address"]
    "Customer" = inr "Customer".
Proof.
  apply (name_collision_policy (Registry.create false None)
           [newDefinition Examples.wordCase defaultOptions
              "Address" "Address"] "Customer").
  reflexivity.
Defined.

(** ** C1 and C5: the resolved graph mirrors the raw graph *)

(** The Definition created for a raw node: the one the visited cache
    answers for it. *)
Definition definitionOf (s : Session) (node : NodeId) : option DefId :=
  option_map Visited.definition
    (findReferenceDefiniton (visitedDefs s) (VObj node)).


(** Keys of a mapping that become documentation or are skipped. *)
Definition isMetadataKey (key : string) : bool :=
  String.eqb key "targetNSAlias" || String.eqb key "typeName"
  || String.eqb key "targetNamespace".

(** The public name of the property made from a key. *)
Definition publicName (key : string) : string :=
  if Js.endsWith key "[]"
  then String.substring 0 (String.length key - 2) key
  else key.



(** Every Definition is paired with the visited entry pushed with it. *)
Definition aligned (s : Session) : Prop :=
  length (visitedDefs s) = length (definitions s)
  /\ forall i v, nth_error (visitedDefs s) i = Some v ->
                 Visited.definition v = i.

(** All references inside the heap point into the heap. *)
Definition heapClosed (heap : Heap) : bool :=
  forallb (fun obj =>
             forallb (fun e => match snd e with
                               | VObj c => Nat.ltb c (length heap)
                               | _ => true
                               end) (entries obj)) heap.

Section Resolution.

Variable changeCase : string -> bool -> string.
Variable findNonCollisionDefinitionName :
  list Def.t -> string -> JsError + string.
Variable heap : Heap.
Variable options : ParserOptions.

Local Abbreviation parseDefinition :=
  (parseDefinition changeCase findNonCollisionDefinitionName heap options).









Lemma find_app_Some {A} (p : A -> bool) l m x :
  find p l = Some x -> find p (l ++ m) = Some x.
Proof.
  induction l as [|y l IH]; simpl; [discriminate|].
  destruct (p y); auto.
Qed.

Lemma find_app_None {A} (p : A -> bool) l m :
  find p l = None -> find p (l ++ m) = find p m.
Proof.
  induction l as [|y l IH]; simpl; [reflexivity|].
  destruct (p y); [discriminate | auto].
Qed.







Lemma aligned_mutate d f t : aligned t -> aligned (snd (mutate d f t)).
Proof.
  intros [Hlen Hid]. split; cbn [mutate snd visitedDefs definitions].
  - now rewrite updateAt_length.
  - exact Hid.
Qed.

Lemma aligned_register def defParts t :
  aligned t -> aligned (register def defParts t).
Proof.
  intros [Hlen Hid]. split; cbn [register visitedDefs definitions].
  - rewrite !length_app. simpl. lia.
  - intros i v Hnth.
    destruct (Nat.lt_ge_cases i (length (visitedDefs t))) as [Hlt|Hge].
    + rewrite nth_error_app1 in Hnth by assumption. auto.
    + rewrite nth_error_app2 in Hnth by assumption.
      destruct (i - length (visitedDefs t)) as [|n] eqn:E; simpl in Hnth.
      * injection Hnth as <-. simpl. lia.
      * destruct n; discriminate.
Qed.






Lemma typeNameOr_object c fallback :
  exists nm, typeNameOr heap (VObj c) fallback = ret nm.
Proof. unfold typeNameOr. eauto. Qed.







(** Every session the resolver builds from an aligned one is aligned. *)
Lemma evolves_aligned s t :
  evolves changeCase findNonCollisionDefinitionName options s t ->
  aligned s -> aligned t.
Proof.
  induction 1; intros Hal.
  - assumption.
  - auto.
  - apply aligned_register. auto.
  - apply aligned_mutate. auto.
  - apply aligned_mutate. auto.
Qed.

Lemma parseDefinition_aligned fuel name defParts stack s :
  aligned s ->
  aligned (snd (parseDefinition fuel name defParts stack s)).
Proof.
  apply evolves_aligned. apply parseDefinition_closed.
Qed.


(** *** Termination *)

(** The raw objects of the heap the visited cache does not hold yet. *)
Definition unvisited (visited : list Visited.t) : list NodeId :=
  filter (fun k => match findReferenceDefiniton visited (VObj k) with
                   | None => true
                   | Some _ => false
                   end)
         (seq 0 (length heap)).

Lemma filter_length_le {A} (p q : A -> bool) l :
  (forall x, p x = true -> q x = true) ->
  length (filter p l) <= length (filter q l).
Proof.
  intros Hpq. induction l as [|x l IH]; simpl; [lia|].
  destruct (p x) eqn:Hp.
  - rewrite (Hpq x Hp). simpl. lia.
  - destruct (q x); simpl; lia.
Qed.

Lemma filter_length_lt {A} (p q : A -> bool) l x :
  (forall y, p y = true -> q y = true) ->
  In x l -> q x = true -> p x = false ->
  length (filter p l) < length (filter q l).
Proof.
  intros Hpq. induction l as [|y l IH]; simpl; [contradiction|].
  intros [->|Hin] Hq Hp.
  - rewrite Hq, Hp. simpl.
    pose proof (filter_length_le p q l Hpq). lia.
  - specialize (IH Hin Hq Hp). destruct (p y) eqn:Hpy.
    + rewrite (Hpq y Hpy). simpl. lia.
    + destruct (q y); simpl; lia.
Qed.

Lemma unvisited_mono visited more :
  length (unvisited (visited ++ more)) <= length (unvisited visited).
Proof.
  apply filter_length_le. intros k. unfold findReferenceDefiniton.
  destruct (find _ visited) as [v|] eqn:E; [|reflexivity].
  now rewrite (find_app_Some _ _ more _ E).
Qed.

Lemma unvisited_register visited k vn d :
  k < length heap ->
  findReferenceDefiniton visited (VObj k) = None ->
  length (unvisited
            (visited ++ [{| Visited.name := vn; Visited.parts := VObj k;
                            Visited.definition := d |}]))
  < length (unvisited visited).
Proof.
  intros Hk Hnone. apply filter_length_lt with (x := k).
  - intros j. unfold findReferenceDefiniton.
    destruct (find _ visited) as [v|] eqn:E; [|reflexivity].
    now rewrite (find_app_Some _ _ _ _ E).
  - apply in_seq. lia.
  - now rewrite Hnone.
  - unfold findReferenceDefiniton in *. rewrite (find_app_None _ _ _ Hnone).
    simpl. now rewrite Nat.eqb_refl.
Qed.

Lemma heapClosed_entry node key c :
  heapClosed heap = true ->
  In (key, VObj c) (entries (deref heap node)) ->
  c < length heap.
Proof.
  intros Hclosed Hin. unfold heapClosed in Hclosed.
  rewrite forallb_forall in Hclosed. unfold deref in Hin.
  destruct (nth_in_or_default node heap emptyObject) as [Hnth|Hdef].
  - specialize (Hclosed _ Hnth). rewrite forallb_forall in Hclosed.
    specialize (Hclosed _ Hin). simpl in Hclosed.
    now apply Nat.ltb_lt in Hclosed.
  - rewrite Hdef in Hin. contradiction.
Qed.

(** A call with budget [n] does not exhaust it when the budget exceeds the
    number of unvisited objects, or equals it at least while the object
    called on is itself unvisited. *)
Definition Terminates (n : nat)
    (rec : string -> RawValue -> list string -> M DefId) : Prop :=
  forall name defParts stack s,
    length (unvisited (visitedDefs s)) < n
    \/ (exists k, defParts = VObj k /\ k < length heap
                  /\ definitionOf s k = None
                  /\ length (unvisited (visitedDefs s)) <= n) ->
    fst (rec name defParts stack s) <> OutOfFuel.

Lemma property_terminates n rec d stack key pub type isArr descr wrap warn
      node t :
  heapClosed heap = true ->
  Terminates n rec ->
  In (key, type) (entries (deref heap node)) ->
  length (unvisited (visitedDefs t)) <= n ->
  fst (match type with
       | VStr ty =>
           mutate d (Def.pushProperty
             (Property.PRIMITIVE pub key ty (getType ty) isArr))
       | _ =>
           if instanceofComplexTypeElement heap type then
             mutate d (Def.pushProperty
               (Property.PRIMITIVE pub key
                  (dollarName heap type
                   ++ " - ComplexType are not supported yet")
                  (TsType "any") isArr)) ;;
             log warn
           else
             visitedDefs <- getVisited ;;
             match findReferenceDefiniton visitedDefs type with
             | Some visited =>
                 sourceName <- typeNameOr heap type pub ;;
                 mutate d (Def.pushProperty
                   (Property.REFERENCE pub sourceName descr
                      (Visited.definition visited) isArr))
             | None =>
                 tryCatch
                   (subName <- typeNameOr heap type pub ;;
                    subDefinition <- nestedCall rec subName type
                                                (stack ++ [key]) ;;
                    sourceName <- typeNameOr heap type pub ;;
                    mutate d (Def.pushProperty
                      (Property.REFERENCE pub sourceName None
                         subDefinition isArr)))
                   (fun _ => throw wrap)
             end
       end t) <> OutOfFuel.
Proof.
  intros Hclosed Hrec Hin Hcount.
  destruct type as [ty|c| |]; cbn [instanceofComplexTypeElement].
  - discriminate.
  - destruct (isComplexTypeElement (deref heap c)); [discriminate|].
    unfold bind at 1. cbn [getVisited].
    destruct (findReferenceDefiniton (visitedDefs t) (VObj c)) as [v|] eqn:Hfind.
    + destruct (typeNameOr_object c pub) as [nm ->]. discriminate.
    + destruct (typeNameOr_object c pub) as [nm ->].
      unfold tryCatch, bind. cbn [ret].
      destruct nm as [nm| | |]; cbn [nestedCall]; try discriminate.
      assert (Hcall : fst (rec nm (VObj c) (stack ++ [key]) t) <> OutOfFuel).
      { apply Hrec. right. exists c. repeat split; try assumption.
        - eapply heapClosed_entry; eassumption.
        - unfold definitionOf. now rewrite Hfind. }
      destruct (rec nm (VObj c) (stack ++ [key]) t) as [[sub|e|] t1];
        cbn in *; congruence.
  - unfold bind at 1. cbn [getVisited].
    destruct (findReferenceDefiniton (visitedDefs t) VUndefined);
      discriminate.
  - unfold bind at 1. cbn [getVisited].
    destruct (findReferenceDefiniton (visitedDefs t) VNull); discriminate.
Qed.

Lemma parseEntry_terminates n rec d name stack e node t :
  heapClosed heap = true ->
  Terminates n rec ->
  In e (entries (deref heap node)) ->
  length (unvisited (visitedDefs t)) <= n ->
  fst (parseEntry heap rec d name stack e t) <> OutOfFuel.
Proof.
  intros Hclosed Hrec Hin Hcount. destruct e as [key type].
  unfold parseEntry.
  destruct (String.eqb key "targetNSAlias"); [discriminate|].
  destruct (String.eqb key "typeName"); [discriminate|].
  destruct (String.eqb key "targetNamespace"); [discriminate|].
  destruct (Js.endsWith key "[]").
  - unfold parseArrayProperty. cbv zeta.
    eapply property_terminates; eassumption.
  - unfold parsePlainProperty.
    eapply property_terminates; eassumption.
Qed.

Lemma forEach_terminates n rec d name stack node :
  heapClosed heap = true ->
  Terminates n rec ->
  (forall nm p st, closed changeCase findNonCollisionDefinitionName options
                     (rec nm p st)) ->
  forall l t,
    incl l (entries (deref heap node)) ->
    length (unvisited (visitedDefs t)) <= n ->
    fst (forEach (parseEntry heap rec d name stack) l t) <> OutOfFuel.
Proof.
  intros Hclosed Hrec Hcl. induction l as [|e l IH]; intros t Hincl Hcount.
  - discriminate.
  - cbn [forEach]. unfold bind.
    pose proof (parseEntry_terminates n rec d name stack e node t Hclosed
                  Hrec (Hincl e (or_introl eq_refl)) Hcount) as He.
    pose proof (closed_parseEntry changeCase findNonCollisionDefinitionName
                  heap options rec d name stack e Hcl t) as Hev.
    destruct (parseEntry heap rec d name stack e t) as [[[]|err|] t1];
      cbn in *; try congruence.
    apply IH.
    + intros x Hx. apply Hincl. now right.
    + apply evolves_visited in Hev as [more ->].
      pose proof (unvisited_mono (visitedDefs t) more). lia.
Qed.

Lemma parseDefinition_terminates fuel :
  heapClosed heap = true -> Terminates fuel (parseDefinition fuel).
Proof.
  intros Hclosed.
  induction fuel as [|fuel IH]; intros name defParts stack s Hfuel.
  - exfalso. destruct Hfuel as [H | (k & -> & Hk & Hnone & Hcount)]; [lia|].
    assert (Hin : In k (unvisited (visitedDefs s))).
    { apply filter_In. split; [apply in_seq; lia|].
      unfold definitionOf in Hnone.
      now destruct (findReferenceDefiniton (visitedDefs s) (VObj k)). }
    destruct (unvisited (visitedDefs s)); [contradiction | simpl in *; lia].
  - rewrite parseDefinition_unfold. cbv zeta.
    destruct (findNonCollisionDefinitionName (definitions s)
                (changeCase name true)) as [e|base]; [discriminate|].
    set (def := newDefinition changeCase options base name).
    match goal with
    | |- fst (bind ?body _ (register def defParts ?s0)) <> _ =>
        assert (Hcount : length (unvisited
                  (visitedDefs (register def defParts s0))) <= fuel);
        [|assert (Hbody : fst (body (register def defParts s0)) <> OutOfFuel);
          [|unfold bind;
            destruct (body (register def defParts s0)) as [[[]|err|] t];
            cbn in *; congruence]]
    end.
    + cbn [register log snd visitedDefs].
      destruct Hfuel as [H | (k & -> & Hk & Hnone & Hcount)].
      * match goal with
        | |- length (unvisited (?V ++ ?m)) <= _ =>
            pose proof (unvisited_mono V m)
        end. lia.
      * unfold definitionOf in Hnone.
        destruct (findReferenceDefiniton (visitedDefs s) (VObj k)) eqn:Hfind;
          [discriminate|].
        match goal with
        | |- length (unvisited (_ ++ [{| Visited.name := ?vn;
                                         Visited.parts := _;
                                         Visited.definition := ?d |}])) <= _ =>
            pose proof (unvisited_register (visitedDefs s) k vn d Hk Hfind)
        end. lia.
    + destruct defParts as [str|node| |]; try discriminate.
      * destruct str as [|c str]; [discriminate|]. cbv zeta.
        destruct (nth_error _ 1); discriminate.
      * cbv zeta. destruct (_ && _); [discriminate|].
        apply (forEach_terminates fuel _ _ _ _ node Hclosed IH);
          [|apply incl_refl|assumption].
        intros nm p st. apply parseDefinition_closed.
Qed.

(** *** The budget does not change the result *)

(** [rec'] behaves as [rec] wherever [rec] does not exhaust its budget. *)
Definition Extends (rec rec' : string -> RawValue -> list string -> M DefId)
  : Prop :=
  forall name defParts stack s,
    fst (rec name defParts stack s) <> OutOfFuel ->
    rec' name defParts stack s = rec name defParts stack s.

Lemma Extends_trans a b c : Extends a b -> Extends b c -> Extends a c.
Proof.
  intros Hab Hbc name defParts stack s Hne.
  rewrite Hbc; rewrite (Hab _ _ _ _ Hne); [reflexivity | assumption].
Qed.

Lemma bind_getVisited {A} (k : list Visited.t -> M A) t :
  bind getVisited k t = k (visitedDefs t) t.
Proof. reflexivity. Qed.

Lemma property_extends rec rec' d stack key pub type isArr descr wrap warn t :
  Extends rec rec' ->
  let body rec :=
    match type with
    | VStr ty =>
        mutate d (Def.pushProperty
          (Property.PRIMITIVE pub key ty (getType ty) isArr))
    | _ =>
        if instanceofComplexTypeElement heap type then
          mutate d (Def.pushProperty
            (Property.PRIMITIVE pub key
               (dollarName heap type ++ " - ComplexType are not supported yet")
               (TsType "any") isArr)) ;;
          log warn
        else
          visitedDefs <- getVisited ;;
          match findReferenceDefiniton visitedDefs type with
          | Some visited =>
              sourceName <- typeNameOr heap type pub ;;
              mutate d (Def.pushProperty
                (Property.REFERENCE pub sourceName descr
                   (Visited.definition visited) isArr))
          | None =>
              tryCatch
                (subName <- typeNameOr heap type pub ;;
                 subDefinition <- nestedCall rec subName type
                                             (stack ++ [key]) ;;
                 sourceName <- typeNameOr heap type pub ;;
                 mutate d (Def.pushProperty
                   (Property.REFERENCE pub sourceName None
                      subDefinition isArr)))
                (fun _ => throw wrap)
          end
    end in
  fst (body rec t) <> OutOfFuel ->
  body rec' t = body rec t.
Proof.
  intros Hext body. subst body. cbv beta.
  destruct type as [ty|c| |]; try reflexivity;
    (destruct (instanceofComplexTypeElement heap _); [reflexivity|]);
    rewrite !bind_getVisited;
    (destruct (findReferenceDefiniton (visitedDefs t) _); [reflexivity|]);
    try reflexivity.
  destruct (typeNameOr_object c pub) as [nm Hnm].
  unfold tryCatch, bind. rewrite Hnm. cbn [ret].
  destruct nm as [nm| | |]; cbn [nestedCall]; try reflexivity.
  intros Hne. rewrite Hext; [reflexivity|].
  destruct (rec nm (VObj c) (stack ++ [key]) t) as [[sub|e|] t1];
    cbn in *; congruence.
Qed.

Lemma parseEntry_extends rec rec' d name stack e t :
  Extends rec rec' ->
  fst (parseEntry heap rec d name stack e t) <> OutOfFuel ->
  parseEntry heap rec' d name stack e t = parseEntry heap rec d name stack e t.
Proof.
  intros Hext. destruct e as [key type]. unfold parseEntry.
  destruct (String.eqb key "targetNSAlias"); [reflexivity|].
  destruct (String.eqb key "typeName"); [reflexivity|].
  destruct (String.eqb key "targetNamespace"); [reflexivity|].
  destruct (Js.endsWith key "[]").
  - unfold parseArrayProperty. cbv zeta. now apply property_extends.
  - unfold parsePlainProperty. now apply property_extends.
Qed.

Lemma forEach_extends rec rec' d name stack l t :
  Extends rec rec' ->
  fst (forEach (parseEntry heap rec d name stack) l t) <> OutOfFuel ->
  forEach (parseEntry heap rec' d name stack) l t
  = forEach (parseEntry heap rec d name stack) l t.
Proof.
  intros Hext. revert t. induction l as [|e l IH]; intros t; [reflexivity|].
  cbn [forEach]. unfold bind. intros Hne.
  rewrite (parseEntry_extends rec rec' d name stack e t Hext).
  - destruct (parseEntry heap rec d name stack e t) as [[[]|err|] t1];
      try reflexivity.
    now apply IH.
  - destruct (parseEntry heap rec d name stack e t) as [[[]|err|] t1];
      cbn in *; congruence.
Qed.

Lemma parseDefinition_step_extends fuel :
  Extends (parseDefinition fuel) (parseDefinition (S fuel)).
Proof.
  induction fuel as [|fuel IH]; intros name defParts stack s Hne.
  - exfalso. now apply Hne.
  - rewrite (parseDefinition_unfold _ _ _ _ (S fuel)).
    rewrite (parseDefinition_unfold _ _ _ _ fuel) in Hne |- *.
    cbv zeta in *.
    destruct (findNonCollisionDefinitionName (definitions s)
                (changeCase name true)) as [e|base]; [reflexivity|].
    destruct defParts as [str|node| |]; try reflexivity.
    destruct (hasProp (deref heap node) "undefined"
              && strictEq (getProp (deref heap node) "undefined") VUndefined);
      [reflexivity|].
    unfold bind in *.
    match goal with
    | |- context [forEach (parseEntry heap ?r' ?d name stack) ?l ?t] =>
        rewrite (forEach_extends (parseDefinition fuel) r' d name stack l t IH)
    end; [reflexivity|].
    match type of Hne with
    | context [forEach ?f ?l ?t] =>
        destruct (forEach f l t) as [[[]|err|] t1]
    end; try discriminate.
    exfalso. apply Hne. reflexivity.
Qed.

(** A call that does not exhaust its budget gives the same outcome and the
    same session with any larger budget. *)
Lemma parseDefinition_fuel_independent fuel more :
  Extends (parseDefinition fuel) (parseDefinition (fuel + more)).
Proof.
  induction more as [|more IH].
  - rewrite Nat.add_0_r. intros name defParts stack s _. reflexivity.
  - rewrite Nat.add_succ_r.
    eapply Extends_trans; [exact IH | apply parseDefinition_step_extends].
Qed.

(** *** Reading the resolved graph *)




(** *** Which Definition the cache answers *)






















End Resolution.

(** ** C9: what generation does to the parsed model *)

(** A property with its name blanked. *)
Definition eraseName (p : Property.t) : Property.t := Property.setName "" p.

(** The Definitions with every property name blanked: all there is to a
    parsed model but the names of its properties. *)
Definition eraseNames (defs : list Def.t) : list Def.t :=
  map (mapProperties (map eraseName)) defs.

Lemma updateAt_id {A} (f : A -> A) l i :
  (forall x, f x = x) -> updateAt i f l = l.
Proof.
  intros Hf. revert i. induction l as [|x l IH]; intros [|i]; simpl;
    rewrite ?Hf, ?IH; reflexivity.
Qed.

Section GeneratorFrame.

Variable camelcase : string -> bool -> string.
Variable options : GeneratorOptions.

(** A relation between the Definitions before and after, kept by the one
    write generation makes to the model. *)
Variable P : list Def.t -> list Def.t -> Prop.
Hypothesis P_refl : forall defs, P defs defs.
Hypothesis P_trans : forall a b c, P a b -> P b c -> P a c.
Hypothesis P_rename :
  forall defs d i,
    P defs (updateAt d (mapProperties
                          (updateAt i (renameProperty camelcase options)))
                     defs).

Definition keeps {A} (m : G A) : Prop :=
  respects (fun g g' => P (gen_definitions g) (gen_definitions g')) m.

Lemma keeps_ret {A} (a : A) : keeps (ret a).
Proof. apply respects_ret. auto. Qed.

Lemma keeps_bind {A B} (m : G A) (k : A -> G B) :
  keeps m -> (forall a, keeps (k a)) -> keeps (bind m k).
Proof. apply respects_bind. eauto. Qed.

Lemma keeps_readDefinition d : keeps (readDefinition d).
Proof.
  intros g. unfold readDefinition.
  destruct (nth_error (gen_definitions g) d); apply P_refl.
Qed.

Lemma keeps_readProperty d i : keeps (readProperty d i).
Proof.
  apply keeps_bind; [apply keeps_readDefinition|]. intros def.
  destruct (nth_error (Def.properties def) i); intros g; apply P_refl.
Qed.

Lemma keeps_foldM {A B} (f : B -> A -> G B) l acc :
  (forall b x, keeps (f b x)) -> keeps (foldM f l acc).
Proof.
  intros Hf. revert acc. induction l as [|x l IH]; intros acc; simpl.
  - apply keeps_ret.
  - apply keeps_bind; auto.
Qed.

Lemma keeps_forEach {A} (f : A -> G unit) l :
  (forall x, keeps (f x)) -> keeps (forEach f l).
Proof. apply respects_forEach; eauto. Qed.

Lemma keeps_generateProperty rec definition acc i :
  (forall d, keeps (rec d)) ->
  keeps (generateProperty camelcase options rec definition acc i).
Proof.
  intros Hrec. unfold generateProperty. destruct acc as [imports props].
  apply keeps_bind; [intros g; apply P_rename|]. intros _.
  apply keeps_bind; [apply keeps_readProperty|]. intros prop.
  destruct prop as [n sn descr ty arr | n sn descr ref arr].
  - apply keeps_ret.
  - apply keeps_bind; [intros g; apply P_refl|]. intros gen.
    apply keeps_bind.
    { match goal with
      | |- keeps (if ?b then _ else _) => destruct b
      end; [apply keeps_ret | apply Hrec]. }
    intros _.
    apply keeps_bind; [apply keeps_readDefinition|]. intros refDef.
    apply keeps_bind; [apply keeps_readDefinition|]. intros self.
    apply keeps_bind; [apply keeps_readProperty|]. intros prop.
    apply keeps_ret.
Qed.

Lemma keeps_generateDefinitionFile fuel definition :
  keeps (generateDefinitionFile camelcase options fuel definition).
Proof.
  revert definition. induction fuel as [|fuel IH]; intros definition.
  - intros g. apply P_refl.
  - cbn [generateDefinitionFile].
    apply keeps_bind; [apply keeps_readDefinition|]. intros def.
    apply keeps_bind; [intros g; apply P_refl|]. intros _.
    apply keeps_bind.
    { apply keeps_foldM. intros acc i. now apply keeps_generateProperty. }
    intros [imports props].
    apply keeps_bind; [apply keeps_readDefinition|]. intros def'.
    intros g. apply P_refl.
Qed.

Lemma keeps_generateRole fuel role :
  keeps (generateRole camelcase options fuel role).
Proof.
  destruct role as [d|]; [|apply keeps_ret]. cbn [generateRole].
  apply keeps_bind; [intros g; apply P_refl|]. intros gen.
  match goal with
  | |- keeps (if ?b then _ else _) => destruct b
  end; [apply keeps_ret | apply keeps_generateDefinitionFile].
Qed.

Lemma keeps_generate fuel parsedWsdl :
  P (pw_definitions parsedWsdl)
    (gen_definitions (snd (generate camelcase options fuel parsedWsdl))).
Proof.
  unfold generate.
  match goal with
  | |- P _ (gen_definitions (snd (forEach ?f ?l ?g))) =>
      cut (keeps (forEach f l)); [intros H; exact (H g)|];
      apply keeps_forEach
  end.
  intros _. apply keeps_forEach. intros port. apply keeps_forEach.
  intros method. unfold generateMethod.
  repeat (apply keeps_bind; [apply keeps_generateRole | intros _]).
  apply keeps_generateRole.
Qed.

End GeneratorFrame.

Lemma eraseName_rename camelcase options p :
  eraseName (renameProperty camelcase options p) = eraseName p.
Proof.
  unfold renameProperty.
  destruct (modelPropertyNaming options) as [[|]|]; destruct p; reflexivity.
Qed.

Lemma mapProperties_id f x :
  (forall l, f l = l) -> mapProperties f x = x.
Proof.
  intros Hf. destruct x. unfold mapProperties. cbn. now rewrite Hf.
Qed.

(** C9, as the specification states it, fails: with [modelPropertyNaming] set to
    camelCase, generation overwrites the name of the property "OrderId" of
    the parsed model. *)
Lemma generate_renames_properties :
  map (fun d => map Property.name (Def.properties d))
      (pw_definitions Examples.orderModel) = [["OrderId"]]
  /\ map (fun d => map Property.name (Def.properties d))
         (gen_definitions
            (snd (generate Examples.wordCase Examples.camelCaseNaming 1
                    Examples.orderModel))) = [["orderId"]].
Proof. split; reflexivity. Qed.

(** C9 (amended): generation never adds, removes or reorders Definitions or
    properties and never changes any field other than the names of
    properties; when [modelPropertyNaming] is not configured it leaves the
    whole parsed model as it was.  This holds for each call of
    [generateDefinitionFile] and for [generate], whatever their outcome. *)
Theorem generate_frame camelcase options fuel :
  (forall definition g,
     let g' := snd (generateDefinitionFile camelcase options fuel
                      definition g) in
     eraseNames (gen_definitions g') = eraseNames (gen_definitions g)
     /\ (modelPropertyNaming options = None ->
         gen_definitions g' = gen_definitions g))
  /\ (forall parsedWsdl,
        let g' := snd (generate camelcase options fuel parsedWsdl) in
        eraseNames (gen_definitions g')
        = eraseNames (pw_definitions parsedWsdl)
        /\ (modelPropertyNaming options = None ->
            gen_definitions g' = pw_definitions parsedWsdl)).
Proof.
  assert (Herase : forall defs d i,
             eraseNames defs =
             eraseNames (updateAt d
               (mapProperties (updateAt i (renameProperty camelcase options)))
               defs)).
  { intros defs d i. unfold eraseNames. symmetry. apply updateAt_map.
    intros x. destruct x. unfold mapProperties. cbn. f_equal.
    apply updateAt_map. apply eraseName_rename. }
  assert (Hnone : modelPropertyNaming options = None ->
            forall defs d i,
              defs = updateAt d
                (mapProperties (updateAt i (renameProperty camelcase options)))
                defs).
  { intros Hn defs d i. symmetry. apply updateAt_id. intros x.
    apply mapProperties_id. intros l. apply updateAt_id. intros p.
    unfold renameProperty. now rewrite Hn. }
  split.
  - intros definition g g'. split.
    + symmetry.
      apply (keeps_generateDefinitionFile camelcase options
               (fun a b => eraseNames a = eraseNames b));
        [reflexivity | intros; etransitivity; eassumption | exact Herase].
    + intros Hn. symmetry.
      apply (keeps_generateDefinitionFile camelcase options eq);
        [reflexivity | intros; etransitivity; eassumption | exact (Hnone Hn)].
  - intros parsedWsdl g'. split.
    + symmetry.
      apply (keeps_generate camelcase options
               (fun a b => eraseNames a = eraseNames b));
        [reflexivity | intros; etransitivity; eassumption | exact Herase].
    + intros Hn. symmetry.
      apply (keeps_generate camelcase options eq);
        [reflexivity | intros; etransitivity; eassumption | exact (Hnone Hn)].
Qed.

Lemma generate_frame_witness :
  modelPropertyNaming defaultGeneratorOptions = None
  /\ gen_definitions
       (snd (generate Examples.wordCase defaultGeneratorOptions 1
               Examples.orderModel))
     = pw_definitions Examples.orderModel.
Proof.
  split; [reflexivity|].
  apply (proj2 (generate_frame Examples.wordCase defaultGeneratorOptions 1)
           Examples.orderModel).
  reflexivity.
Defined.

(** ** Concrete runs *)

(** C8, as the specification states it, fails: with the key "undefined"
    present the other entry of the mapping, [a: "xs:int"], is not
    processed; the Definition comes out with no property. *)
Lemma undefined_key_drops_entries :
  let run :=
    parseDefinition Examples.wordCase (Examples.registry None)
      Examples.quirkHeap defaultOptions 1 "Quirk" (VObj 0) ["Quirk"]
      emptySession in
  In ("a", VStr "xs:int") (entries (deref Examples.quirkHeap 0))
  /\ fst run = Ok 0
  /\ map Def.properties (definitions (snd run)) = [[]].
Proof. vm_compute. auto. Qed.

Lemma parseDefinition_undefined_key_witness :
  hasProp (deref Examples.quirkHeap 0) "undefined" = true
  /\ getProp (deref Examples.quirkHeap 0) "undefined" = VUndefined
  /\ fst (parseDefinition Examples.wordCase (Examples.registry None)
            Examples.quirkHeap defaultOptions 1 "Quirk" (VObj 0) ["Quirk"]
            emptySession) = Ok 0.
Proof.
  split; [reflexivity|]. split; [reflexivity|].
  rewrite (parseDefinition_undefined_key Examples.wordCase
             (Examples.registry None) Examples.quirkHeap defaultOptions
             0 "Quirk" 0 ["Quirk"] emptySession eq_refl eq_refl).
  reflexivity.
Defined.

Lemma parseDefinition_name_policy_witness :
  let run :=
    parseDefinition Examples.wordCase (Examples.registry None)
      Examples.ordersHeap (Examples.withPrefix "I") 2
      "PlaceOrder" (VObj 0) ["PlaceOrder"] emptySession in
  namedByPolicy Examples.wordCase (Examples.registry None)
    (Examples.withPrefix "I") (definitions (snd run)) 2
    {| Def.name := "IAddress"; Def.sourceName := "Address";
       Def.description := ""; Def.docs := ["Address"];
       Def.properties :=
         [Property.PRIMITIVE "zip" "zip" "xs:int" (TsType "number") false]
    |}.
Proof.
  intros run.
  assert (Hrun : run = (fst run, snd run)) by (vm_compute; reflexivity).
  apply (proj1 (parseDefinition_name_policy Examples.wordCase
                  (Examples.registry None) Examples.ordersHeap
                  (Examples.withPrefix "I") 2 "PlaceOrder" (VObj 0)
                  ["PlaceOrder"] emptySession (fst run) (snd run) Hrun)).
  - simpl. lia.
  - vm_compute. reflexivity.
Defined.

(** C2: with the prefix "I" configured, two distinct structures that both
    propose "Address" both end up named "IAddress": the collision check
    compares the unprefixed candidate with the prefixed names already
    stored and finds nothing, so the session holds two different
    Definitions of the same final name.  Without the prefix the same input
    gives "Address" and "Address2". *)
Theorem prefixed_names_collide :
  (exists parsedWsdl s,
     Examples.runParseWsdl Examples.ordersHeap Examples.ordersWsdl
       Examples.prefixI 2 = (Ok parsedWsdl, s)
     /\ map Def.name (pw_definitions parsedWsdl)
        = ["IPlaceOrder"; "IAddress"; "IAddress"]
     /\ ~ NoDup (map Def.name (pw_definitions parsedWsdl))
     /\ nth_error (pw_definitions parsedWsdl) 1
        <> nth_error (pw_definitions parsedWsdl) 2)
  /\ (exists parsedWsdl s,
        Examples.runParseWsdl Examples.ordersHeap Examples.ordersWsdl
          Examples.noOptions 2 = (Ok parsedWsdl, s)
        /\ map Def.name (pw_definitions parsedWsdl)
           = ["PlaceOrder"; "Address"; "Address2"]).
Proof.
  split.
  - eexists. eexists. split; [vm_compute; reflexivity|].
    split; [reflexivity|]. split.
    + cbn [pw_definitions map Def.name]. intros H.
      inversion H as [|x l Hnot Hnd]; subst.
      inversion Hnd as [|y l' Hnot' _]; subst.
      apply Hnot'. now left.
    + cbn. discriminate.
  - eexists. eexists. split; [vm_compute; reflexivity|]. reflexivity.
Qed.

(** C4: the structure nested two levels down proposes a name the registry
    cannot give (ceiling 0).  The innermost call throws an Error that names
    the whole path; each enclosing call replaces it by a fresh Error built
    from its own stack and name, so the caller receives an Error that names
    the root only: neither the path [inner.leaf] nor the failing position
    is in it. *)
Theorem subdefinition_error_loses_path :
  let parse :=
    parseDefinition Examples.wordCase (Examples.registry (Some 0))
      Examples.deepHeap defaultOptions in
  let run := parse 3 "Root" (VObj 0) ["Root"] emptySession in
  fst run = Throw (Error "Error while parsing Subdefinition for Root.Root")
  /\ fst (parse 1 "Root" (VObj 2) ["Root"; "inner"; "leaf"]
            {| definitions := definitions (snd run);
               visitedDefs := visitedDefs (snd run);
               logs := removelast (logs (snd run)) |})
     = Throw (Error ("Error for finding non-collision definition name for "
                     ++ "Root.inner.leaf.Root"))
  /\ snd (parse 1 "Root" (VObj 2) ["Root"; "inner"; "leaf"]
            {| definitions := definitions (snd run);
               visitedDefs := visitedDefs (snd run);
               logs := removelast (logs (snd run)) |})
     = snd run.
Proof. vm_compute. auto. Qed.

(** C7: the output message of the operation declares neither an element nor
    parts, and so does its input message.  The input role is absent, as the
    specification says; the output role is not: [parseDefinition] is called
    with [undefined] parts and the method's [returnDefinition] is a
    Definition with no property. *)
Theorem output_without_parts_gets_definition :
  exists parsedWsdl s,
    Examples.runParseWsdl [] Examples.statusWsdl Examples.noOptions 1
    = (Ok parsedWsdl, s)
    /\ map (fun m => (Method.paramDefinition m, Method.returnDefinition m))
           (flat_map Port.methods (pw_ports parsedWsdl))
       = [(None, Some 0)]
    /\ pw_definitions parsedWsdl
       = [{| Def.name := "GetStatusResponse";
             Def.sourceName := "GetStatusResponse";
             Def.description := "";
             Def.docs := ["GetStatusResponse"];
             Def.properties := [] |}].
Proof. eexists. eexists. vm_compute. auto. Qed.






(** What [typeName] holds is kept by [??], whatever it is.  Here it holds
    an object.  The call made for the sub-structure throws before it
    registers anything, and the enclosing call reports an error of the
    sub-definition.  When the cache already holds the sub-structure, no
    call is made and the object is the [sourceName] of the properties. *)
Lemma object_typeName_kept :
  let parse :=
    parseDefinition Examples.wordCase (Examples.registry None)
      Examples.namelessHeap defaultOptions 2 in
  let fresh := parse "Top" (VObj 0) ["Top"] emptySession in
  let cached :=
    (parse "Child" (VObj 1) ["Child"] ;; parse "Top" (VObj 0) ["Top"])
      emptySession in
  fst fresh = Throw (Error "Error while parsing Subdefinition for Top.Top")
  /\ map Def.name (definitions (snd fresh)) = ["Top"]
  /\ map Def.properties (definitions (snd fresh)) = [[]]
  /\ fst cached = Ok 1
  /\ map Def.properties (definitions (snd cached))
     = [[Property.PRIMITIVE "a" "a" "xs:int" (TsType "number") false];
        [Property.REFERENCE "child" (VObj 2) (Some "") 0 false;
         Property.REFERENCE "again" (VObj 2) (Some "") 0 false]].
Proof. vm_compute. auto. Qed.

(** * Further properties of the resolver *)

(** ** Strings *)

Lemma split_cons sep a b :
  hasChar sep a = false ->
  Js.split sep (a ++ String sep b) = a :: Js.split sep b.
Proof.
  induction a as [|c a IH]; simpl.
  - intros _. now rewrite Ascii.eqb_refl.
  - intros H. apply orb_false_iff in H as [Hc Ha].
    rewrite Hc, (IH Ha). reflexivity.
Qed.

Lemma substring_split s k :
  k <= String.length s ->
  (String.substring 0 k s ++ String.substring k (String.length s - k) s)%string
  = s.
Proof.
  revert k. induction s as [|c s IH]; intros [|k] Hk; simpl in *;
    try reflexivity; try lia.
  - f_equal. clear. induction s as [|c' s IH]; simpl; [reflexivity|].
    now rewrite IH.
  - f_equal. apply IH. lia.
Qed.

(** A key ending in "[]" is its public name followed by the marker. *)
Lemma publicName_marker key :
  Js.endsWith key "[]" = true -> (publicName key ++ "[]")%string = key.
Proof.
  intros H. unfold publicName. rewrite H. unfold Js.endsWith in H.
  apply andb_true_iff in H as [Hlen Heq].
  apply Nat.leb_le in Hlen. apply String.eqb_eq in Heq.
  cbn [String.length] in Hlen, Heq.
  pose proof (substring_split key (String.length key - 2)) as Hs.
  replace (String.length key - (String.length key - 2)) with 2 in Hs by lia.
  rewrite Heq in Hs. apply Hs. lia.
Qed.

Lemma updateAt_last {A} (f : A -> A) l x :
  updateAt (length l) f (l ++ [x]) = l ++ [f x].
Proof. induction l as [|y l IH]; simpl; [reflexivity|]. now rewrite IH. Qed.

Lemma isMetadataKey_false key :
  isMetadataKey key = false ->
  String.eqb key "targetNSAlias" = false
  /\ String.eqb key "typeName" = false
  /\ String.eqb key "targetNamespace" = false.
Proof.
  unfold isMetadataKey. intros H.
  apply orb_false_iff in H as [H H3]. apply orb_false_iff in H as [H1 H2].
  auto.
Qed.

Lemma typeNameOr_typeNameOf heap node fallback :
  typeNameOr heap (VObj node) fallback = ret (typeNameOf heap node fallback).
Proof. reflexivity. Qed.

(** ** Edge cases of [parseDefinition] *)

Section ParserEdges.

Variable changeCase : string -> bool -> string.
Variable findNonCollisionDefinitionName :
  list Def.t -> string -> JsError + string.
Variable heap : Heap.
Variable options : ParserOptions.

Local Abbreviation parseDefinition :=
  (parseDefinition changeCase findNonCollisionDefinitionName heap options).
Local Abbreviation newDefinition := (newDefinition changeCase options).

(** X1: when the registry refuses the name, [parseDefinition] throws its
    naming error and registers nothing: the Definitions and the visited
    cache are as before, whatever the parts are. *)
Theorem parseDefinition_refused fuel name defParts stack s e :
  findNonCollisionDefinitionName (definitions s) (changeCase name true)
    = inl e ->
  let run := parseDefinition (S fuel) name defParts stack s in
  fst run
  = Throw (Error ("Error for finding non-collision definition name for "
                  ++ Js.join "." stack ++ "." ++ name))
  /\ definitions (snd run) = definitions s
  /\ visitedDefs (snd run) = visitedDefs s.
Proof.
  intros Hreg run. subst run. rewrite parseDefinition_unfold. cbv zeta.
  rewrite Hreg. auto.
Qed.

(** X2: absent parts ([undefined], [null] or the empty string) give a
    Definition without properties: it is registered, cached under these
    parts and returned. *)
Theorem parseDefinition_absent fuel name defParts stack s base :
  truthy defParts = false ->
  findNonCollisionDefinitionName (definitions s) (changeCase name true)
    = inr base ->
  let run := parseDefinition (S fuel) name defParts stack s in
  fst run = Ok (length (definitions s))
  /\ definitions (snd run) = definitions s ++ [newDefinition base name]
  /\ Def.properties (newDefinition base name) = []
  /\ visitedDefs (snd run)
     = visitedDefs s
       ++ [{| Visited.name := Def.name (newDefinition base name);
              Visited.parts := defParts;
              Visited.definition := length (definitions s) |}].
Proof.
  intros Hfalsy Hreg run. subst run. rewrite parseDefinition_unfold.
  cbv zeta. rewrite Hreg.
  destruct defParts as [str|node| |]; try discriminate.
  - destruct str as [|c str]; [|discriminate]. cbn. auto.
  - cbn. auto.
  - cbn. auto.
Qed.

(** X3: a primitive descriptor "source|type" gives a Definition with one
    PRIMITIVE property: named as the Definition, with the text before the
    first '|' as source name, the whole descriptor as description and the
    type mapped from the text between the first and the second '|'.  A
    non-empty descriptor without '|' makes the call throw a TypeError after
    the empty Definition has been registered. *)
Theorem parseDefinition_descriptor fuel name str stack s base :
  str <> "" ->
  findNonCollisionDefinitionName (definitions s) (changeCase name true)
    = inr base ->
  let run := parseDefinition (S fuel) name (VStr str) stack s in
  let def := newDefinition base name in
  (hasChar "|" str = false ->
   fst run = Throw TypeError
   /\ definitions (snd run) = definitions s ++ [def])
  /\ (forall a b,
        hasChar "|" a = false ->
        str = (a ++ "|" ++ b)%string ->
        fst run = Ok (length (definitions s))
        /\ definitions (snd run)
           = definitions s
             ++ [Def.pushProperty
                   (Property.PRIMITIVE (Def.name def) a str
                      (getType (nth 0 (Js.split "|" b) "")) false)
                   def]).
Proof.
  intros Hne Hreg run def. subst run def.
  rewrite parseDefinition_unfold. cbv zeta. rewrite Hreg.
  destruct str as [|c str]; [congruence|].
  set (str' := String c str) in *. split.
  - intros Hno. rewrite (split_no_sep _ _ Hno). cbn. auto.
  - intros a b Ha Hstr.
    assert (Hsplit : Js.split "|" str' = a :: Js.split "|" b).
    { rewrite Hstr. apply split_cons. exact Ha. }
    rewrite Hsplit.
    destruct (Js.split "|" b) as [|seg segs] eqn:Hb;
      [exfalso; exact (split_not_nil _ _ Hb)|].
    cbn [nth_error nth]. unfold bind, mutate, ret, register.
    cbn [fst snd definitions log]. split; [reflexivity|].
    apply updateAt_last.
Qed.

(** X4: a string-valued entry under a key that is not metadata pushes one
    PRIMITIVE property onto the Definition being built and does nothing
    else.  Its name is the key without a trailing "[]", its source name the
    key, and it is an array exactly when the key ends in "[]". *)
Theorem parseEntry_primitive rec d name stack key ty s :
  isMetadataKey key = false ->
  parseEntry heap rec d name stack (key, VStr ty) s
  = (Ok tt,
     snd (mutate d
            (Def.pushProperty
               (Property.PRIMITIVE (publicName key) key ty (getType ty)
                  (Js.endsWith key "[]"))) s))
  /\ (if Js.endsWith key "[]"
      then (publicName key ++ "[]")%string = key
      else publicName key = key).
Proof.
  intros Hmeta.
  destruct (isMetadataKey_false key Hmeta) as (E1 & E2 & E3).
  unfold parseEntry. rewrite E1, E2, E3. unfold publicName.
  destruct (Js.endsWith key "[]") eqn:Hends.
  - split; [reflexivity|].
    pose proof (publicName_marker key Hends) as H.
    unfold publicName in H. now rewrite Hends in H.
  - split; reflexivity.
Qed.

(** X5: when the nested call made for an object-valued entry throws, the
    enclosing call throws a fresh Error made of its own stack and name, in
    quotes for an array key, whatever the error caught was; the session is
    as the nested call left it. *)
Theorem parseEntry_rethrows rec d name stack key node s e s1 :
  isMetadataKey key = false ->
  isComplexTypeElement (deref heap node) = false ->
  findReferenceDefiniton (visitedDefs s) (VObj node) = None ->
  nestedCall rec (typeNameOf heap node (publicName key)) (VObj node)
             (stack ++ [key]) s
    = (Throw e, s1) ->
  parseEntry heap rec d name stack (key, VObj node) s
  = (Throw (Error
       (if Js.endsWith key "[]"
        then "Error while parsing Subdefinition for '"
             ++ Js.join "." stack ++ "." ++ name ++ "'"
        else "Error while parsing Subdefinition for "
             ++ Js.join "." stack ++ "." ++ name)), s1).
Proof.
  intros Hmeta Hc Hfind Hrec.
  destruct (isMetadataKey_false key Hmeta) as (E1 & E2 & E3).
  unfold parseEntry. rewrite E1, E2, E3. unfold publicName in Hrec.
  destruct (Js.endsWith key "[]").
  - unfold parseArrayProperty. cbv zeta.
    cbn [instanceofComplexTypeElement]. rewrite Hc.
    rewrite bind_getVisited, Hfind.
    unfold tryCatch, bind. rewrite typeNameOr_typeNameOf. cbn [ret].
    now rewrite Hrec.
  - unfold parsePlainProperty.
    cbn [instanceofComplexTypeElement]. rewrite Hc.
    rewrite bind_getVisited, Hfind.
    unfold tryCatch, bind. rewrite typeNameOr_typeNameOf. cbn [ret].
    now rewrite Hrec.
Qed.

End ParserEdges.

(** ** What [parseDefinition] leaves alone *)

(** The first [n] Definitions of [s] are still there, unchanged, in [t]. *)
Definition untouched (n : nat) (s t : Session) : Prop :=
  n <= length (definitions s) ->
  n <= length (definitions t)
  /\ forall i, i < n ->
       nth_error (definitions t) i = nth_error (definitions s) i.

Lemma untouched_refl n s : untouched n s s.
Proof. intros H. auto. Qed.

Lemma untouched_trans n s t u :
  untouched n s t -> untouched n t u -> untouched n s u.
Proof.
  intros Hst Htu Hn. destruct (Hst Hn) as [Hlen Hnth].
  destruct (Htu Hlen) as [Hlen' Hnth']. split; [assumption|].
  intros i Hi. rewrite Hnth', Hnth by assumption. reflexivity.
Qed.

Section Frame.

Variable changeCase : string -> bool -> string.
Variable findNonCollisionDefinitionName :
  list Def.t -> string -> JsError + string.
Variable heap : Heap.
Variable options : ParserOptions.

Local Abbreviation parseDefinition :=
  (parseDefinition changeCase findNonCollisionDefinitionName heap options).

Definition keepsOld {A} (n : nat) (m : M A) : Prop :=
  respects (untouched n) m.

Lemma keepsOld_bind {A B} n (m : M A) (k : A -> M B) :
  keepsOld n m -> (forall a, keepsOld n (k a)) -> keepsOld n (bind m k).
Proof.
  apply respects_bind. intros s t u. apply untouched_trans.
Qed.

Lemma keepsOld_tryCatch {A} n (m : M A) h :
  keepsOld n m -> (forall e, keepsOld n (h e)) -> keepsOld n (tryCatch m h).
Proof.
  apply respects_tryCatch. intros s t u. apply untouched_trans.
Qed.

Lemma keepsOld_same {A} n (m : M A) :
  (forall s, definitions (snd (m s)) = definitions s) -> keepsOld n m.
Proof.
  intros H s Hn. rewrite H. auto.
Qed.

Lemma keepsOld_typeNameOr n type fallback :
  keepsOld n (typeNameOr heap type fallback).
Proof.
  apply keepsOld_same. intros s. destruct type as [x|node| |]; reflexivity.
Qed.

Lemma keepsOld_nestedCall n
      (rec : string -> RawValue -> list string -> M DefId) name p st :
  (forall nm p st, keepsOld n (rec nm p st)) ->
  keepsOld n (nestedCall rec name p st).
Proof.
  intros Hrec. destruct name; cbn [nestedCall]; [apply Hrec|..];
    apply keepsOld_same; intros ?; reflexivity.
Qed.

Lemma keepsOld_mutate n d f : n <= d -> keepsOld n (mutate d f).
Proof.
  intros Hd s Hn. cbn [mutate snd definitions].
  rewrite updateAt_length. split; [assumption|].
  intros i Hi. rewrite updateAt_nth_error.
  replace (Nat.eqb d i) with false by (symmetry; apply Nat.eqb_neq; lia).
  reflexivity.
Qed.

Ltac keepsOld_step :=
  first [ apply keepsOld_bind; [|intros ?]
        | apply keepsOld_tryCatch; [|intros ?]
        | apply keepsOld_typeNameOr
        | apply keepsOld_mutate; assumption
        | apply keepsOld_same; intros ?; reflexivity ].

Lemma keepsOld_parseEntry n rec d name stack entry :
  n <= d ->
  (forall nm p st, keepsOld n (rec nm p st)) ->
  keepsOld n (parseEntry heap rec d name stack entry).
Proof.
  intros Hd Hrec. unfold parseEntry. destruct entry as [key type].
  repeat match goal with
         | |- keepsOld _ (if ?b then _ else _) => destruct b
         end; try solve [repeat keepsOld_step].
  - unfold parseArrayProperty. cbv zeta.
    destruct type as [ty|node| |]; try solve [repeat keepsOld_step];
      (destruct (instanceofComplexTypeElement heap _);
       [solve [repeat keepsOld_step]|]);
      (apply keepsOld_bind; [keepsOld_step|]; intros visited;
       destruct (findReferenceDefiniton visited _);
       repeat keepsOld_step; apply keepsOld_nestedCall, Hrec).
  - unfold parsePlainProperty.
    destruct type as [ty|node| |]; try solve [repeat keepsOld_step];
      (destruct (instanceofComplexTypeElement heap _);
       [solve [repeat keepsOld_step]|]);
      (apply keepsOld_bind; [keepsOld_step|]; intros visited;
       destruct (findReferenceDefiniton visited _);
       repeat keepsOld_step; apply keepsOld_nestedCall, Hrec).
Qed.

Lemma keepsOld_parseDefinition fuel :
  forall n name defParts stack,
    keepsOld n (parseDefinition fuel name defParts stack).
Proof.
  induction fuel as [|fuel IH]; intros n name defParts stack s.
  - apply untouched_refl.
  - rewrite parseDefinition_unfold. cbv zeta.
    destruct (findNonCollisionDefinitionName (definitions s)
                (changeCase name true)) as [e|base];
      [exact (untouched_refl n s)|].
    intros Hn.
    match goal with
    | |- context [bind ?m ?k (register ?def defParts ?s0)] =>
        assert (Hbody : keepsOld n (bind m k));
        [|specialize (Hbody (register def defParts s0));
          assert (Hreg : untouched n s (register def defParts s0))]
    end.
    + apply keepsOld_bind;
        [|intros ?; apply keepsOld_same; intros ?; reflexivity].
      destruct defParts as [str|node| |];
        try (apply keepsOld_same; intros ?; reflexivity).
      * destruct str as [|c str];
          [apply keepsOld_same; intros ?; reflexivity|].
        cbv zeta. destruct (nth_error _ 1);
          [apply keepsOld_mutate; assumption
          |apply keepsOld_same; intros ?; reflexivity].
      * cbv zeta. destruct (_ && _);
          [apply keepsOld_same; intros ?; reflexivity|].
        apply respects_forEach;
          [apply untouched_refl | intros a b c; apply untouched_trans |].
        intros entry. apply keepsOld_parseEntry; [assumption | apply IH].
    + intros _. cbn [register log snd definitions].
      rewrite length_app. split; [lia|].
      intros i Hi. now rewrite nth_error_app1 by lia.
    + exact (untouched_trans n _ _ _ Hreg Hbody Hn).
Qed.

Lemma evolves_logs s t :
  evolves changeCase findNonCollisionDefinitionName options s t ->
  exists more, logs t = logs s ++ more.
Proof.
  induction 1 as [|t e _ [m IH]|t name defParts base _ [m IH] Hreg
                  |t d p _ [m IH]|t d doc _ [m IH]];
    cbn [register log mutate snd logs].
  - exists []. now rewrite app_nil_r.
  - rewrite IH, <- app_assoc. eauto.
  - eauto.
  - eauto.
  - eauto.
Qed.

(** X6: whatever its outcome, a call of [parseDefinition] leaves every
    Definition that existed before it exactly as it was, properties and
    documentation included; it only appends to the Definitions, to the
    visited cache and to the log. *)
Theorem parseDefinition_frame fuel name defParts stack s :
  let s' := snd (parseDefinition fuel name defParts stack s) in
  length (definitions s) <= length (definitions s')
  /\ (forall i, i < length (definitions s) ->
        nth_error (definitions s') i = nth_error (definitions s) i)
  /\ (exists more, visitedDefs s' = visitedDefs s ++ more)
  /\ (exists more, logs s' = logs s ++ more).
Proof.
  intros s'. subst s'.
  destruct (keepsOld_parseDefinition fuel (length (definitions s))
              name defParts stack s (Nat.le_refl _)) as [Hlen Hnth].
  pose proof (parseDefinition_closed changeCase
                findNonCollisionDefinitionName heap options fuel name
                defParts stack s) as Hev.
  split; [assumption|]. split; [assumption|]. split.
  - exact (evolves_visited _ _ _ _ _ Hev).
  - exact (evolves_logs _ _ Hev).
Qed.

End Frame.

(** ** No dangling references *)

(** Every Definition the visited cache or a REFERENCE property points to is
    in the collection. *)
Definition wellReferenced (s : Session) : Prop :=
  (forall v, In v (visitedDefs s) ->
             Visited.definition v < length (definitions s))
  /\ (forall def p r,
        In def (definitions s) -> In p (Def.properties def) ->
        Property.ref p = Some r -> r < length (definitions s)).

(** A property of the number of Definitions that stays true when the
    collection grows. *)
Definition mono (P : nat -> Prop) : Prop :=
  forall n m, P n -> n <= m -> P m.

(** If [m] returns from a well-referenced session with [Pre] of the number
    of Definitions, the session is well-referenced afterwards, has no fewer
    Definitions, and [Post] holds of the result and their number. *)
Definition spec {A} (Pre : nat -> Prop) (m : M A) (Post : A -> nat -> Prop)
  : Prop :=
  forall s a s',
    wellReferenced s -> Pre (length (definitions s)) ->
    m s = (Ok a, s') ->
    wellReferenced s'
    /\ length (definitions s) <= length (definitions s')
    /\ Post a (length (definitions s')).

Ltac mono_tac :=
  let n := fresh "n" in
  let m := fresh "m" in
  let H := fresh "H" in
  let Hle := fresh "Hle" in
  intros n m H Hle;
  repeat match goal with
         | H : _ /\ _ |- _ => destruct H
         end;
  repeat split; intros;
  try solve [match goal with
             | Hm : mono _ |- _ => eapply Hm; [eassumption | exact Hle]
             | Hm : forall _, mono _ |- _ =>
                 eapply Hm; [eassumption | exact Hle]
             end];
  try (eapply Nat.lt_le_trans; [|exact Hle]);
  try (eapply Nat.le_trans; [|exact Hle]);
  eauto.

Lemma spec_ret {A} (Pre : nat -> Prop) (a : A) (Post : A -> nat -> Prop) :
  (forall n, Pre n -> Post a n) -> spec Pre (ret a) Post.
Proof.
  intros H s a' s' Hw Hpre [= <- <-]. auto.
Qed.

Lemma spec_throw {A} Pre e (Post : A -> nat -> Prop) :
  spec Pre (throw e) Post.
Proof. intros s a s' _ _ H. discriminate. Qed.

Lemma spec_bind {A B} Pre (m : M A) (k : A -> M B) Mid Post :
  mono Pre ->
  spec Pre m Mid ->
  (forall a, spec (fun n => Pre n /\ Mid a n) (k a) Post) ->
  spec Pre (bind m k) Post.
Proof.
  intros Hmono Hm Hk s b s' Hw Hpre Hrun. unfold bind in Hrun.
  destruct (m s) as [[a|e|] s1] eqn:E; try discriminate.
  destruct (Hm s a s1 Hw Hpre E) as (Hw1 & Hlen1 & Hmid).
  destruct (Hk a s1 b s' Hw1 (conj (Hmono _ _ Hpre Hlen1) Hmid) Hrun)
    as (Hw' & Hlen' & Hpost).
  split; [assumption|]. split; [lia | assumption].
Qed.

Lemma spec_pre {A} (Pre Pre' : nat -> Prop) (m : M A) Post :
  (forall n, Pre' n -> Pre n) -> spec Pre m Post -> spec Pre' m Post.
Proof.
  intros H Hm s a s' Hw Hpre Hrun. apply (Hm s a s' Hw (H _ Hpre) Hrun).
Qed.

Lemma spec_post {A} Pre (m : M A) (Post Post' : A -> nat -> Prop) :
  (forall a n, Post a n -> Post' a n) -> spec Pre m Post -> spec Pre m Post'.
Proof.
  intros H Hm s a s' Hw Hpre Hrun.
  destruct (Hm s a s' Hw Hpre Hrun) as (Hw' & Hlen & Hpost). auto.
Qed.

(** A catch clause that only throws adds no way to return. *)
Lemma spec_tryCatch_throw {A} Pre (m : M A) e Post :
  spec Pre m Post -> spec Pre (tryCatch m (fun _ => throw e)) Post.
Proof.
  intros Hm s a s' Hw Hpre Hrun. unfold tryCatch in Hrun.
  destruct (m s) as [[a'|e'|] s1] eqn:E; try discriminate.
  injection Hrun as <- <-. exact (Hm s a' s1 Hw Hpre E).
Qed.

Lemma spec_forEach {A} Pre (f : A -> M unit) l :
  mono Pre ->
  (forall x, spec Pre (f x) (fun _ _ => True)) ->
  spec Pre (forEach f l) (fun _ _ => True).
Proof.
  intros Hmono Hf. induction l as [|x l IH]; cbn [forEach].
  - now apply spec_ret.
  - eapply spec_bind; [assumption | apply Hf |].
    intros u. eapply spec_pre; [|exact IH]. now intros n [H _].
Qed.

Lemma spec_forOf {A B} Pre (f : A -> M B) (Q : B -> nat -> Prop) l :
  mono Pre ->
  (forall y, mono (Q y)) ->
  (forall x, spec Pre (f x) Q) ->
  spec Pre (forOf f l) (fun ys n => Forall (fun y => Q y n) ys).
Proof.
  intros Hmono HQ Hf. induction l as [|x l IH]; cbn [forOf].
  - apply spec_ret. intros n _. constructor.
  - eapply spec_bind; [assumption | apply Hf |]. intros y.
    eapply spec_bind with
      (Mid := fun ys n => Q y n /\ Forall (fun y' => Q y' n) ys).
    + mono_tac.
    + intros s ys s' Hw [Hpre Hy] Hrun.
      destruct (IH s ys s' Hw Hpre Hrun) as (Hw' & Hlen & Hys).
      split; [assumption|]. split; [assumption|].
      split; [exact (HQ y _ _ Hy Hlen) | assumption].
    + intros ys. apply spec_ret. intros n [_ [Hy Hys]]. now constructor.
Qed.

Lemma spec_same {A} Pre (m : M A) (Post : A -> nat -> Prop) :
  (forall s a s', m s = (Ok a, s') ->
     definitions s' = definitions s /\ visitedDefs s' = visitedDefs s) ->
  (forall s a s' n, wellReferenced s -> Pre n ->
     n = length (definitions s) -> m s = (Ok a, s') -> Post a n) ->
  spec Pre m Post.
Proof.
  intros Hsame Hpost s a s' Hw Hpre Hrun.
  destruct (Hsame s a s' Hrun) as [Hd Hv].
  split; [|split].
  - unfold wellReferenced. rewrite Hd, Hv. exact Hw.
  - rewrite Hd. lia.
  - rewrite Hd. eapply Hpost; eauto.
Qed.

Lemma spec_log Pre e : spec Pre (log e) (fun _ _ => True).
Proof.
  apply spec_same; [|auto]. intros s a s' H. injection H as _ <-. auto.
Qed.

Lemma spec_getVisited Pre :
  spec Pre getVisited
       (fun visited n =>
          forall v, In v visited -> Visited.definition v < n).
Proof.
  apply spec_same.
  - intros s a s' [= _ <-]. auto.
  - intros s a s' n [Hv _] _ -> [= <- _]. exact Hv.
Qed.

Lemma spec_getDefinitions Pre :
  spec Pre getDefinitions (fun defs n => length defs <= n).
Proof.
  apply spec_same.
  - intros s a s' [= _ <-]. auto.
  - intros s a s' n _ _ -> [= <- _]. lia.
Qed.

Lemma spec_typeNameOr Pre heap type fallback :
  spec Pre (typeNameOr heap type fallback) (fun _ _ => True).
Proof.
  apply spec_same; [|auto]. intros s a s' H.
  destruct type as [x|node| |]; simpl in H; try discriminate;
    injection H as _ <-; auto.
Qed.

Lemma spec_nestedCall {A} Pre
      (rec : string -> RawValue -> list string -> M A) Post name p st :
  (forall nm, spec Pre (rec nm p st) Post) ->
  spec Pre (nestedCall rec name p st) Post.
Proof.
  intros Hrec. destruct name; cbn [nestedCall]; [apply Hrec|..];
    intros s a s' _ _ H; discriminate.
Qed.

Lemma In_updateAt {A} (f : A -> A) l i y :
  In y (updateAt i f l) -> In y l \/ exists x, In x l /\ y = f x.
Proof.
  revert i. induction l as [|x l IH]; intros [|i]; simpl; auto.
  - intros [<-|H]; eauto.
  - intros [<-|H]; auto. destruct (IH _ H) as [H'|(x' & Hx & ->)]; eauto.
Qed.

Lemma spec_pushProperty (Pre : nat -> Prop) d p :
  (forall n r, Pre n -> Property.ref p = Some r -> r < n) ->
  spec Pre (mutate d (Def.pushProperty p)) (fun _ _ => True).
Proof.
  intros Hp s a s' [Hv Hr] Hpre H. injection H as _ <-.
  split; [|split; [|exact I]];
    [|cbn [definitions]; rewrite updateAt_length; lia].
  unfold wellReferenced. cbn [definitions visitedDefs].
  rewrite updateAt_length. split; [exact Hv|].
  intros def q r Hdef Hq Href.
  apply In_updateAt in Hdef as [Hdef|(x & Hx & ->)]; [eauto|].
  cbn [Def.pushProperty Def.properties] in Hq.
  apply in_app_or in Hq as [Hq|[<-|[]]]; eauto.
Qed.

Lemma spec_pushDoc Pre d doc :
  spec Pre (mutate d (Def.pushDoc doc)) (fun _ _ => True).
Proof.
  intros s a s' [Hv Hr] Hpre H. injection H as _ <-.
  split; [|split; [|exact I]];
    [|cbn [definitions]; rewrite updateAt_length; lia].
  unfold wellReferenced. cbn [definitions visitedDefs].
  rewrite updateAt_length. split; [exact Hv|].
  intros def q r Hdef Hq Href.
  apply In_updateAt in Hdef as [Hdef|(x & Hx & ->)]; eauto.
Qed.

Lemma wellReferenced_register def defParts s :
  Def.properties def = [] ->
  wellReferenced s -> wellReferenced (register def defParts s).
Proof.
  intros Hprops [Hv Hr]. split; cbn [register definitions visitedDefs];
    rewrite length_app; simpl.
  - intros v Hin. apply in_app_or in Hin as [Hin|[<-|[]]].
    + specialize (Hv v Hin). lia.
    + simpl. lia.
  - intros d p r Hd Hp Href. apply in_app_or in Hd as [Hd|[<-|[]]].
    + specialize (Hr d p r Hd Hp Href). lia.
    + rewrite Hprops in Hp. contradiction.
Qed.

Section References.

Variable changeCase : string -> bool -> string.
Variable findNonCollisionDefinitionName :
  list Def.t -> string -> JsError + string.
Variable heap : Heap.
Variable options : ParserOptions.

Local Abbreviation parseDefinition :=
  (parseDefinition changeCase findNonCollisionDefinitionName heap options).

Definition RecSpec (rec : string -> RawValue -> list string -> M DefId)
  : Prop :=
  forall name defParts stack,
    spec (fun _ => True) (rec name defParts stack) (fun d n => d < n).

Lemma property_spec rec d stack key pub type isArr descr wrap warn :
  RecSpec rec ->
  spec (fun _ => True)
    (match type with
     | VStr ty =>
         mutate d (Def.pushProperty
           (Property.PRIMITIVE pub key ty (getType ty) isArr))
     | _ =>
         if instanceofComplexTypeElement heap type then
           mutate d (Def.pushProperty
             (Property.PRIMITIVE pub key
                (dollarName heap type ++ " - ComplexType are not supported yet")
                (TsType "any") isArr)) ;;
           log warn
         else
           visitedDefs <- getVisited ;;
           match findReferenceDefiniton visitedDefs type with
           | Some visited =>
               sourceName <- typeNameOr heap type pub ;;
               mutate d (Def.pushProperty
                 (Property.REFERENCE pub sourceName descr
                    (Visited.definition visited) isArr))
           | None =>
               tryCatch
                 (subName <- typeNameOr heap type pub ;;
                  subDefinition <- nestedCall rec subName type
                                              (stack ++ [key]) ;;
                  sourceName <- typeNameOr heap type pub ;;
                  mutate d (Def.pushProperty
                    (Property.REFERENCE pub sourceName None
                       subDefinition isArr)))
                 (fun _ => throw wrap)
           end
     end)
    (fun _ _ => True).
Proof.
  intros Hrec.
  assert (Hprim : forall Pre n sn descr' ty arr,
             spec Pre (mutate d (Def.pushProperty
                         (Property.PRIMITIVE n sn descr' ty arr)))
                  (fun _ _ => True)).
  { intros. apply spec_pushProperty. intros ? ? _ Href. discriminate. }
  assert (Hrest : spec (fun _ => True)
            (visitedDefs <- getVisited ;;
             match findReferenceDefiniton visitedDefs type with
             | Some visited =>
                 sourceName <- typeNameOr heap type pub ;;
                 mutate d (Def.pushProperty
                   (Property.REFERENCE pub sourceName descr
                      (Visited.definition visited) isArr))
             | None =>
                 tryCatch
                   (subName <- typeNameOr heap type pub ;;
                    subDefinition <- nestedCall rec subName type
                                                (stack ++ [key]) ;;
                    sourceName <- typeNameOr heap type pub ;;
                    mutate d (Def.pushProperty
                      (Property.REFERENCE pub sourceName None
                         subDefinition isArr)))
                   (fun _ => throw wrap)
             end)
            (fun _ _ => True)).
  { eapply spec_bind; [mono_tac | apply spec_getVisited |].
    intros visited.
    destruct (findReferenceDefiniton visited type) as [v|] eqn:Hfind.
    - apply find_some in Hfind as [Hin _].
      eapply spec_bind; [mono_tac | apply spec_typeNameOr |].
      intros sourceName. apply spec_pushProperty.
      intros n r [[_ Hv] _] [= <-]. auto.
    - apply spec_tryCatch_throw.
      eapply spec_bind; [mono_tac | apply spec_typeNameOr |].
      intros subName.
      eapply spec_bind;
        [mono_tac
        | apply spec_nestedCall; intros nm;
          eapply spec_pre; [intros; exact I | apply Hrec] |].
      intros sub.
      eapply spec_bind; [mono_tac | apply spec_typeNameOr |].
      intros sourceName. apply spec_pushProperty.
      intros n r [[_ Hsub] _] [= <-]. exact Hsub. }
  destruct type as [ty|node| |]; [apply Hprim| | |];
    (destruct (instanceofComplexTypeElement heap _); [|exact Hrest]);
    (eapply spec_bind; [mono_tac | apply Hprim |]; intros u;
     apply spec_log).
Qed.

Lemma parseEntry_spec rec d name stack entry :
  RecSpec rec ->
  spec (fun _ => True) (parseEntry heap rec d name stack entry)
       (fun _ _ => True).
Proof.
  intros Hrec. destruct entry as [key type]. unfold parseEntry.
  destruct (String.eqb key "targetNSAlias"); [apply spec_pushDoc|].
  destruct (String.eqb key "typeName"); [now apply spec_ret|].
  destruct (String.eqb key "targetNamespace"); [apply spec_pushDoc|].
  destruct (Js.endsWith key "[]").
  - unfold parseArrayProperty. cbv zeta. now apply property_spec.
  - unfold parsePlainProperty. now apply property_spec.
Qed.

Lemma parseDefinition_spec fuel : RecSpec (parseDefinition fuel).
Proof.
  induction fuel as [|fuel IH]; intros name defParts stack s d s' Hw _ Hrun.
  - discriminate.
  - rewrite parseDefinition_unfold in Hrun. cbv zeta in Hrun.
    destruct (findNonCollisionDefinitionName (definitions s)
                (changeCase name true)) as [e|base]; [discriminate|].
    match type of Hrun with
    | bind ?body ?k (register ?def defParts ?s0) = _ =>
        assert (Hbody : spec (fun _ => True) body (fun _ _ => True));
        [|pose proof (wellReferenced_register def defParts s0 eq_refl Hw)
            as Hw1;
          unfold bind in Hrun;
          destruct (body (register def defParts s0)) as [[[]|e|] s1] eqn:E;
          try discriminate;
          destruct (Hbody _ _ _ Hw1 I E) as (Hw' & Hlen & _)]
    end.
    + destruct defParts as [str|node| |]; try now apply spec_ret.
      * destruct str as [|c str]; [now apply spec_ret|]. cbv zeta.
        destruct (nth_error _ 1); [|apply spec_throw].
        apply spec_pushProperty. intros ? ? _ Href. discriminate.
      * cbv zeta. destruct (_ && _); [apply spec_log|].
        apply spec_forEach; [mono_tac|].
        intros entry. now apply parseEntry_spec.
    + cbn [ret] in Hrun. injection Hrun as <- <-.
      cbn [register log snd definitions] in Hlen.
      rewrite length_app in Hlen. simpl in Hlen.
      split; [assumption|]. split; lia.
Qed.

(** X7: a call of [parseDefinition] that returns from a session without
    dangling references leaves none: every [ref] of every property, every
    Definition named by the visited cache and the Definition returned are
    in the collection. *)
Theorem parseDefinition_well_referenced fuel name defParts stack s d s' :
  wellReferenced s ->
  parseDefinition fuel name defParts stack s = (Ok d, s') ->
  wellReferenced s' /\ d < length (definitions s').
Proof.
  intros Hw Hrun.
  destruct (parseDefinition_spec fuel name defParts stack s d s' Hw I Hrun)
    as (Hw' & _ & Hd).
  auto.
Qed.

End References.

(** ** The walk over services, ports and methods *)

(** A role of a method names a Definition of a collection of [n]. *)
Definition validRole (o : option DefId) (n : nat) : Prop :=
  forall d, o = Some d -> d < n.

Definition validMethod (m : Method.t) (n : nat) : Prop :=
  validRole (Method.paramDefinition m) n
  /\ validRole (Method.returnDefinition m) n
  /\ validRole (Method.inputHeaderDefinition m) n
  /\ validRole (Method.outputHeaderDefinition m) n
  /\ validRole (Method.faultDefinition m) n.

Definition validPort (p : Port.t) (n : nat) : Prop :=
  Forall (fun m => validMethod m n) (Port.methods p).

Definition validService (sv : Service.t) (n : nat) : Prop :=
  Forall (fun p => validPort p n) (Service.ports sv).

(** A parsed model without dangling Definitions: the roles of every
    method, reached through [services] or through [ports], and every
    [ref] of every property name a Definition of [definitions]. *)
Definition validModel (pw : ParsedWsdl) : Prop :=
  let n := length (pw_definitions pw) in
  Forall (fun sv => validService sv n) (pw_services pw)
  /\ Forall (fun p => validPort p n) (pw_ports pw)
  /\ (forall def p r,
        In def (pw_definitions pw) -> In p (Def.properties def) ->
        Property.ref p = Some r -> r < n).

Lemma validRole_None n : validRole None n.
Proof. intros d H. discriminate. Qed.

Lemma validRole_mono o : mono (validRole o).
Proof. intros n m H Hle d Hd. specialize (H d Hd). lia. Qed.

Lemma validMethod_mono m : mono (validMethod m).
Proof.
  intros n k (H1 & H2 & H3 & H4 & H5) Hle.
  repeat split; eapply validRole_mono; eassumption.
Qed.

Lemma validPort_mono p : mono (validPort p).
Proof.
  intros n k H Hle. unfold validPort in *.
  eapply Forall_impl; [|exact H].
  intros m Hm. exact (validMethod_mono m n k Hm Hle).
Qed.

Lemma validService_mono sv : mono (validService sv).
Proof.
  intros n k H Hle. unfold validService in *.
  eapply Forall_impl; [|exact H].
  intros p Hp. exact (validPort_mono p n k Hp Hle).
Qed.

Lemma wellReferenced_empty : wellReferenced emptySession.
Proof. split; simpl; intros; contradiction. Qed.

Lemma findIndex_lt {A} (p : A -> bool) l i :
  Registry.findIndex p l = Some i -> i < length l.
Proof.
  revert i. induction l as [|x l IH]; intros i; simpl; [discriminate|].
  destruct (p x).
  - intros [= <-]. lia.
  - destruct (Registry.findIndex p l) as [j|]; [|discriminate].
    intros [= <-]. specialize (IH j eq_refl). lia.
Qed.

Lemma bind_Ok {S A B} (m : St S A) (k : A -> St S B) s b s' :
  bind m k s = (Ok b, s') ->
  exists a s1, m s = (Ok a, s1) /\ k a s1 = (Ok b, s').
Proof.
  unfold bind. destruct (m s) as [[a|e|] s1]; try discriminate. eauto.
Qed.

Lemma forOf_map {A B C} (f : A -> M B) (g : B -> C) (h : A -> C) l :
  (forall x s y s', f x s = (Ok y, s') -> g y = h x) ->
  forall s ys s', forOf f l s = (Ok ys, s') -> map g ys = map h l.
Proof.
  intros Hf. induction l as [|x l IH]; intros s ys s' Hrun;
    cbn [forOf] in Hrun.
  - injection Hrun as <- _. reflexivity.
  - apply bind_Ok in Hrun as (y & s1 & Hy & Hrun).
    apply bind_Ok in Hrun as (ys' & s2 & Hys & Hrun).
    injection Hrun as <- _. simpl.
    rewrite (Hf _ _ _ _ Hy), (IH _ _ _ Hys). reflexivity.
Qed.

Lemma forOf_Forall {A B} (f : A -> M B) (Q : B -> Prop) l :
  (forall x s y s', f x s = (Ok y, s') -> Q y) ->
  forall s ys s', forOf f l s = (Ok ys, s') -> Forall Q ys.
Proof.
  intros Hf. induction l as [|x l IH]; intros s ys s' Hrun;
    cbn [forOf] in Hrun.
  - injection Hrun as <- _. constructor.
  - apply bind_Ok in Hrun as (y & s1 & Hy & Hrun).
    apply bind_Ok in Hrun as (ys' & s2 & Hys & Hrun).
    injection Hrun as <- _. constructor; eauto.
Qed.

(** The names of the services, of their ports and of their methods, in
    order: of the decoded document, and of the parsed model. *)
Definition documentShape (wsdl : Wsdl)
  : list (string * list (string * list string)) :=
  map (fun sv =>
         (fst sv,
          map (fun p => (fst p, map fst (binding_methods (snd p))))
              (raw_ports (snd sv))))
      (raw_services wsdl).

Definition portShape (p : Port.t) : string * list string :=
  (Port.sourceName p, map Method.name (Port.methods p)).

Definition serviceShape (sv : Service.t)
  : string * list (string * list string) :=
  (Service.sourceName sv, map portShape (Service.ports sv)).

Definition modelShape (pw : ParsedWsdl)
  : list (string * list (string * list string)) :=
  map serviceShape (pw_services pw).

Section WalkerProperties.

Variable changeCase : string -> bool -> string.
Variable ParsedWsdl_findNonCollisionDefinitionName :
  option nat -> list Def.t -> string -> JsError + string.
Variable ParsedWsdl_findDefinition : list Def.t -> string -> option DefId.
Variable reservedKeywords : list string.
Variable heap : Heap.
Variable wsdl : Wsdl.
Variable options : PartialParserOptions.
Variable fuel : nat.

Local Abbreviation findOrParse :=
  (findOrParse changeCase ParsedWsdl_findNonCollisionDefinitionName
     ParsedWsdl_findDefinition heap options fuel).
Local Abbreviation parseElementMessage :=
  (parseElementMessage changeCase ParsedWsdl_findNonCollisionDefinitionName
     ParsedWsdl_findDefinition heap options fuel).
Local Abbreviation parseHeader :=
  (parseHeader changeCase ParsedWsdl_findNonCollisionDefinitionName
     ParsedWsdl_findDefinition heap wsdl options fuel).
Local Abbreviation parseInput :=
  (parseInput changeCase ParsedWsdl_findNonCollisionDefinitionName
     ParsedWsdl_findDefinition heap wsdl options fuel).
Local Abbreviation parseOutput :=
  (parseOutput changeCase ParsedWsdl_findNonCollisionDefinitionName
     ParsedWsdl_findDefinition heap wsdl options fuel).
Local Abbreviation parseFault :=
  (parseFault changeCase ParsedWsdl_findNonCollisionDefinitionName
     ParsedWsdl_findDefinition heap wsdl options fuel).
Local Abbreviation parseMethod :=
  (parseMethod changeCase ParsedWsdl_findNonCollisionDefinitionName
     ParsedWsdl_findDefinition reservedKeywords heap wsdl options fuel).
Local Abbreviation parsePort :=
  (parsePort changeCase ParsedWsdl_findNonCollisionDefinitionName
     ParsedWsdl_findDefinition reservedKeywords heap wsdl options fuel).
Local Abbreviation parseService :=
  (parseService changeCase ParsedWsdl_findNonCollisionDefinitionName
     ParsedWsdl_findDefinition reservedKeywords heap wsdl options fuel).
Local Abbreviation parseWsdl :=
  (parseWsdl changeCase ParsedWsdl_findNonCollisionDefinitionName
     ParsedWsdl_findDefinition reservedKeywords heap wsdl options fuel).

(** *** The order of the document *)

Lemma parseMethod_name serviceName portName entry s m s' :
  parseMethod serviceName portName entry s = (Ok m, s') ->
  Method.name m = fst entry.
Proof.
  destruct entry as [methodName method]. unfold parseMethod.
  intros Hrun.
  apply bind_Ok in Hrun as (u & s1 & _ & Hrun).
  apply bind_Ok in Hrun as ([[paramName i] ih] & s2 & _ & Hrun).
  apply bind_Ok in Hrun as ([o oh] & s3 & _ & Hrun).
  apply bind_Ok in Hrun as (f & s4 & _ & Hrun).
  injection Hrun as <- _. reflexivity.
Qed.

Lemma parsePort_shape serviceName entry s p s' :
  parsePort serviceName entry s = (Ok p, s') ->
  portShape p = (fst entry, map fst (binding_methods (snd entry)))
  /\ Port.name p = changeCase (fst entry) true.
Proof.
  destruct entry as [portName port]. unfold parsePort.
  intros Hrun.
  apply bind_Ok in Hrun as (u & s1 & _ & Hrun).
  apply bind_Ok in Hrun as (ms & s2 & Hms & Hrun).
  injection Hrun as <- _. unfold portShape. simpl.
  rewrite (forOf_map _ Method.name fst _
             (parseMethod_name serviceName portName) _ _ _ Hms).
  auto.
Qed.

Lemma parseService_shape entry s sv s' :
  parseService entry s = (Ok sv, s') ->
  serviceShape sv
  = (fst entry,
     map (fun p => (fst p, map fst (binding_methods (snd p))))
         (raw_ports (snd entry)))
  /\ Service.name sv = changeCase (fst entry) true
  /\ Forall (fun p => Port.name p = changeCase (Port.sourceName p) true)
            (Service.ports sv).
Proof.
  destruct entry as [serviceName service]. unfold parseService.
  intros Hrun.
  apply bind_Ok in Hrun as (u & s1 & _ & Hrun).
  apply bind_Ok in Hrun as (ps & s2 & Hps & Hrun).
  injection Hrun as <- _. unfold serviceShape. simpl.
  split; [|split; [reflexivity|]].
  - f_equal. eapply forOf_map; [|exact Hps].
    intros x t y t' Hy. now apply parsePort_shape in Hy.
  - eapply forOf_Forall; [|exact Hps].
    intros x t y t' Hy. apply parsePort_shape in Hy as [Hshape ->].
    unfold portShape in Hshape. now injection Hshape as -> _.
Qed.

(** X8: a parsed model lists the services, the ports of each service and
    the methods of each port under their names in the decoded document
    and in the order in which [Object.entries] lists them there; [ports]
    is the concatenation of the ports of the services; the display name
    of a service and of a port is its document name in PascalCase;
    [definitions] is the collection the resolver filled. *)
Theorem parseWsdl_shape pw s :
  parseWsdl = (Ok pw, s) ->
  modelShape pw = documentShape wsdl
  /\ pw_ports pw = flat_map Service.ports (pw_services pw)
  /\ pw_definitions pw = definitions s
  /\ Forall (fun sv =>
               Service.name sv = changeCase (Service.sourceName sv) true)
            (pw_services pw)
  /\ Forall (fun p => Port.name p = changeCase (Port.sourceName p) true)
            (pw_ports pw).
Proof.
  unfold parseWsdl.
  destruct (forOf _ _ emptySession) as [[svs|e|] s1] eqn:E;
    try discriminate.
  intros [= <- <-]. cbn [pw_services pw_ports pw_definitions].
  unfold modelShape, documentShape. cbn [pw_services].
  split; [|split; [reflexivity|split; [reflexivity|split]]].
  - eapply forOf_map; [|exact E].
    intros x t y t' Hy. now apply parseService_shape in Hy.
  - eapply forOf_Forall; [|exact E].
    intros x t y t' Hy.
    apply parseService_shape in Hy as (Hshape & -> & _).
    unfold serviceShape in Hshape. now injection Hshape as -> _.
  - assert (H : Forall (fun sv =>
               Forall (fun p =>
                 Port.name p = changeCase (Port.sourceName p) true)
                 (Service.ports sv)) svs).
    { eapply forOf_Forall; [|exact E].
      intros x t y t' Hy. now apply parseService_shape in Hy. }
    clear E. induction H as [|sv l Hsv _ IH]; simpl; [constructor|].
    apply Forall_app. auto.
Qed.

(** *** No dangling Definition *)

Hypothesis findDefinition_bound :
  forall defs name d,
    ParsedWsdl_findDefinition defs name = Some d -> d < length defs.

Local Abbreviation T := (fun _ : nat => True).

Lemma findOrParse_spec typeName defParts :
  spec T (findOrParse typeName defParts) validRole.
Proof.
  unfold findOrParse.
  intros s o s' Hw _ Hrun. unfold bind, getDefinitions at 1 in Hrun.
  destruct (ParsedWsdl_findDefinition (definitions s) typeName)
    as [d|] eqn:Hfind.
  - injection Hrun as <- <-. split; [assumption|]. split; [lia|].
    intros d' [= <-]. eauto.
  - apply bind_Ok in Hrun as (d & s1 & Hd & Hrun).
    injection Hrun as <- <-. unfold parseTop in Hd.
    destruct (parseDefinition_spec _ _ _ _ _ _ _ _ _ _ _ Hw I Hd)
      as (Hw' & Hlen & Hlt).
    split; [assumption|]. split; [assumption|].
    intros d' [= <-]. exact Hlt.
Qed.

Lemma parseElementMessage_spec el message :
  spec T (parseElementMessage el message) validRole.
Proof. apply findOrParse_spec. Qed.

Lemma lookupMessage_spec name :
  spec T (lookupMessage wsdl name) (fun _ _ => True).
Proof.
  unfold lookupMessage. destruct (assoc _ _); [|apply spec_throw].
  now apply spec_ret.
Qed.

Lemma logged_none_spec (Pre : nat -> Prop) e :
  mono Pre ->
  spec Pre (log e ;; ret (@None DefId)) validRole.
Proof.
  intros Hm. eapply spec_bind; [assumption | apply spec_log |].
  intros u. apply spec_ret. intros n _. apply validRole_None.
Qed.

Lemma parseHeader_spec serviceName portName methodName soap :
  spec T (parseHeader serviceName portName methodName soap) validRole.
Proof.
  unfold parseHeader. destruct soap as [soap|]; [|apply spec_throw].
  destruct (header soap) as [h|].
  - eapply spec_bind; [mono_tac | apply lookupMessage_spec |].
    intros msg. eapply spec_pre with (Pre := T); [auto|].
    destruct (element msg); [apply parseElementMessage_spec|].
    destruct (truthy _); [apply findOrParse_spec|].
    apply logged_none_spec. mono_tac.
  - apply spec_ret. intros n _. apply validRole_None.
Qed.

Lemma parseInput_spec serviceName portName methodName method :
  spec T (parseInput serviceName portName methodName method)
       (fun r n => validRole (snd (fst r)) n /\ validRole (snd r) n).
Proof.
  unfold parseInput. destruct (input method) as [inp|].
  - cbv zeta.
    eapply spec_bind; [mono_tac | apply parseHeader_spec |].
    intros ih.
    eapply spec_bind with (Mid := fun _ n => validRole ih n).
    + intros n m [_ H] Hle. split; [exact I|].
      exact (validRole_mono ih n m H Hle).
    + intros t msg t' Hw [_ Hih] Hrun.
      destruct (lookupMessage_spec _ t msg t' Hw I Hrun) as (Hw' & Hlen & _).
      split; [assumption|]. split; [assumption|].
      exact (validRole_mono ih _ _ Hih Hlen).
    + intros msg.
      eapply spec_bind with
        (Mid := fun i n => validRole i n /\ validRole ih n).
      * intros n m [[_ H1] H2] Hle. repeat split; try exact I;
          eapply validRole_mono; eassumption.
      * intros t i t' Hw [_ Hih] Hrun.
        assert (Hi : spec T
                  match element msg with
                  | Some el => parseElementMessage el msg
                  | None =>
                      if truthy (parts msg)
                      then findOrParse
                             (if String.eqb (dollar_name inp) ""
                              then "request" else dollar_name inp)
                             (parts msg)
                      else log (LogDebug
                                  ("Method '" ++ serviceName ++ "."
                                   ++ portName ++ "." ++ methodName
                                   ++ "' doesn't have any input defined")) ;;
                           ret None
                  end validRole).
        { destruct (element msg); [apply parseElementMessage_spec|].
          destruct (truthy _); [apply findOrParse_spec|].
          apply logged_none_spec. mono_tac. }
        destruct (Hi t i t' Hw I Hrun) as (Hw' & Hlen & Hv).
        split; [assumption|]. split; [assumption|].
        split; [assumption|]. exact (validRole_mono ih _ _ Hih Hlen).
      * intros i. apply spec_ret. intros n [_ H]. exact H.
  - apply spec_ret. intros n _. split; apply validRole_None.
Qed.

Lemma parseOutput_spec serviceName portName methodName method :
  spec T (parseOutput serviceName portName methodName method)
       (fun r n => validRole (fst r) n /\ validRole (snd r) n).
Proof.
  unfold parseOutput. destruct (output method) as [out|].
  - eapply spec_bind; [mono_tac | apply parseHeader_spec |].
    intros oh.
    eapply spec_bind with (Mid := fun _ n => validRole oh n).
    + intros n m [_ H] Hle. split; [exact I|].
      exact (validRole_mono oh n m H Hle).
    + intros t msg t' Hw [_ Hoh] Hrun.
      destruct (lookupMessage_spec _ t msg t' Hw I Hrun) as (Hw' & Hlen & _).
      split; [assumption|]. split; [assumption|].
      exact (validRole_mono oh _ _ Hoh Hlen).
    + intros msg.
      eapply spec_bind with
        (Mid := fun o n => validRole o n /\ validRole oh n).
      * intros n m [[_ H1] H2] Hle. repeat split; try exact I;
          eapply validRole_mono; eassumption.
      * intros t o t' Hw [_ Hoh] Hrun.
        assert (Ho : spec T
                  match element msg with
                  | Some el => parseElementMessage el msg
                  | None => findOrParse (dollar_name out) (parts msg)
                  end validRole).
        { destruct (element msg);
            [apply parseElementMessage_spec | apply findOrParse_spec]. }
        destruct (Ho t o t' Hw I Hrun) as (Hw' & Hlen & Hv).
        split; [assumption|]. split; [assumption|].
        split; [assumption|]. exact (validRole_mono oh _ _ Hoh Hlen).
      * intros o. apply spec_ret. intros n [_ H]. exact H.
  - apply spec_ret. intros n _. split; apply validRole_None.
Qed.

Lemma parseFault_spec serviceName portName methodName method :
  spec T (parseFault serviceName portName methodName method) validRole.
Proof.
  unfold parseFault. destruct (fault method) as [flt|].
  - eapply spec_bind; [mono_tac | apply lookupMessage_spec |].
    intros msg. eapply spec_pre with (Pre := T); [auto|].
    destruct (element msg); [apply parseElementMessage_spec|].
    destruct (truthy _); [apply findOrParse_spec|].
    apply logged_none_spec. mono_tac.
  - apply spec_ret. intros n _. apply validRole_None.
Qed.

Lemma parseMethod_spec serviceName portName entry :
  spec T (parseMethod serviceName portName entry) validMethod.
Proof.
  destruct entry as [methodName method]. unfold parseMethod.
  intros s m s' Hw _ Hrun.
  apply bind_Ok in Hrun as (u & s1 & Hlog & Hrun).
  destruct (spec_log T _ _ _ _ Hw I Hlog) as (Hw1 & L1 & _).
  apply bind_Ok in Hrun as ([[paramName i] ih] & s2 & Hin & Hrun).
  destruct (parseInput_spec _ _ _ _ _ _ _ Hw1 I Hin)
    as (Hw2 & L2 & Hi & Hih).
  apply bind_Ok in Hrun as ([o oh] & s3 & Hout & Hrun).
  destruct (parseOutput_spec _ _ _ _ _ _ _ Hw2 I Hout)
    as (Hw3 & L3 & Ho & Hoh).
  apply bind_Ok in Hrun as (f & s4 & Hf & Hrun).
  destruct (parseFault_spec _ _ _ _ _ _ _ Hw3 I Hf) as (Hw4 & L4 & Hfv).
  injection Hrun as <- <-. cbn [fst snd] in *.
  split; [assumption|]. split; [lia|].
  unfold validMethod. simpl.
  repeat split; try assumption;
    eapply validRole_mono; try eassumption; lia.
Qed.

Lemma parsePort_spec serviceName entry :
  spec T (parsePort serviceName entry) validPort.
Proof.
  destruct entry as [portName port]. unfold parsePort.
  intros s p s' Hw _ Hrun.
  apply bind_Ok in Hrun as (u & s1 & Hlog & Hrun).
  destruct (spec_log T _ _ _ _ Hw I Hlog) as (Hw1 & L1 & _).
  apply bind_Ok in Hrun as (ms & s2 & Hms & Hrun).
  destruct (spec_forOf T (parseMethod serviceName portName) validMethod
              (binding_methods port)
              ltac:(mono_tac) validMethod_mono
              (parseMethod_spec serviceName portName)
              _ _ _ Hw1 I Hms) as (Hw2 & L2 & Hall).
  injection Hrun as <- <-.
  split; [assumption|]. split; [lia|]. exact Hall.
Qed.

Lemma parseService_spec entry :
  spec T (parseService entry) validService.
Proof.
  destruct entry as [serviceName service]. unfold parseService.
  intros s sv s' Hw _ Hrun.
  apply bind_Ok in Hrun as (u & s1 & Hlog & Hrun).
  destruct (spec_log T _ _ _ _ Hw I Hlog) as (Hw1 & L1 & _).
  apply bind_Ok in Hrun as (ps & s2 & Hps & Hrun).
  destruct (spec_forOf T (parsePort serviceName) validPort
              (raw_ports service)
              ltac:(mono_tac) validPort_mono
              (parsePort_spec serviceName)
              _ _ _ Hw1 I Hps) as (Hw2 & L2 & Hall).
  injection Hrun as <- <-.
  split; [assumption|]. split; [lia|]. exact Hall.
Qed.

Lemma validPorts_flat_map svs n :
  Forall (fun sv => validService sv n) svs ->
  Forall (fun p => validPort p n) (flat_map Service.ports svs).
Proof.
  induction 1 as [|sv l Hsv _ IH]; simpl; [constructor|].
  apply Forall_app. auto.
Qed.

(** What a run of the walk that returns leaves: the session has no
    dangling reference and the services are valid. *)
Lemma parseWsdl_services pw s :
  parseWsdl = (Ok pw, s) ->
  wellReferenced s
  /\ pw_definitions pw = definitions s
  /\ pw_ports pw = flat_map Service.ports (pw_services pw)
  /\ Forall (fun sv => validService sv (length (definitions s)))
            (pw_services pw).
Proof.
  unfold parseWsdl.
  destruct (forOf _ _ emptySession) as [[svs|e|] s1] eqn:E;
    try discriminate.
  intros [= <- <-].
  destruct (spec_forOf T parseService validService (raw_services wsdl)
              ltac:(mono_tac) validService_mono parseService_spec
              _ _ _ wellReferenced_empty I E) as (Hw & _ & Hall).
  auto.
Qed.

(** X9: when the registry's lookup only answers Definitions of the
    collection, a parsed model has no dangling Definition: the five roles
    of every method, reached through [services] or through [ports], and
    the [ref] of every REFERENCE property are indices of [definitions];
    so is every Definition the visited cache names. *)
Theorem parseWsdl_well_referenced pw s :
  parseWsdl = (Ok pw, s) ->
  validModel pw
  /\ forall v, In v (visitedDefs s) ->
               Visited.definition v < length (pw_definitions pw).
Proof.
  intros Hrun.
  destruct (parseWsdl_services pw s Hrun)
    as ([Hvisited Hrefs] & Hdefs & Hports & Hall).
  unfold validModel. rewrite Hdefs, Hports.
  split; [|exact Hvisited].
  split; [exact Hall|]. split; [|exact Hrefs].
  now apply validPorts_flat_map.
Qed.

End WalkerProperties.

(** The lookup of the registry answers Definitions of the collection. *)
Lemma findDefinition_lt defs name d :
  Registry.findDefinition defs name = Some d -> d < length defs.
Proof. apply findIndex_lt. Qed.

(** *** The naming policy, for a whole model *)

Section WalkerNaming.

Variable changeCase : string -> bool -> string.
Variable ParsedWsdl_findNonCollisionDefinitionName :
  option nat -> list Def.t -> string -> JsError + string.
Variable ParsedWsdl_findDefinition : list Def.t -> string -> option DefId.
Variable reservedKeywords : list string.
Variable heap : Heap.
Variable wsdl : Wsdl.
Variable options : PartialParserOptions.
Variable fuel : nat.

(** The registry [parseWsdl] creates, with the ceiling of the options. *)
Local Abbreviation registry :=
  (ParsedWsdl_findNonCollisionDefinitionName
     (opt_maxRecursiveDefinitionName options)).
Local Abbreviation closed :=
  (closed changeCase registry (mergedOptions options)).
Local Abbreviation evolves :=
  (evolves changeCase registry (mergedOptions options)).

Lemma closed_forOf {A B} (f : A -> M B) l :
  (forall x, closed (f x)) -> closed (forOf f l).
Proof.
  intros Hf. induction l as [|x l IH]; cbn [forOf].
  - apply closed_ret.
  - apply closed_bind; [apply Hf|]. intros y.
    apply closed_bind; [exact IH|]. intros ys. apply closed_ret.
Qed.

Lemma closed_findOrParse typeName defParts :
  closed (findOrParse changeCase ParsedWsdl_findNonCollisionDefinitionName
            ParsedWsdl_findDefinition heap options fuel typeName defParts).
Proof.
  unfold findOrParse. apply closed_bind; [intros s; apply ev_refl|].
  intros defs. destruct (ParsedWsdl_findDefinition defs typeName).
  - apply closed_ret.
  - apply closed_bind; [apply parseDefinition_closed|]. intros d.
    apply closed_ret.
Qed.

Lemma closed_lookupMessage name : closed (lookupMessage wsdl name).
Proof.
  unfold lookupMessage.
  destruct (assoc _ _); [apply closed_ret | apply closed_throw].
Qed.

Lemma closed_logged {A} e (a : A) : closed (log e ;; ret a).
Proof.
  apply closed_bind; [apply closed_log|]. intros u. apply closed_ret.
Qed.

Lemma closed_parseHeader serviceName portName methodName soap :
  closed (parseHeader changeCase ParsedWsdl_findNonCollisionDefinitionName
            ParsedWsdl_findDefinition heap wsdl options fuel
            serviceName portName methodName soap).
Proof.
  unfold parseHeader. destruct soap as [soap|]; [|apply closed_throw].
  destruct (header soap) as [h|]; [|apply closed_ret].
  apply closed_bind; [apply closed_lookupMessage|]. intros msg.
  destruct (element msg); [apply closed_findOrParse|].
  destruct (truthy _); [apply closed_findOrParse | apply closed_logged].
Qed.

Lemma closed_parseInput serviceName portName methodName method :
  closed (parseInput changeCase ParsedWsdl_findNonCollisionDefinitionName
            ParsedWsdl_findDefinition heap wsdl options fuel
            serviceName portName methodName method).
Proof.
  unfold parseInput. destruct (input method) as [inp|]; [|apply closed_ret].
  cbv zeta.
  apply closed_bind; [apply closed_parseHeader|]. intros ih.
  apply closed_bind; [apply closed_lookupMessage|]. intros msg.
  apply closed_bind; [|intros i; apply closed_ret].
  destruct (element msg); [apply closed_findOrParse|].
  destruct (truthy _); [apply closed_findOrParse | apply closed_logged].
Qed.

Lemma closed_parseOutput serviceName portName methodName method :
  closed (parseOutput changeCase ParsedWsdl_findNonCollisionDefinitionName
            ParsedWsdl_findDefinition heap wsdl options fuel
            serviceName portName methodName method).
Proof.
  unfold parseOutput. destruct (output method) as [out|]; [|apply closed_ret].
  apply closed_bind; [apply closed_parseHeader|]. intros oh.
  apply closed_bind; [apply closed_lookupMessage|]. intros msg.
  apply closed_bind; [|intros o; apply closed_ret].
  destruct (element msg); apply closed_findOrParse.
Qed.

Lemma closed_parseFault serviceName portName methodName method :
  closed (parseFault changeCase ParsedWsdl_findNonCollisionDefinitionName
            ParsedWsdl_findDefinition heap wsdl options fuel
            serviceName portName methodName method).
Proof.
  unfold parseFault. destruct (fault method) as [flt|]; [|apply closed_ret].
  apply closed_bind; [apply closed_lookupMessage|]. intros msg.
  destruct (element msg); [apply closed_findOrParse|].
  destruct (truthy _); [apply closed_findOrParse | apply closed_logged].
Qed.

Lemma closed_parseMethod serviceName portName entry :
  closed (parseMethod changeCase ParsedWsdl_findNonCollisionDefinitionName
            ParsedWsdl_findDefinition reservedKeywords heap wsdl options
            fuel serviceName portName entry).
Proof.
  destruct entry as [methodName method]. unfold parseMethod.
  apply closed_bind; [apply closed_log|]. intros u.
  apply closed_bind; [apply closed_parseInput|]. intros [[paramName i] ih].
  apply closed_bind; [apply closed_parseOutput|]. intros [o oh].
  apply closed_bind; [apply closed_parseFault|]. intros f.
  apply closed_ret.
Qed.

Lemma closed_parseService entry :
  closed (parseService changeCase ParsedWsdl_findNonCollisionDefinitionName
            ParsedWsdl_findDefinition reservedKeywords heap wsdl options
            fuel entry).
Proof.
  destruct entry as [serviceName service]. unfold parseService.
  apply closed_bind; [apply closed_log|]. intros u.
  apply closed_bind; [|intros ps; apply closed_ret].
  apply closed_forOf. intros [portName port]. unfold parsePort.
  apply closed_bind; [apply closed_log|]. intros u'.
  apply closed_bind; [|intros ms; apply closed_ret].
  apply closed_forOf. intros entry. apply closed_parseMethod.
Qed.

Lemma parseWsdl_evolves :
  evolves emptySession
    (snd (parseWsdl changeCase ParsedWsdl_findNonCollisionDefinitionName
            ParsedWsdl_findDefinition reservedKeywords heap wsdl options
            fuel)).
Proof.
  unfold parseWsdl.
  pose proof (closed_forOf _ (raw_services wsdl) closed_parseService
                emptySession) as H.
  destruct (forOf _ _ emptySession) as [[svs|e|] s1]; exact H.
Qed.

(** X10: whatever the outcome of [parseWsdl], every Definition of the
    collection it leaves got its name by the policy of the resolver, under
    the merged options and the registry of the configured ceiling: the
    registry was asked for the PascalCased source name while the
    collection held exactly the Definitions before this one, and the name
    is the prefix, the PascalCased answer and the suffix.  The model
    returned holds this collection, and the visited cache has one entry
    for each of its Definitions. *)
Theorem parseWsdl_name_policy :
  let run := parseWsdl changeCase ParsedWsdl_findNonCollisionDefinitionName
               ParsedWsdl_findDefinition reservedKeywords heap wsdl options
               fuel in
  (forall i def,
     nth_error (definitions (snd run)) i = Some def ->
     namedByPolicy changeCase registry (mergedOptions options)
       (definitions (snd run)) i def)
  /\ (forall pw, fst run = Ok pw -> pw_definitions pw = definitions (snd run))
  /\ length (visitedDefs (snd run)) = length (definitions (snd run)).
Proof.
  intros run. pose proof parseWsdl_evolves as Hev. fold run in Hev.
  split; [|split].
  - intros i def Hnth.
    apply (evolves_named _ _ _ _ _ Hev); [simpl; lia | exact Hnth].
  - subst run. unfold parseWsdl.
    destruct (forOf _ _ emptySession) as [[svs|e|] s1];
      intros pw H; try discriminate.
    injection H as <-. reflexivity.
  - clear -Hev. induction Hev; cbn [register log mutate snd definitions
                                   visitedDefs]; auto.
    + rewrite !length_app. simpl. lia.
    + rewrite updateAt_length. assumption.
    + rewrite updateAt_length. assumption.
Qed.

End WalkerNaming.

(** *** The walk does not run out of budget *)

(** [m], run with the budget, never exhausts it, and [m'], the same
    computation with a larger budget, does what [m] does. *)
Definition settled {A} (m m' : M A) : Prop :=
  forall s, fst (m s) <> OutOfFuel /\ m' s = m s.

Lemma settled_same {A} (m : M A) :
  (forall s, fst (m s) <> OutOfFuel) -> settled m m.
Proof. intros H s. auto. Qed.

Lemma settled_ret {A} (a : A) : settled (ret a) (ret a).
Proof. apply settled_same. discriminate. Qed.

Lemma settled_throw {A} e : settled (@throw Session A e) (throw e).
Proof. apply settled_same. discriminate. Qed.

Lemma settled_log e : settled (log e) (log e).
Proof. apply settled_same. discriminate. Qed.

Lemma settled_bind {A B} (m m' : M A) (k k' : A -> M B) :
  settled m m' -> (forall a, settled (k a) (k' a)) ->
  settled (bind m k) (bind m' k').
Proof.
  intros Hm Hk s. unfold bind. destruct (Hm s) as [Hne ->].
  destruct (m s) as [[a|e|] s1]; cbn [fst] in *.
  - apply Hk.
  - split; [discriminate | reflexivity].
  - congruence.
Qed.

Lemma settled_forOf {A B} (f f' : A -> M B) l :
  (forall x, settled (f x) (f' x)) -> settled (forOf f l) (forOf f' l).
Proof.
  intros Hf. induction l as [|x l IH]; cbn [forOf].
  - apply settled_ret.
  - apply settled_bind; [apply Hf|]. intros y.
    apply settled_bind; [exact IH|]. intros ys. apply settled_ret.
Qed.

Lemma unvisited_le heap visited :
  length (unvisited heap visited) <= length heap.
Proof.
  unfold unvisited. rewrite <- (length_seq (length heap) 0) at 2.
  generalize (seq 0 (length heap)). intros l.
  induction l as [|x l IH]; simpl; [lia|].
  destruct (findReferenceDefiniton visited (VObj x)); simpl; lia.
Qed.

Section WalkerTermination.

Variable changeCase : string -> bool -> string.
Variable ParsedWsdl_findNonCollisionDefinitionName :
  option nat -> list Def.t -> string -> JsError + string.
Variable ParsedWsdl_findDefinition : list Def.t -> string -> option DefId.
Variable reservedKeywords : list string.
Variable heap : Heap.
Variable wsdl : Wsdl.
Variable options : PartialParserOptions.
Variable fuel more : nat.

Hypothesis heap_closed : heapClosed heap = true.
Hypothesis enough : length heap < fuel.

Lemma settled_findOrParse typeName defParts :
  settled
    (findOrParse changeCase ParsedWsdl_findNonCollisionDefinitionName
       ParsedWsdl_findDefinition heap options fuel typeName defParts)
    (findOrParse changeCase ParsedWsdl_findNonCollisionDefinitionName
       ParsedWsdl_findDefinition heap options (fuel + more) typeName
       defParts).
Proof.
  unfold findOrParse.
  apply settled_bind; [apply settled_same; discriminate|]. intros defs.
  destruct (ParsedWsdl_findDefinition defs typeName); [apply settled_ret|].
  apply settled_bind; [|intros d; apply settled_ret].
  intros s. unfold parseTop.
  assert (Hne : fst (parseDefinition changeCase
                       (ParsedWsdl_findNonCollisionDefinitionName
                          (opt_maxRecursiveDefinitionName options))
                       heap (mergedOptions options) fuel typeName defParts
                       [typeName] s) <> OutOfFuel).
  { apply (parseDefinition_terminates _ _ _ _ _ heap_closed). left.
    eapply Nat.le_lt_trans; [apply unvisited_le | exact enough]. }
  split; [exact Hne|].
  now apply parseDefinition_fuel_independent.
Qed.

Lemma settled_lookupMessage name :
  settled (lookupMessage wsdl name) (lookupMessage wsdl name).
Proof.
  unfold lookupMessage.
  destruct (assoc _ _); [apply settled_ret | apply settled_throw].
Qed.

Lemma settled_logged {A} e (a : A) :
  settled (log e ;; ret a) (log e ;; ret a).
Proof.
  apply settled_bind; [apply settled_log|]. intros u. apply settled_ret.
Qed.

Lemma settled_parseHeader serviceName portName methodName soap :
  settled
    (parseHeader changeCase ParsedWsdl_findNonCollisionDefinitionName
       ParsedWsdl_findDefinition heap wsdl options fuel
       serviceName portName methodName soap)
    (parseHeader changeCase ParsedWsdl_findNonCollisionDefinitionName
       ParsedWsdl_findDefinition heap wsdl options (fuel + more)
       serviceName portName methodName soap).
Proof.
  unfold parseHeader. destruct soap as [soap|]; [|apply settled_throw].
  destruct (header soap) as [h|]; [|apply settled_ret].
  apply settled_bind; [apply settled_lookupMessage|]. intros msg.
  destruct (element msg); [apply settled_findOrParse|].
  destruct (truthy _); [apply settled_findOrParse | apply settled_logged].
Qed.

Lemma settled_parseInput serviceName portName methodName method :
  settled
    (parseInput changeCase ParsedWsdl_findNonCollisionDefinitionName
       ParsedWsdl_findDefinition heap wsdl options fuel
       serviceName portName methodName method)
    (parseInput changeCase ParsedWsdl_findNonCollisionDefinitionName
       ParsedWsdl_findDefinition heap wsdl options (fuel + more)
       serviceName portName methodName method).
Proof.
  unfold parseInput. destruct (input method) as [inp|]; [|apply settled_ret].
  cbv zeta.
  apply settled_bind; [apply settled_parseHeader|]. intros ih.
  apply settled_bind; [apply settled_lookupMessage|]. intros msg.
  apply settled_bind; [|intros i; apply settled_ret].
  destruct (element msg); [apply settled_findOrParse|].
  destruct (truthy _); [apply settled_findOrParse | apply settled_logged].
Qed.

Lemma settled_parseOutput serviceName portName methodName method :
  settled
    (parseOutput changeCase ParsedWsdl_findNonCollisionDefinitionName
       ParsedWsdl_findDefinition heap wsdl options fuel
       serviceName portName methodName method)
    (parseOutput changeCase ParsedWsdl_findNonCollisionDefinitionName
       ParsedWsdl_findDefinition heap wsdl options (fuel + more)
       serviceName portName methodName method).
Proof.
  unfold parseOutput. destruct (output method) as [out|];
    [|apply settled_ret].
  apply settled_bind; [apply settled_parseHeader|]. intros oh.
  apply settled_bind; [apply settled_lookupMessage|]. intros msg.
  apply settled_bind; [|intros o; apply settled_ret].
  destruct (element msg); apply settled_findOrParse.
Qed.

Lemma settled_parseFault serviceName portName methodName method :
  settled
    (parseFault changeCase ParsedWsdl_findNonCollisionDefinitionName
       ParsedWsdl_findDefinition heap wsdl options fuel
       serviceName portName methodName method)
    (parseFault changeCase ParsedWsdl_findNonCollisionDefinitionName
       ParsedWsdl_findDefinition heap wsdl options (fuel + more)
       serviceName portName methodName method).
Proof.
  unfold parseFault. destruct (fault method) as [flt|]; [|apply settled_ret].
  apply settled_bind; [apply settled_lookupMessage|]. intros msg.
  destruct (element msg); [apply settled_findOrParse|].
  destruct (truthy _); [apply settled_findOrParse | apply settled_logged].
Qed.

Lemma settled_parseMethod serviceName portName entry :
  settled
    (parseMethod changeCase ParsedWsdl_findNonCollisionDefinitionName
       ParsedWsdl_findDefinition reservedKeywords heap wsdl options fuel
       serviceName portName entry)
    (parseMethod changeCase ParsedWsdl_findNonCollisionDefinitionName
       ParsedWsdl_findDefinition reservedKeywords heap wsdl options
       (fuel + more) serviceName portName entry).
Proof.
  destruct entry as [methodName method]. unfold parseMethod.
  apply settled_bind; [apply settled_log|]. intros u.
  apply settled_bind; [apply settled_parseInput|]. intros [[paramName i] ih].
  apply settled_bind; [apply settled_parseOutput|]. intros [o oh].
  apply settled_bind; [apply settled_parseFault|]. intros f.
  apply settled_ret.
Qed.

Lemma settled_parseService entry :
  settled
    (parseService changeCase ParsedWsdl_findNonCollisionDefinitionName
       ParsedWsdl_findDefinition reservedKeywords heap wsdl options fuel
       entry)
    (parseService changeCase ParsedWsdl_findNonCollisionDefinitionName
       ParsedWsdl_findDefinition reservedKeywords heap wsdl options
       (fuel + more) entry).
Proof.
  destruct entry as [serviceName service]. unfold parseService.
  apply settled_bind; [apply settled_log|]. intros u.
  apply settled_bind; [|intros ps; apply settled_ret].
  apply settled_forOf. intros [portName port]. unfold parsePort.
  apply settled_bind; [apply settled_log|]. intros u'.
  apply settled_bind; [|intros ms; apply settled_ret].
  apply settled_forOf. intros entry. apply settled_parseMethod.
Qed.

Lemma settled_parseWsdl :
  fst (parseWsdl changeCase ParsedWsdl_findNonCollisionDefinitionName
         ParsedWsdl_findDefinition reservedKeywords heap wsdl options fuel)
  <> OutOfFuel
  /\ parseWsdl changeCase ParsedWsdl_findNonCollisionDefinitionName
       ParsedWsdl_findDefinition reservedKeywords heap wsdl options
       (fuel + more)
     = parseWsdl changeCase ParsedWsdl_findNonCollisionDefinitionName
         ParsedWsdl_findDefinition reservedKeywords heap wsdl options fuel.
Proof.
  unfold parseWsdl.
  destruct (settled_forOf _ _ (raw_services wsdl) settled_parseService
              emptySession) as [Hne ->].
  destruct (forOf _ _ emptySession) as [[svs|e|] s]; cbn [fst] in *;
    split; try reflexivity; try discriminate; congruence.
Qed.

End WalkerTermination.

(** X22: [parseWsdl] is total.  When every reference inside the decoded
    document points into it, a recursion budget above the number of its
    objects is never exhausted, so the walk returns a model or throws, and
    a larger budget gives the same outcome and the same session. *)
Theorem parseWsdl_terminates changeCase findNonCollisionDefinitionName
    findDefinition reservedKeywords heap wsdl options fuel :
  heapClosed heap = true ->
  length heap < fuel ->
  fst (parseWsdl changeCase findNonCollisionDefinitionName findDefinition
         reservedKeywords heap wsdl options fuel) <> OutOfFuel
  /\ forall fuel',
       fuel <= fuel' ->
       parseWsdl changeCase findNonCollisionDefinitionName findDefinition
         reservedKeywords heap wsdl options fuel'
       = parseWsdl changeCase findNonCollisionDefinitionName findDefinition
           reservedKeywords heap wsdl options fuel.
Proof.
  intros Hclosed Hfuel. split.
  - apply (settled_parseWsdl changeCase findNonCollisionDefinitionName
             findDefinition reservedKeywords heap wsdl options fuel 0
             Hclosed Hfuel).
  - intros fuel' Hle.
    replace fuel' with (fuel + (fuel' - fuel)) by lia.
    apply (settled_parseWsdl changeCase findNonCollisionDefinitionName
             findDefinition reservedKeywords heap wsdl options fuel
             (fuel' - fuel) Hclosed Hfuel).
Qed.

(** ** Generation of the definition files *)

(** What generation reads of the parsed model and never changes: the name
    of every Definition and the [ref] of every property. *)
Definition skeleton (defs : list Def.t)
  : list (string * list (option DefId)) :=
  map (fun d => (Def.name d, map Property.ref (Def.properties d))) defs.

(** Every [ref] is a Definition of the collection. *)
Definition refsBelow (sk : list (string * list (option DefId))) : Prop :=
  forall d entry r,
    nth_error sk d = Some entry -> In (Some r) (snd entry) -> r < length sk.

(** The Definitions of a collection of [n] not generated yet. *)
Definition pending (n : nat) (gen : list DefId) : nat :=
  length (filter (fun d => negb (existsb (Nat.eqb d) gen)) (seq 0 n)).

Lemma includes_In d gen : existsb (Nat.eqb d) gen = true <-> In d gen.
Proof.
  rewrite existsb_exists. split.
  - intros (x & Hin & Heq). apply Nat.eqb_eq in Heq. now subst.
  - intros Hin. exists d. split; [assumption | apply Nat.eqb_refl].
Qed.

Lemma includes_false d gen : existsb (Nat.eqb d) gen = false <-> ~ In d gen.
Proof.
  rewrite <- includes_In. destruct (existsb _ _); split; congruence.
Qed.

Lemma pending_incl n gen gen' :
  (forall x, In x gen -> In x gen') -> pending n gen' <= pending n gen.
Proof.
  intros Hincl. apply filter_length_le. intros x Hx.
  apply negb_true_iff in Hx. apply negb_true_iff.
  apply includes_false in Hx. apply includes_false. auto.
Qed.

Lemma pending_push n gen d :
  d < n -> ~ In d gen -> pending n (gen ++ [d]) < pending n gen.
Proof.
  intros Hd Hnot. apply filter_length_lt with (x := d).
  - intros x Hx. apply negb_true_iff in Hx. apply negb_true_iff.
    apply includes_false in Hx. apply includes_false.
    intros Hin. apply Hx. apply in_or_app. auto.
  - apply in_seq. lia.
  - apply negb_true_iff. now apply includes_false.
  - apply negb_false_iff. apply includes_In. apply in_or_app. simpl. auto.
Qed.

Lemma pending_le n gen : pending n gen <= n.
Proof.
  unfold pending. rewrite <- (length_seq n 0) at 2.
  generalize (seq 0 n). intros l. induction l as [|x l IH]; simpl; [lia|].
  destruct (negb _); simpl; lia.
Qed.

Lemma bind_eval {S A B} (m : St S A) (k : A -> St S B) s a s1 :
  m s = (Ok a, s1) -> bind m k s = k a s1.
Proof. intros H. unfold bind. now rewrite H. Qed.

Lemma skeleton_length defs : length (skeleton defs) = length defs.
Proof. apply length_map. Qed.

Lemma skeleton_nth defs d def :
  nth_error defs d = Some def ->
  nth_error (skeleton defs) d
  = Some (Def.name def, map Property.ref (Def.properties def)).
Proof. intros H. unfold skeleton. now rewrite nth_error_map, H. Qed.

Lemma ref_rename camelcase options p :
  Property.ref (renameProperty camelcase options p) = Property.ref p.
Proof.
  unfold renameProperty.
  destruct (modelPropertyNaming options) as [[|]|]; destruct p; reflexivity.
Qed.

Lemma skeleton_rename camelcase options defs d i :
  skeleton (updateAt d
              (mapProperties (updateAt i (renameProperty camelcase options)))
              defs)
  = skeleton defs.
Proof.
  unfold skeleton. apply updateAt_map. intros x. cbn. f_equal.
  apply updateAt_map. apply ref_rename.
Qed.

Section GeneratorTotal.

Variable camelcase : string -> bool -> string.
Variable options : GeneratorOptions.
Variable sk : list (string * list (option DefId)).
Hypothesis sk_closed : refsBelow sk.

(** A store generation can work on. *)
Definition ready (g : GenState) : Prop :=
  skeleton (gen_definitions g) = sk /\ NoDup (generated g).

(** From [g] to [g'] the Definitions [more] were generated: each once,
    each with a file saved under its name, each with all the Definitions
    its properties refer to generated by then. *)
Definition grows (g g' : GenState) (more : list DefId) : Prop :=
  ready g'
  /\ generated g' = generated g ++ more
  /\ (forall x entry r,
        In x more -> nth_error sk x = Some entry ->
        In (Some r) (snd entry) -> In r (generated g'))
  /\ exists saved,
       files g' = files g ++ saved
       /\ length saved = length more
       /\ forall x entry,
            In x more -> nth_error sk x = Some entry ->
            In (fst entry) (map file_name saved).

Lemma grows_refl g : ready g -> grows g g [].
Proof.
  intros Hr. split; [assumption|]. split; [now rewrite app_nil_r|].
  split; [intros x entry r []|].
  exists []. split; [now rewrite app_nil_r|]. split; [reflexivity|].
  intros x entry [].
Qed.

Lemma grows_trans g1 g2 g3 m1 m2 :
  grows g1 g2 m1 -> grows g2 g3 m2 -> grows g1 g3 (m1 ++ m2).
Proof.
  intros (_ & Hg1 & Hc1 & f1 & Hf1 & Hl1 & Hn1)
         (Hr & Hg2 & Hc2 & f2 & Hf2 & Hl2 & Hn2).
  split; [assumption|]. split; [now rewrite Hg2, Hg1, app_assoc|].
  split.
  - intros x entry r Hin Hentry Hr'.
    apply in_app_or in Hin as [Hin|Hin]; [|eauto].
    rewrite Hg2. apply in_or_app. left. eauto.
  - exists (f1 ++ f2). split; [now rewrite Hf2, Hf1, app_assoc|].
    split; [rewrite !length_app; lia|].
    intros x entry Hin Hentry. rewrite map_app. apply in_or_app.
    apply in_app_or in Hin as [Hin|Hin]; eauto.
Qed.

Lemma grows_from g0 g g' more :
  generated g0 = generated g -> files g0 = files g ->
  grows g g' more -> grows g0 g' more.
Proof.
  intros Hg Hf (Hr & Hgen & Hc & saved & Hfiles & Hrest).
  split; [assumption|]. split; [now rewrite Hg|]. split; [assumption|].
  exists saved. rewrite Hf. auto.
Qed.

Lemma grows_pending g g' more fuel :
  grows g g' more ->
  pending (length sk) (generated g) <= fuel ->
  pending (length sk) (generated g') <= fuel.
Proof.
  intros (_ & Hgen & _) Hp. eapply Nat.le_trans; [|exact Hp].
  apply pending_incl. intros x Hx. rewrite Hgen. apply in_or_app. auto.
Qed.

Lemma readDefinition_ok d g :
  d < length sk -> skeleton (gen_definitions g) = sk ->
  exists def,
    readDefinition d g = (Ok def, g)
    /\ nth_error sk d
       = Some (Def.name def, map Property.ref (Def.properties def)).
Proof.
  intros Hd Hs. unfold readDefinition.
  destruct (nth_error (gen_definitions g) d) as [def|] eqn:E.
  - exists def. split; [reflexivity|]. rewrite <- Hs.
    now apply skeleton_nth.
  - apply nth_error_None in E.
    rewrite <- Hs, skeleton_length in Hd. lia.
Qed.

Lemma readProperty_ok d i g entry :
  nth_error sk d = Some entry -> i < length (snd entry) ->
  skeleton (gen_definitions g) = sk ->
  exists p,
    readProperty d i g = (Ok p, g)
    /\ nth_error (snd entry) i = Some (Property.ref p).
Proof.
  intros Hentry Hi Hs.
  destruct (readDefinition_ok d g (nth_error_Some_lt _ _ _ Hentry) Hs)
    as (def & Hread & Hnth).
  rewrite Hentry in Hnth. injection Hnth as ->. cbn [snd] in *.
  unfold readProperty. rewrite (bind_eval _ _ _ _ _ Hread).
  destruct (nth_error (Def.properties def) i) as [p|] eqn:E.
  - exists p. split; [reflexivity|]. now rewrite nth_error_map, E.
  - apply nth_error_None in E. rewrite length_map in Hi. lia.
Qed.

(** What the nested call is assumed to do, at a given recursion budget. *)
Definition RecGrows (fuel : nat) (rec : DefId -> G unit) : Prop :=
  forall d g,
    ready g -> d < length sk -> ~ In d (generated g) ->
    pending (length sk) (generated g) <= fuel ->
    exists g' more, rec d g = (Ok tt, g') /\ grows g g' (d :: more).

Lemma generateProperty_grows fuel rec d entry acc i g :
  RecGrows fuel rec ->
  nth_error sk d = Some entry -> i < length (snd entry) ->
  ready g -> pending (length sk) (generated g) <= fuel ->
  exists acc' g' more,
    generateProperty camelcase options rec d acc i g = (Ok acc', g')
    /\ grows g g' more
    /\ (forall r, nth_error (snd entry) i = Some (Some r) ->
                  In r (generated g')).
Proof.
  intros Hrec Hentry Hi [Hs Hnd] Hp. unfold generateProperty.
  destruct acc as [imports props].
  pose (ga := setGenDefinitions
                (updateAt d
                   (mapProperties
                      (updateAt i (renameProperty camelcase options)))
                   (gen_definitions g)) g).
  assert (Hsa : skeleton (gen_definitions ga) = sk).
  { unfold ga. cbn [setGenDefinitions gen_definitions].
    now rewrite skeleton_rename. }
  assert (Hra : ready ga) by (split; assumption).
  rewrite (bind_eval (mutateProperty d i _) _ g tt ga eq_refl).
  destruct (readProperty_ok d i ga entry Hentry Hi Hsa) as (p & Hread & Hp').
  rewrite (bind_eval _ _ _ _ _ Hread).
  destruct p as [n sn descr ty arr | n sn descr r arr].
  - exists (imports, props ++ [createProperty n ty (VStr descr) arr]),
      ga, [].
    split; [reflexivity|].
    split; [apply (grows_from g ga); auto; now apply grows_refl|].
    intros r Hr. rewrite Hr in Hp'. discriminate.
  - cbn [Property.ref] in Hp'.
    assert (Hr : r < length sk).
    { apply (sk_closed d entry r Hentry). eapply nth_error_In. eassumption. }
    rewrite (bind_eval getGenerated _ ga (generated ga) ga eq_refl).
    assert (Hstep : exists gb more,
               (if existsb (Nat.eqb r) (generated ga)
                then ret tt else rec r) ga = (Ok tt, gb)
               /\ grows ga gb more /\ In r (generated gb)).
    { destruct (existsb (Nat.eqb r) (generated ga)) eqn:E.
      - exists ga, []. split; [reflexivity|].
        split; [now apply grows_refl | now apply includes_In].
      - apply includes_false in E.
        destruct (Hrec r ga Hra Hr E Hp) as (gb & more & Hrun & Hgrow).
        exists gb, (r :: more). split; [assumption|].
        split; [assumption|].
        destruct Hgrow as (_ & -> & _). apply in_or_app. simpl. auto. }
    destruct Hstep as (gb & more & Hrun & Hgrow & Hin).
    rewrite (bind_eval _ _ _ _ _ Hrun).
    pose proof (proj1 (proj1 Hgrow)) as Hsb.
    destruct (readDefinition_ok r gb Hr Hsb) as (refDef & Hread1 & _).
    rewrite (bind_eval _ _ _ _ _ Hread1).
    destruct (readDefinition_ok d gb (nth_error_Some_lt _ _ _ Hentry) Hsb)
      as (self & Hread2 & _).
    rewrite (bind_eval _ _ _ _ _ Hread2).
    destruct (readProperty_ok d i gb entry Hentry Hi Hsb)
      as (p & Hread3 & _).
    rewrite (bind_eval _ _ _ _ _ Hread3).
    eexists _, gb, more. split; [reflexivity|].
    split; [apply (grows_from g ga); auto|].
    intros r' Hr'. rewrite Hr' in Hp'. injection Hp' as ->. assumption.
Qed.

Lemma foldM_grows fuel rec d entry l :
  RecGrows fuel rec ->
  nth_error sk d = Some entry ->
  (forall i, In i l -> i < length (snd entry)) ->
  forall acc g,
    ready g -> pending (length sk) (generated g) <= fuel ->
    exists acc' g' more,
      foldM (generateProperty camelcase options rec d) l acc g
      = (Ok acc', g')
      /\ grows g g' more
      /\ (forall i r, In i l -> nth_error (snd entry) i = Some (Some r) ->
                      In r (generated g')).
Proof.
  intros Hrec Hentry. induction l as [|i l IH]; intros Hl acc g Hr Hp.
  - exists acc, g, []. split; [reflexivity|].
    split; [now apply grows_refl|]. intros i r [].
  - cbn [foldM].
    destruct (generateProperty_grows fuel rec d entry acc i g Hrec Hentry
                (Hl i (or_introl eq_refl)) Hr Hp)
      as (acc1 & g1 & m1 & Hrun1 & Hgrow1 & Hin1).
    rewrite (bind_eval _ _ _ _ _ Hrun1).
    destruct (IH (fun j Hj => Hl j (or_intror Hj)) acc1 g1
                (proj1 Hgrow1) (grows_pending _ _ _ _ Hgrow1 Hp))
      as (acc2 & g2 & m2 & Hrun2 & Hgrow2 & Hin2).
    exists acc2, g2, (m1 ++ m2). split; [assumption|].
    split; [eapply grows_trans; eassumption|].
    intros j r [<-|Hj] Hnth; [|eauto].
    destruct Hgrow2 as (_ & -> & _). apply in_or_app. left. auto.
Qed.

Lemma generateDefinitionFile_grows fuel :
  RecGrows fuel (generateDefinitionFile camelcase options fuel).
Proof.
  induction fuel as [|fuel IH]; intros d g [Hs Hnd] Hd Hnot Hp.
  - pose proof (pending_push (length sk) (generated g) d Hd Hnot) as H.
    apply Nat.le_0_r in Hp. rewrite Hp in H. inversion H.
  - destruct (readDefinition_ok d g Hd Hs) as (def & Hread & Hentry).
    cbn [generateDefinitionFile].
    rewrite (bind_eval _ _ _ _ _ Hread). cbv zeta.
    pose (g1 := {| gen_definitions := gen_definitions g;
                   generated := generated g ++ [d];
                   files := files g |}).
    rewrite (bind_eval (pushGenerated d) _ g tt g1 eq_refl).
    assert (Hr1 : ready g1).
    { split; [exact Hs|]. unfold g1. cbn [generated].
      apply NoDup_app; [assumption | repeat constructor; intros [] |].
      intros x Hx [<-|[]]. contradiction. }
    assert (Hp1 : pending (length sk) (generated g1) <= fuel).
    { pose proof (pending_push (length sk) (generated g) d Hd Hnot).
      unfold g1. cbn [generated]. apply Nat.lt_succ_r.
      eapply Nat.lt_le_trans; [exact H | exact Hp]. }
    destruct (foldM_grows fuel _ d _ (seq 0 (length (Def.properties def)))
                IH Hentry
                ltac:(intros i Hi; apply in_seq in Hi; cbn [snd];
                      rewrite length_map; lia)
                ([], []) g1 Hr1 Hp1)
      as ([imports props] & g2 & more & Hrun & Hgrow & Hrefs).
    rewrite (bind_eval _ _ _ _ _ Hrun).
    destruct Hgrow as ([Hs2 Hnd2] & Hgen & Hclosed & saved & Hfiles & Hlen
                       & Hnames).
    destruct (readDefinition_ok d g2 Hd Hs2) as (def2 & Hread2 & _).
    rewrite (bind_eval _ _ _ _ _ Hread2).
    unfold saveFile. eexists _, more. split; [reflexivity|].
    unfold g1 in Hgen, Hfiles. cbn [generated files] in Hgen, Hfiles.
    split; [split; assumption|]. cbn [generated files gen_definitions].
    split; [now rewrite Hgen, <- app_assoc|].
    split.
    + intros x entry r [<-|Hx] Hx' Hr; [|eauto].
      rewrite Hentry in Hx'. injection Hx' as <-.
      apply In_nth_error in Hr as [i Hi].
      apply (Hrefs i r); [|exact Hi].
      apply in_seq. apply nth_error_Some_lt in Hi. cbn [snd] in Hi.
      rewrite length_map in Hi. lia.
    + eexists (saved ++ [_]). split; [now rewrite Hfiles, app_assoc|].
      split; [rewrite length_app; simpl; lia|].
      intros x entry Hx Hx'. rewrite map_app. apply in_or_app.
      destruct Hx as [<-|Hx]; [|eauto].
      rewrite Hentry in Hx'. injection Hx' as <-. right. simpl. auto.
Qed.

End GeneratorTotal.

Lemma refsBelow_skeleton defs :
  (forall def p r,
     In def defs -> In p (Def.properties def) ->
     Property.ref p = Some r -> r < length defs) ->
  refsBelow (skeleton defs).
Proof.
  intros H d entry r Hnth Hin. rewrite skeleton_length.
  unfold skeleton in Hnth. rewrite nth_error_map in Hnth.
  destruct (nth_error defs d) as [def|] eqn:E; [|discriminate].
  injection Hnth as <-. cbn [snd] in Hin.
  apply in_map_iff in Hin as (p & Hp & Hin).
  apply (H def p r); auto. eapply nth_error_In. eassumption.
Qed.

(** The Definitions generated from [g] to [g'], read on the Definitions
    themselves: [g'] has the same names and [ref]s, [generated] grew by
    [more] and has no Definition twice, one file was saved for each
    Definition of [more] and one of them under its name, and whatever a
    property of a Definition of [more] refers to is generated. *)
Definition generatedFrom (g g' : GenState) (more : list DefId) : Prop :=
  skeleton (gen_definitions g') = skeleton (gen_definitions g)
  /\ generated g' = generated g ++ more
  /\ NoDup (generated g')
  /\ (forall x def p r,
        In x more -> nth_error (gen_definitions g) x = Some def ->
        In p (Def.properties def) -> Property.ref p = Some r ->
        In r (generated g'))
  /\ exists saved,
       files g' = files g ++ saved
       /\ length saved = length more
       /\ forall x def,
            In x more -> nth_error (gen_definitions g) x = Some def ->
            In (Def.name def) (map file_name saved).

Lemma grows_generatedFrom g g' more :
  grows (skeleton (gen_definitions g)) g g' more ->
  generatedFrom g g' more.
Proof.
  intros ([Hs Hnd] & Hgen & Hclosed & saved & Hfiles & Hlen & Hnames).
  split; [assumption|]. split; [assumption|]. split; [assumption|].
  split.
  - intros x def p r Hx Hnth Hp Hr.
    apply (Hclosed x _ r Hx (skeleton_nth _ _ _ Hnth)). cbn [snd].
    rewrite <- Hr. now apply in_map.
  - exists saved. split; [assumption|]. split; [assumption|].
    intros x def Hx Hnth.
    exact (Hnames x _ Hx (skeleton_nth _ _ _ Hnth)).
Qed.

(** X11: a call of [generateDefinitionFile] on a Definition not generated
    yet returns, when every [ref] of the model is a Definition of the
    model, no Definition is twice in [generated] and the recursion budget
    covers the Definitions not generated yet.  It then has generated the
    Definition first and after it only Definitions that were missing,
    saved one file for each, and left every Definition its new files
    import generated. *)
Theorem generateDefinitionFile_total camelcase options fuel d g :
  refsBelow (skeleton (gen_definitions g)) ->
  NoDup (generated g) ->
  d < length (gen_definitions g) ->
  ~ In d (generated g) ->
  pending (length (gen_definitions g)) (generated g) <= fuel ->
  exists g' more,
    generateDefinitionFile camelcase options fuel d g = (Ok tt, g')
    /\ generatedFrom g g' (d :: more).
Proof.
  intros Hsk Hnd Hd Hnot Hp.
  rewrite <- skeleton_length in Hd, Hp.
  destruct (generateDefinitionFile_grows camelcase options _ Hsk fuel d g
              (conj eq_refl Hnd) Hd Hnot Hp) as (g' & more & Hrun & Hgrow).
  exists g', more. split; [assumption|]. now apply grows_generatedFrom.
Qed.

Section GeneratorRuns.

Variable camelcase : string -> bool -> string.
Variable options : GeneratorOptions.
Variable sk : list (string * list (option DefId)).
Hypothesis sk_closed : refsBelow sk.
Variable fuel : nat.
Hypothesis enough : length sk <= fuel.

(** A property of [generated] that stays true when it grows. *)
Definition stable (Q : list DefId -> Prop) : Prop :=
  forall gen more, Q gen -> Q (gen ++ more).

(** [m] returns from every ready store, and [Q] holds of [generated]. *)
Definition runs (m : G unit) (Q : list DefId -> Prop) : Prop :=
  forall g,
    ready sk g ->
    exists g' more,
      m g = (Ok tt, g') /\ grows sk g g' more /\ Q (generated g').

Lemma runs_seq m1 m2 (Q1 Q2 : list DefId -> Prop) :
  stable Q1 -> runs m1 Q1 -> runs m2 Q2 ->
  runs (m1 ;; m2) (fun gen => Q1 gen /\ Q2 gen).
Proof.
  intros Hst H1 H2 g Hr.
  destruct (H1 g Hr) as (g1 & more1 & Hrun1 & Hgrow1 & HQ1).
  destruct (H2 g1 (proj1 Hgrow1)) as (g2 & more2 & Hrun2 & Hgrow2 & HQ2).
  exists g2, (more1 ++ more2). rewrite (bind_eval _ _ _ _ _ Hrun1).
  split; [assumption|]. split; [eapply grows_trans; eassumption|].
  split; [|assumption].
  destruct Hgrow2 as (_ & -> & _). now apply Hst.
Qed.

Lemma runs_forEach {A} (f : A -> G unit) (Q : A -> list DefId -> Prop) l :
  (forall x, stable (Q x)) ->
  (forall x, In x l -> runs (f x) (Q x)) ->
  runs (forEach f l) (fun gen => forall x, In x l -> Q x gen).
Proof.
  intros Hst. induction l as [|x l IH]; intros Hf; cbn [forEach].
  - intros g Hr. exists g, []. split; [reflexivity|].
    split; [now apply grows_refl|]. intros x [].
  - intros g Hr.
    destruct (runs_seq (f x) (forEach f l) (Q x) _ (Hst x)
                (Hf x (or_introl eq_refl))
                (IH (fun y Hy => Hf y (or_intror Hy))) g Hr)
      as (g' & more & Hrun & Hgrow & Hx & Hl).
    exists g', more. split; [assumption|]. split; [assumption|].
    intros y [<-|Hy]; auto.
Qed.

(** A role of a method has its Definition generated. *)
Definition roleDone (role : option DefId) (gen : list DefId) : Prop :=
  forall d, role = Some d -> In d gen.

Definition methodDone (m : Method.t) (gen : list DefId) : Prop :=
  roleDone (Method.paramDefinition m) gen
  /\ roleDone (Method.returnDefinition m) gen
  /\ roleDone (Method.inputHeaderDefinition m) gen
  /\ roleDone (Method.outputHeaderDefinition m) gen
  /\ roleDone (Method.faultDefinition m) gen.

Lemma roleDone_stable role : stable (roleDone role).
Proof. intros gen more H d Hd. apply in_or_app. left. auto. Qed.

Lemma generateRole_runs role :
  validRole role (length sk) ->
  runs (generateRole camelcase options fuel role) (roleDone role).
Proof.
  intros Hv g Hr. destruct role as [d|]; cbn [generateRole].
  - rewrite (bind_eval getGenerated _ g (generated g) g eq_refl).
    destruct (existsb (Nat.eqb d) (generated g)) eqn:E.
    + exists g, []. split; [reflexivity|].
      split; [now apply grows_refl|].
      intros d' [= <-]. now apply includes_In.
    + apply includes_false in E.
      destruct (generateDefinitionFile_grows camelcase options sk
                  sk_closed fuel d g Hr (Hv d eq_refl) E
                  (Nat.le_trans _ _ _ (pending_le _ _) enough))
        as (g' & more & Hrun & Hgrow).
      exists g', (d :: more). split; [assumption|]. split; [assumption|].
      intros d' [= <-]. destruct Hgrow as (_ & -> & _).
      apply in_or_app. simpl. auto.
  - exists g, []. split; [reflexivity|]. split; [now apply grows_refl|].
    intros d H. discriminate.
Qed.

Lemma generateMethod_runs m :
  validMethod m (length sk) ->
  runs (generateMethod camelcase options fuel m) (methodDone m).
Proof.
  intros (H1 & H2 & H3 & H4 & H5). unfold generateMethod, methodDone.
  repeat (apply runs_seq;
          [apply roleDone_stable | now apply generateRole_runs |]).
  now apply generateRole_runs.
Qed.

Lemma methodDone_stable m : stable (methodDone m).
Proof.
  intros gen more (H1 & H2 & H3 & H4 & H5).
  repeat split; now apply roleDone_stable.
Qed.

Lemma generate_runs (services : list Service.t) ports :
  Forall (fun p => validPort p (length sk)) ports ->
  runs (forEach
          (fun _ : Service.t =>
             forEach
               (fun port =>
                  forEach (generateMethod camelcase options fuel)
                          (Port.methods port))
               ports)
          services)
       (fun gen =>
          forall sv, In sv services ->
          forall port, In port ports ->
          forall m, In m (Port.methods port) -> methodDone m gen).
Proof.
  intros Hports.
  apply (runs_forEach _
           (fun (_ : Service.t) gen =>
              forall port, In port ports ->
              forall m, In m (Port.methods port) -> methodDone m gen)).
  { intros u gen more H port Hp m Hm. apply methodDone_stable.
    exact (H port Hp m Hm). }
  intros sv Hsv.
  apply (runs_forEach _
           (fun port gen =>
              forall m, In m (Port.methods port) -> methodDone m gen)).
  { intros port gen more H m Hm. apply methodDone_stable. exact (H m Hm). }
  intros port Hp.
  apply (runs_forEach _ methodDone); [apply methodDone_stable|].
  intros m Hm. apply generateMethod_runs.
  rewrite Forall_forall in Hports. specialize (Hports port Hp).
  unfold validPort in Hports. rewrite Forall_forall in Hports. auto.
Qed.

End GeneratorRuns.

(** The store [generate] starts from. *)
Definition initial (parsedWsdl : ParsedWsdl) : GenState :=
  {| gen_definitions := pw_definitions parsedWsdl;
     generated := [];
     files := [] |}.

(** X12: [generate] returns on every parsed model without dangling
    Definitions, given a recursion budget of the number of Definitions.
    Then no Definition was generated twice, one file was saved for each
    generated Definition and one of them under its name, the Definitions
    of all five roles of every method of [ports] are generated (when there
    is a service) and so is whatever a property of a generated Definition
    refers to: no definition file imports a file that was not written. *)
Theorem generate_total camelcase options fuel pw :
  validModel pw ->
  length (pw_definitions pw) <= fuel ->
  exists g',
    generate camelcase options fuel pw = (Ok tt, g')
    /\ generatedFrom (initial pw) g' (generated g')
    /\ (forall sv port m,
          In sv (pw_services pw) -> In port (pw_ports pw) ->
          In m (Port.methods port) ->
          methodDone m (generated g')).
Proof.
  intros (_ & Hports & Hrefs) Hfuel.
  pose proof (refsBelow_skeleton _ Hrefs) as Hsk.
  rewrite <- skeleton_length in Hfuel, Hports.
  destruct (generate_runs camelcase options _ Hsk fuel Hfuel
              (pw_services pw) (pw_ports pw) Hports (initial pw)
              (conj eq_refl (NoDup_nil _)))
    as (g' & more & Hrun & Hgrow & Hdone).
  exists g'. split; [exact Hrun|].
  assert (Hmore : generated g' = more) by (now destruct Hgrow as (_ & -> & _)).
  split; [|eauto].
  rewrite Hmore. now apply grows_generatedFrom.
Qed.

(** X13: the two stages compose.  When the registry's lookup only answers
    Definitions of the collection, whatever [parseWsdl] returns is a model
    [generate] returns on, with a recursion budget of the number of
    Definitions; one file is saved for each generated Definition, and none
    is generated twice. *)
Theorem parse_then_generate changeCase findNonCollisionDefinitionName
    findDefinition reservedKeywords heap wsdl parserOptions fuel
    camelcase options pw s :
  (forall defs name d,
     findDefinition defs name = Some d -> d < length defs) ->
  parseWsdl changeCase findNonCollisionDefinitionName findDefinition
    reservedKeywords heap wsdl parserOptions fuel = (Ok pw, s) ->
  exists g',
    generate camelcase options (length (pw_definitions pw)) pw = (Ok tt, g')
    /\ length (files g') = length (generated g')
    /\ NoDup (generated g').
Proof.
  intros Hfd Hrun.
  destruct (parseWsdl_services _ _ _ _ _ _ _ _ Hfd _ _ Hrun)
    as ([_ Hrefs] & Hdefs & Hports & Hall).
  rewrite <- Hdefs in Hrefs, Hall.
  apply validPorts_flat_map in Hall. rewrite <- Hports in Hall.
  pose proof (refsBelow_skeleton _ Hrefs) as Hsk.
  rewrite <- skeleton_length in Hall.
  destruct (generate_runs camelcase options _ Hsk
              (length (pw_definitions pw))
              ltac:(rewrite skeleton_length; apply Nat.le_refl)
              (pw_services pw) (pw_ports pw) Hall (initial pw)
              (conj eq_refl (NoDup_nil _)))
    as (g' & more & Hgen & ([_ Hnd] & Hmore & _ & saved & Hfiles & Hlen & _)
        & _).
  exists g'. split; [exact Hgen|]. split; [|exact Hnd].
  rewrite Hfiles, Hmore. exact Hlen.
Qed.

(** ** The imports of a definition file *)

Lemma specifier_In imports sp :
  existsb (fun imp => String.eqb (moduleSpecifier imp) sp) imports = true
  <-> In sp (map moduleSpecifier imports).
Proof.
  rewrite existsb_exists, in_map_iff. split.
  - intros (imp & Hin & Heq). apply String.eqb_eq in Heq. eauto.
  - intros (imp & Heq & Hin). exists imp. split; [assumption|].
    now apply String.eqb_eq.
Qed.

Lemma addSafeImport_inv imports sp n imp :
  In imp (addSafeImport imports sp n) ->
  In imp imports \/ imp = {| moduleSpecifier := sp; namedImport := n |}.
Proof.
  unfold addSafeImport. destruct (existsb _ _); [auto|].
  intros H. apply in_app_or in H as [H|[<-|[]]]; auto.
Qed.

Lemma addSafeImport_incl imports sp n imp :
  In imp imports -> In imp (addSafeImport imports sp n).
Proof.
  unfold addSafeImport. destruct (existsb _ _); [auto|].
  intros H. apply in_or_app. auto.
Qed.

Lemma addSafeImport_In imports sp n :
  In sp (map moduleSpecifier (addSafeImport imports sp n)).
Proof.
  unfold addSafeImport.
  destruct (existsb _ _) eqn:E; [now apply specifier_In|].
  rewrite map_app. apply in_or_app. simpl. auto.
Qed.

Lemma addSafeImport_NoDup imports sp n :
  NoDup (map moduleSpecifier imports) ->
  NoDup (map moduleSpecifier (addSafeImport imports sp n)).
Proof.
  intros Hnd. unfold addSafeImport.
  destruct (existsb _ _) eqn:E; [assumption|].
  rewrite map_app. apply NoDup_app; [assumption | |].
  - simpl. repeat constructor. intros [].
  - intros x Hx [<-|[]]. apply specifier_In in Hx.
    cbn [moduleSpecifier] in Hx. rewrite Hx in E. discriminate.
Qed.

(** X14: [addSafeImport] keeps the imports that are there, in their order,
    and adds at most one, at the end; afterwards the module is imported;
    module specifiers that were pairwise different stay so; a second call
    for the same module changes nothing, whatever name it asks for. *)
Theorem addSafeImport_safe imports sp n n' :
  let imports' := addSafeImport imports sp n in
  (exists added, imports' = imports ++ added /\ length added <= 1)
  /\ In sp (map moduleSpecifier imports')
  /\ (NoDup (map moduleSpecifier imports) ->
      NoDup (map moduleSpecifier imports'))
  /\ addSafeImport imports' sp n' = imports'.
Proof.
  intros imports'. split; [|split; [|split]].
  - subst imports'. unfold addSafeImport. destruct (existsb _ _).
    + exists []. split; [now rewrite app_nil_r | simpl; lia].
    + eexists. split; [reflexivity|]. simpl. lia.
  - apply addSafeImport_In.
  - apply addSafeImport_NoDup.
  - pose proof (addSafeImport_In imports sp n) as H. fold imports' in H.
    apply specifier_In in H. unfold addSafeImport at 1. now rewrite H.
Qed.

Lemma readDefinition_inv d g def g' :
  readDefinition d g = (Ok def, g') ->
  g' = g /\ nth_error (gen_definitions g) d = Some def.
Proof.
  unfold readDefinition.
  destruct (nth_error (gen_definitions g) d); [|discriminate].
  intros [= <- <-]. auto.
Qed.

Lemma readProperty_inv d i g p g' :
  readProperty d i g = (Ok p, g') ->
  g' = g
  /\ exists def,
       nth_error (gen_definitions g) d = Some def
       /\ nth_error (Def.properties def) i = Some p.
Proof.
  unfold readProperty. intros H.
  apply bind_Ok in H as (def & g1 & Hread & H).
  apply readDefinition_inv in Hread as [-> Hnth].
  destruct (nth_error (Def.properties def) i) as [q|] eqn:E;
    [|discriminate].
  injection H as <- <-. eauto.
Qed.

Definition sameSkeleton (a b : list Def.t) : Prop := skeleton a = skeleton b.

Section DefinitionFile.

Variable camelcase : string -> bool -> string.
Variable options : GeneratorOptions.

Lemma sameSkeleton_generateDefinitionFile fuel d :
  keeps sameSkeleton (generateDefinitionFile camelcase options fuel d).
Proof.
  apply keeps_generateDefinitionFile.
  - reflexivity.
  - intros a b c Hab Hbc. unfold sameSkeleton in *. congruence.
  - intros defs x i. unfold sameSkeleton. symmetry. apply skeleton_rename.
Qed.

(** The Definitions as generation reads them, and the Definition whose
    file is being built. *)
Variable sk : list (string * list (option DefId)).
Variable definition : DefId.
Variable selfName : string.
Variable refs : list (option DefId).
Hypothesis self_entry : nth_error sk definition = Some (selfName, refs).

(** The imports collected so far are right: no module twice, each the
    module of the name it imports, none the file's own, each the name of a
    Definition a property refers to. *)
Definition importsRight (imports : list ImportDeclaration) : Prop :=
  NoDup (map moduleSpecifier imports)
  /\ forall imp,
       In imp imports ->
       moduleSpecifier imp = ("./" ++ namedImport imp)%string
       /\ namedImport imp <> selfName
       /\ exists r entry,
            In (Some r) refs /\ nth_error sk r = Some entry
            /\ namedImport imp = fst entry.

(** The Definition the [i]-th property refers to, unless it has the
    file's own name, is imported. *)
Definition imported (imports : list ImportDeclaration) (i : nat) : Prop :=
  forall r entry,
    nth_error refs i = Some (Some r) -> nth_error sk r = Some entry ->
    fst entry <> selfName ->
    In ("./" ++ fst entry)%string (map moduleSpecifier imports).

Lemma generateProperty_file rec acc i g acc' g' :
  (forall x, keeps sameSkeleton (rec x)) ->
  skeleton (gen_definitions g) = sk ->
  generateProperty camelcase options rec definition acc i g
  = (Ok acc', g') ->
  skeleton (gen_definitions g') = sk
  /\ length (snd acc') = S (length (snd acc))
  /\ (importsRight (fst acc) -> importsRight (fst acc'))
  /\ (forall sp, In sp (map moduleSpecifier (fst acc)) ->
                 In sp (map moduleSpecifier (fst acc')))
  /\ imported (fst acc') i.
Proof.
  intros Hrec Hs Hrun.
  assert (Hs' : skeleton (gen_definitions g') = sk).
  { pose proof (keeps_generateProperty camelcase options sameSkeleton
                  ltac:(reflexivity)
                  ltac:(unfold sameSkeleton; congruence)
                  ltac:(intros; unfold sameSkeleton; symmetry;
                        apply skeleton_rename)
                  rec definition acc i Hrec g) as H.
    rewrite Hrun in H. unfold sameSkeleton in H. cbn [snd] in H. congruence. }
  split; [assumption|].
  unfold generateProperty in Hrun. destruct acc as [imports props].
  apply bind_Ok in Hrun as (u & ga & Hmut & Hrun).
  unfold mutateProperty in Hmut. injection Hmut as _ Hga.
  assert (Hsa : skeleton (gen_definitions ga) = sk).
  { subst ga. cbn [setGenDefinitions gen_definitions].
    now rewrite skeleton_rename. }
  clear Hga.
  apply bind_Ok in Hrun as (p & ga' & Hread & Hrun).
  apply readProperty_inv in Hread as [-> (def & Hdef & Hp)].
  assert (Hnth : nth_error refs i = Some (Property.ref p)).
  { apply skeleton_nth in Hdef. rewrite Hsa, self_entry in Hdef.
    injection Hdef as _ ->. now rewrite nth_error_map, Hp. }
  destruct p as [n sn descr ty arr | n sn descr r arr].
  - injection Hrun as <- _. cbn [fst snd].
    split; [rewrite length_app; simpl; lia|].
    split; [auto|]. split; [auto|].
    intros r entry Hr. rewrite Hr in Hnth. discriminate.
  - cbn [Property.ref] in Hnth.
    apply bind_Ok in Hrun as (gen & g2 & Hgen & Hrun).
    unfold getGenerated in Hgen. injection Hgen as _ <-.
    apply bind_Ok in Hrun as (u' & gb & Hstep & Hrun).
    assert (Hsb : skeleton (gen_definitions gb) = sk).
    { destruct (existsb (Nat.eqb r) gen).
      - injection Hstep as _ <-. assumption.
      - pose proof (Hrec r ga) as H. rewrite Hstep in H.
        unfold sameSkeleton in H. cbn [snd] in H. congruence. }
    apply bind_Ok in Hrun as (refDef & g3 & Hread1 & Hrun).
    apply readDefinition_inv in Hread1 as [-> Href].
    apply bind_Ok in Hrun as (self & g3 & Hread2 & Hrun).
    apply readDefinition_inv in Hread2 as [-> Hself].
    apply bind_Ok in Hrun as (p' & g3 & Hread3 & Hrun).
    apply readProperty_inv in Hread3 as [-> _].
    injection Hrun as <- _. cbn [fst snd].
    apply skeleton_nth in Href, Hself. rewrite Hsb in Href, Hself.
    rewrite self_entry in Hself. injection Hself as Hname _.
    split; [rewrite length_app; simpl; lia|].
    destruct (String.eqb (Def.name refDef) (Def.name self)) eqn:E.
    + split; [auto|]. split; [auto|].
      intros r' entry Hr' Hentry Hne. rewrite Hnth in Hr'.
      injection Hr' as <-. rewrite Href in Hentry. injection Hentry as <-.
      apply String.eqb_eq in E. cbn [fst] in Hne. congruence.
    + apply String.eqb_neq in E. split; [|split].
      * intros [Hnd Himp]. split; [now apply addSafeImport_NoDup|].
        intros imp Hin.
        apply addSafeImport_inv in Hin as [Hin| ->]; [auto|].
        cbn [moduleSpecifier namedImport].
        split; [reflexivity|]. split; [congruence|].
        exists r, (Def.name refDef, map Property.ref (Def.properties refDef)).
        split; [eapply nth_error_In; eassumption|]. auto.
      * intros sp Hin. apply in_map_iff in Hin as (imp & <- & Hin).
        apply in_map. now apply addSafeImport_incl.
      * intros r' entry Hr' Hentry Hne. rewrite Hnth in Hr'.
        injection Hr' as <-. rewrite Href in Hentry. injection Hentry as <-.
        apply addSafeImport_In.
Qed.

Lemma foldM_file rec l :
  (forall x, keeps sameSkeleton (rec x)) ->
  forall acc g acc' g',
    skeleton (gen_definitions g) = sk ->
    foldM (generateProperty camelcase options rec definition) l acc g
    = (Ok acc', g') ->
    skeleton (gen_definitions g') = sk
    /\ length (snd acc') = length (snd acc) + length l
    /\ (importsRight (fst acc) -> importsRight (fst acc'))
    /\ (forall sp, In sp (map moduleSpecifier (fst acc)) ->
                   In sp (map moduleSpecifier (fst acc')))
    /\ (forall i, In i l -> imported (fst acc') i).
Proof.
  intros Hrec. induction l as [|i l IH]; intros acc g acc' g' Hs Hrun;
    cbn [foldM] in Hrun.
  - injection Hrun as <- <-. split; [assumption|].
    split; [simpl; lia|]. split; [auto|]. split; [auto|]. intros i [].
  - apply bind_Ok in Hrun as (acc1 & g1 & Hstep & Hrun).
    destruct (generateProperty_file rec acc i g acc1 g1 Hrec Hs Hstep)
      as (Hs1 & Hlen1 & Hright1 & Hkeep1 & Himp1).
    destruct (IH acc1 g1 acc' g' Hs1 Hrun)
      as (Hs2 & Hlen2 & Hright2 & Hkeep2 & Himp2).
    split; [assumption|]. split; [simpl; lia|]. split; [auto|].
    split; [auto|].
    intros j [<-|Hj]; [|auto].
    intros r entry Hr Hentry Hne. apply Hkeep2. eapply Himp1; eassumption.
Qed.

End DefinitionFile.

(** The index signature that closes every generated interface. *)
Definition indexSignature : PropertySignature :=
  {| sig_name := "[arg: string]";
     sig_doc := VStr "Hold additional properties";
     sig_type := TsType "any" |}.

(** X15: the file a call of [generateDefinitionFile] saves, when the call
    returns, is the last file saved; it has the name the Definition had at
    the call, one signature for each property and the index signature
    after them.  It imports no module twice and never the file's own
    name; every import is the module ["./" ++ name] of a Definition one
    of the properties refers to, and every Definition a property refers
    to is imported unless it has the file's own name. *)
Theorem generateDefinitionFile_file camelcase options fuel d g g' :
  generateDefinitionFile camelcase options fuel d g = (Ok tt, g') ->
  exists def earlier f,
    nth_error (gen_definitions g) d = Some def
    /\ files g' = earlier ++ [f]
    /\ file_name f = Def.name def
    /\ (exists signatures,
          file_properties f = signatures ++ [indexSignature]
          /\ length signatures = length (Def.properties def))
    /\ NoDup (map moduleSpecifier (file_imports f))
    /\ (forall imp,
          In imp (file_imports f) ->
          moduleSpecifier imp = ("./" ++ namedImport imp)%string
          /\ namedImport imp <> Def.name def
          /\ exists p r refDef,
               In p (Def.properties def) /\ Property.ref p = Some r
               /\ nth_error (gen_definitions g) r = Some refDef
               /\ namedImport imp = Def.name refDef)
    /\ (forall p r refDef,
          In p (Def.properties def) -> Property.ref p = Some r ->
          nth_error (gen_definitions g) r = Some refDef ->
          Def.name refDef <> Def.name def ->
          In ("./" ++ Def.name refDef)%string
             (map moduleSpecifier (file_imports f))).
Proof.
  destruct fuel as [|fuel]; [discriminate|].
  cbn [generateDefinitionFile]. intros Hrun.
  apply bind_Ok in Hrun as (def & g0 & Hread & Hrun).
  apply readDefinition_inv in Hread as [-> Hdef]. cbv zeta in Hrun.
  apply bind_Ok in Hrun as (u & g1 & Hpush & Hrun).
  unfold pushGenerated in Hpush. injection Hpush as _ Hg1.
  assert (Hs1 : skeleton (gen_definitions g1)
                = skeleton (gen_definitions g)) by (now subst g1).
  clear Hg1.
  apply bind_Ok in Hrun as ([imports props] & g2 & Hloop & Hrun).
  apply bind_Ok in Hrun as (def2 & g3 & Hread2 & Hrun).
  apply readDefinition_inv in Hread2 as [-> _].
  unfold saveFile in Hrun. injection Hrun as <-.
  pose proof (skeleton_nth _ _ _ Hdef) as Hentry.
  destruct (foldM_file camelcase options (skeleton (gen_definitions g)) d
              (Def.name def) (map Property.ref (Def.properties def)) Hentry
              (generateDefinitionFile camelcase options fuel)
              (seq 0 (length (Def.properties def)))
              (sameSkeleton_generateDefinitionFile camelcase options fuel)
              ([], []) g1 (imports, props) g2 Hs1 Hloop)
    as (_ & Hlen & Hright & _ & Himported).
  cbn [fst snd] in *. rewrite length_seq in Hlen.
  destruct Hright as [Hnd Himports].
  { split; [constructor | intros imp []]. }
  eexists def, (files g2), _. split; [assumption|].
  cbn [files]. split; [reflexivity|].
  cbn [file_name file_properties file_imports].
  split; [reflexivity|]. split; [exists props; auto|].
  split; [assumption|]. split.
  - intros imp Hin.
    destruct (Himports imp Hin) as (Hmod & Hne & r & entry & Hr & Hent & Hn).
    split; [assumption|]. split; [assumption|].
    apply in_map_iff in Hr as (p & Hp & Hin').
    unfold skeleton in Hent. rewrite nth_error_map in Hent.
    destruct (nth_error (gen_definitions g) r) as [refDef|] eqn:E;
      [|discriminate].
    injection Hent as <-. exists p, r, refDef. auto.
  - intros p r refDef Hp Hr Href Hne.
    apply In_nth_error in Hp as [i Hi].
    assert (Hin : In i (seq 0 (length (Def.properties def)))).
    { apply in_seq. apply nth_error_Some_lt in Hi. lia. }
    assert (Hnth : nth_error (map Property.ref (Def.properties def)) i
                   = Some (Some r)).
    { rewrite nth_error_map, Hi. simpl. now rewrite Hr. }
    exact (Himported i Hin r _ Hnth (skeleton_nth _ _ _ Href) Hne).
Qed.

(** ** Property names in the generated interfaces *)

Lemma includes_char c s : includes (String c "") s = hasChar c s.
Proof.
  induction s as [|c' s IH]; [reflexivity|].
  cbn [includes hasChar String.prefix]. rewrite IH.
  destruct (ascii_dec c c') as [->|Hne].
  - rewrite Ascii.eqb_refl. now destruct s.
  - assert (E : Ascii.eqb c' c = false).
    { apply Ascii.eqb_neq. congruence. }
    now rewrite E.
Qed.

Lemma length_append (a b : string) :
  String.length (a ++ b)%string = String.length a + String.length b.
Proof. induction a as [|c a IH]; simpl; [reflexivity|]. now rewrite IH. Qed.

Lemma hasChar_append c (a b : string) :
  hasChar c (a ++ b)%string = hasChar c a || hasChar c b.
Proof.
  induction a as [|c' a IH]; simpl; [reflexivity|].
  now rewrite IH, orb_assoc.
Qed.

(** X16: [sanitizePropName] wraps a name in double quotes exactly when it
    holds a space, a dash or a dot, and gives it back as it is otherwise.
    A name it quoted still holds that character: sanitizing twice quotes
    twice. *)
Theorem sanitizePropName_quotes propName :
  let special :=
    hasChar " " propName || hasChar "-" propName || hasChar "." propName in
  sanitizePropName propName
  = (if special then (doubleQuote ++ propName ++ doubleQuote)%string
     else propName)
  /\ (sanitizePropName propName = propName <-> special = false)
  /\ (special = true ->
      sanitizePropName (sanitizePropName propName)
      = (doubleQuote ++ sanitizePropName propName ++ doubleQuote)%string).
Proof.
  intros special.
  assert (Hsan : forall n,
             sanitizePropName n
             = if hasChar " " n || hasChar "-" n || hasChar "." n
               then (doubleQuote ++ n ++ doubleQuote)%string else n).
  { intros n. unfold sanitizePropName, incorrectPropNameChars.
    cbn [existsb]. rewrite !includes_char, orb_false_r, orb_assoc.
    reflexivity. }
  assert (Hquote : forall c a,
             hasChar c a = true ->
             hasChar c (doubleQuote ++ a ++ doubleQuote)%string = true).
  { intros c a H. rewrite !hasChar_append, H.
    now rewrite orb_true_r. }
  split; [apply Hsan|]. split.
  - rewrite Hsan. fold special. destruct special.
    + split; [|discriminate].
      intros H. apply (f_equal String.length) in H.
      rewrite !length_append in H. unfold doubleQuote in H. simpl in H. lia.
    + split; reflexivity.
  - intros Hs. rewrite (Hsan (sanitizePropName propName)).
    rewrite (Hsan propName). fold special. rewrite Hs.
    assert (Hstill :
              hasChar " " (doubleQuote ++ propName ++ doubleQuote)%string
              || hasChar "-" (doubleQuote ++ propName ++ doubleQuote)%string
              || hasChar "." (doubleQuote ++ propName ++ doubleQuote)%string
              = true).
    { unfold special in Hs. apply orb_true_iff in Hs as [Hs|Hs];
        [apply orb_true_iff in Hs as [Hs|Hs]|];
        rewrite (Hquote _ _ Hs), ?orb_true_r; reflexivity. }
    now rewrite Hstill.
Qed.

(** ** What generation computes *)

Lemma upTo_step {A} (f : A -> A) a ps :
  updateAt a f (map f (firstn a ps) ++ skipn a ps)
  = map f (firstn (S a) ps) ++ skipn (S a) ps.
Proof.
  revert a. induction ps as [|x ps IH]; intros [|a]; simpl; try reflexivity.
  f_equal. apply IH.
Qed.

Lemma upTo_nth {A} (f : A -> A) a ps p :
  nth_error (map f (firstn (S a) ps) ++ skipn (S a) ps) a = Some p ->
  exists p0,
    nth_error ps a = Some p0 /\ p = f p0
    /\ firstn (S a) ps = firstn a ps ++ [p0].
Proof.
  revert a. induction ps as [|x ps IH]; intros [|a]; simpl;
    try discriminate.
  - intros [= <-]. exists x. auto.
  - intros H. destruct (IH a H) as (p0 & Hp0 & -> & Hfirst).
    exists p0. split; [assumption|]. split; [reflexivity|].
    simpl in Hfirst. now rewrite Hfirst.
Qed.

Lemma Forall2_impl_In {A B} (R R' : A -> B -> Prop) l l' :
  Forall2 R l l' ->
  (forall x y, In x l -> R x y -> R' x y) ->
  Forall2 R' l l'.
Proof.
  induction 1 as [|x y l l' Hxy _ IH]; intros Himp; constructor.
  - apply Himp; simpl; auto.
  - apply IH. intros x' y' Hin. apply Himp. simpl. auto.
Qed.

Lemma option_map_id {A} (f : A -> A) (o : option A) :
  (forall x, f x = x) -> option_map f o = o.
Proof. intros H. destruct o; simpl; [now rewrite H | reflexivity]. Qed.

(** [generated.includes(y)]. *)
Definition mem (y : DefId) (l : list DefId) : bool :=
  existsb (Nat.eqb y) l.

Lemma mem_In y l : mem y l = true <-> In y l.
Proof. apply includes_In. Qed.

Lemma mem_false y l : mem y l = false <-> ~ In y l.
Proof. apply includes_false. Qed.

Lemma mem_app y l1 l2 : mem y (l1 ++ l2) = mem y l1 || mem y l2.
Proof. apply existsb_app. Qed.

Section GeneratorFunction.

Variable camelcase : string -> bool -> string.
Variable options : GeneratorOptions.

Local Abbreviation rename := (renameProperty camelcase options).

(** A Definition after generation: every property renamed, once. *)
Definition renameAll (def : Def.t) : Def.t := mapProperties (map rename) def.

(** A Definition while its file is built: the first [a] properties are
    renamed. *)
Definition renameUpTo (a : nat) (def : Def.t) : Def.t :=
  mapProperties (fun ps => map rename (firstn a ps) ++ skipn a ps) def.

(** The name of the [r]-th Definition, among the names of all. *)
Definition nameAt (names : list string) (r : DefId) : string :=
  nth r names "".

(** The signature written for a property. *)
Definition signatureOf (names : list string) (p : Property.t)
  : PropertySignature :=
  match rename p with
  | Property.PRIMITIVE n _ descr ty arr =>
      createProperty n ty (VStr descr) arr
  | Property.REFERENCE n sn _ r arr =>
      createProperty n (TsType (nameAt names r)) sn arr
  end.

(** The imports after a property, in a file named [self]. *)
Definition importOf (names : list string) (self : string)
    (imports : list ImportDeclaration) (p : Property.t)
  : list ImportDeclaration :=
  match p with
  | Property.PRIMITIVE _ _ _ _ _ => imports
  | Property.REFERENCE _ _ _ r _ =>
      if String.eqb (nameAt names r) self then imports
      else addSafeImport imports ("./" ++ nameAt names r) (nameAt names r)
  end.

(** The file of a Definition, as a function of the Definition and of the
    names of the Definitions it refers to. *)
Definition fileOf (names : list string) (def : Def.t) : DefinitionFile :=
  {| file_name := Def.name def;
     file_imports :=
       fold_left (importOf names (Def.name def)) (Def.properties def) [];
     file_docs := Js.join (String (ascii_of_nat 10) "") (Def.docs def);
     file_properties :=
       map (signatureOf names) (Def.properties def) ++ [indexSignature] |}.

(** [f] is the file of the [y]-th of the Definitions [defs]. *)
Definition savedFor (defs : list Def.t) (y : DefId) (f : DefinitionFile)
  : Prop :=
  exists def,
    nth_error defs y = Some def /\ f = fileOf (map Def.name defs) def.

(** The Definitions of [l] have their properties renamed. *)
Definition touch (l : list DefId) (y : DefId) (def : Def.t) : Def.t :=
  if mem y l then renameAll def else def.

(** What a call for [d] made of [g]: [d] and then the Definitions [more]
    were added to [generated], none of which was there and none of which
    comes twice; exactly these had their properties renamed; and one file
    was saved for each of them, in the order [order] that ends with [d],
    each the file of the Definition as it was in [g]. *)
Definition generates (g : GenState) (d : DefId) (g' : GenState) : Prop :=
  exists more earlier saved,
    generated g' = generated g ++ d :: more
    /\ NoDup (d :: more)
    /\ (forall y, In y more -> ~ In y (generated g))
    /\ (forall y,
          nth_error (gen_definitions g') y
          = option_map (touch (d :: more) y)
                       (nth_error (gen_definitions g) y))
    /\ (forall y, In y earlier <-> In y more)
    /\ NoDup earlier
    /\ files g' = files g ++ saved
    /\ Forall2 (savedFor (gen_definitions g)) (earlier ++ [d]) saved.

Definition RecGenerates (rec : DefId -> G unit) : Prop :=
  forall d g g',
    ~ In d (generated g) -> rec d g = (Ok tt, g') -> generates g d g'.

Lemma rename_setName p :
  rename p = Property.setName (Property.name (rename p)) p.
Proof.
  unfold renameProperty.
  destruct (modelPropertyNaming options) as [[|]|]; destruct p; reflexivity.
Qed.

Lemma renameUpTo_0 def : renameUpTo 0 def = def.
Proof. now destruct def. Qed.

Lemma renameUpTo_all def :
  renameUpTo (length (Def.properties def)) def = renameAll def.
Proof.
  unfold renameUpTo, renameAll, mapProperties.
  now rewrite firstn_all, skipn_all, app_nil_r.
Qed.

Lemma renameUpTo_step a def :
  mapProperties (updateAt a rename) (renameUpTo a def)
  = renameUpTo (S a) def.
Proof.
  unfold renameUpTo, mapProperties. cbn. now rewrite upTo_step.
Qed.

Lemma touch_nil y def : touch [] y def = def.
Proof. reflexivity. Qed.

Lemma names_pointwise (F : DefId -> Def.t -> Def.t) defs defs' :
  (forall y x, Def.name (F y x) = Def.name x) ->
  (forall y, nth_error defs' y = option_map (F y) (nth_error defs y)) ->
  map Def.name defs' = map Def.name defs.
Proof.
  intros HF H. apply nth_error_ext. intros y.
  rewrite !nth_error_map, H. destruct (nth_error defs y); simpl;
    [now rewrite HF | reflexivity].
Qed.

Lemma nameAt_nth defs r def :
  nth_error defs r = Some def -> nameAt (map Def.name defs) r = Def.name def.
Proof.
  intros H. unfold nameAt. apply nth_error_nth.
  now rewrite nth_error_map, H.
Qed.

Lemma touch_name l y def : Def.name (touch l y def) = Def.name def.
Proof. unfold touch. now destruct (mem _ _). Qed.

Section Building.

Variable rec : DefId -> G unit.
Hypothesis rec_generates : RecGenerates rec.

(** The call under way: for [d], the Definition [def0] of the store [g0]
    the call started from. *)
Variable g0 : GenState.
Variable d : DefId.
Variable def0 : Def.t.
Hypothesis d_def0 : nth_error (gen_definitions g0) d = Some def0.

Local Abbreviation names0 := (map Def.name (gen_definitions g0)).

(** The state of the loop before the [a]-th property. *)
Definition building (a : nat)
    (acc : list ImportDeclaration * list PropertySignature)
    (g1 : GenState) : Prop :=
  exists m done saved,
    generated g1 = generated g0 ++ d :: m
    /\ NoDup (d :: m)
    /\ (forall y, In y m -> ~ In y (generated g0))
    /\ (forall y,
          nth_error (gen_definitions g1) y
          = option_map (if Nat.eqb y d then renameUpTo a else touch m y)
                       (nth_error (gen_definitions g0) y))
    /\ (forall y, In y done <-> In y m)
    /\ NoDup done
    /\ files g1 = files g0 ++ saved
    /\ Forall2 (savedFor (gen_definitions g0)) done saved
    /\ acc = (fold_left (importOf names0 (Def.name def0))
                        (firstn a (Def.properties def0)) [],
              map (signatureOf names0) (firstn a (Def.properties def0))).

Lemma building_names a acc g1 :
  building a acc g1 -> map Def.name (gen_definitions g1) = names0.
Proof.
  intros (m & done & saved & _ & _ & _ & Hdefs & _).
  apply (names_pointwise
           (fun y => if Nat.eqb y d then renameUpTo a else touch m y));
    [|exact Hdefs].
  intros y x. destruct (Nat.eqb y d); [reflexivity | apply touch_name].
Qed.

Lemma building_self a acc g1 :
  building a acc g1 ->
  nth_error (gen_definitions g1) d = Some (renameUpTo a def0).
Proof.
  intros (m & done & saved & _ & _ & _ & Hdefs & _).
  now rewrite Hdefs, Nat.eqb_refl, d_def0.
Qed.

(** The nested call, or none, from a state of the loop. *)
Lemma building_nested a acc ga (r : DefId) u gb :
  building a acc ga ->
  (if existsb (Nat.eqb r) (generated ga) then ret tt else rec r) ga
  = (Ok u, gb) ->
  building a acc gb.
Proof.
  intros Hb Hstep.
  destruct (existsb (Nat.eqb r) (generated ga)) eqn:E.
  { injection Hstep as _ <-. exact Hb. }
  apply includes_false in E. destruct u.
  destruct (rec_generates r ga gb E Hstep)
    as (mr & earlier & saved_r & Hgen_r & Hnd_r & Hfresh_r & Hdefs_r
        & Horder & Hnd_o & Hfiles_r & Hsaved_r).
  pose proof (building_names _ _ _ Hb) as Hnames.
  destruct Hb as (m & done & saved & Hgen & Hnd & Hfresh & Hdefs & Hdone
                  & Hnd_d & Hfiles & Hsaved & Hacc).
  assert (Hnew : forall y, In y (r :: mr) -> ~ In y (generated ga)).
  { intros y [<-|Hy]; auto. }
  assert (Hold : forall y, In y (d :: m) -> In y (generated ga)).
  { intros y Hy. rewrite Hgen. apply in_or_app. auto. }
  assert (Hapart : forall y, In y (d :: m) -> ~ In y (r :: mr)).
  { intros y Hy Hy'. exact (Hnew y Hy' (Hold y Hy)). }
  exists (m ++ r :: mr), (done ++ earlier ++ [r]), (saved ++ saved_r).
  split; [now rewrite Hgen_r, Hgen, <- app_assoc|].
  split.
  { change (NoDup ((d :: m) ++ r :: mr)). now apply NoDup_app. }
  split.
  { intros y Hy Hin. apply in_app_or in Hy as [Hy|Hy]; [exact (Hfresh y Hy Hin)|].
    apply (Hnew y Hy). rewrite Hgen. apply in_or_app. auto. }
  split.
  { intros y. rewrite Hdefs_r, Hdefs.
    destruct (nth_error (gen_definitions g0) y) as [def|]; [|reflexivity].
    cbn [option_map]. f_equal.
    assert (Hcases : mem y (r :: mr) = false
                     \/ (Nat.eqb y d = false /\ mem y m = false)).
    { destruct (mem y (r :: mr)) eqn:E'; [right | now left].
      apply mem_In in E'. split.
      - apply Nat.eqb_neq. intros ->. apply (Hapart d); simpl; auto.
      - apply mem_false. intros Hm. apply (Hapart y); simpl; auto. }
    unfold touch at 1.
    destruct Hcases as [E'|[Ey Em]].
    - rewrite E'. destruct (Nat.eqb y d); [reflexivity|].
      unfold touch. rewrite mem_app, E'. now rewrite orb_false_r.
    - rewrite Ey. unfold touch. now rewrite mem_app, Em. }
  assert (Horder' : forall y, In y (earlier ++ [r]) <-> In y (r :: mr)).
  { intros y. rewrite in_app_iff, Horder. simpl. tauto. }
  split.
  { intros y. rewrite !in_app_iff, Hdone, <- in_app_iff, Horder'. tauto. }
  split.
  { apply NoDup_app; [assumption | |].
    - apply NoDup_app; [assumption | repeat constructor; intros [] |].
      intros y Hy [<-|[]]. apply Horder in Hy.
      inversion Hnd_r; subst. contradiction.
    - intros y Hy Hy'. apply Hdone in Hy. apply Horder' in Hy'.
      apply (Hapart y); simpl; auto. }
  split; [now rewrite Hfiles_r, Hfiles, <- app_assoc|].
  split; [|exact Hacc].
  apply Forall2_app; [assumption|].
  apply (Forall2_impl_In _ _ _ _ Hsaved_r).
  intros y f Hy (def & Hdef & ->). apply Horder' in Hy.
  exists def. rewrite Hnames. split; [|reflexivity].
  rewrite Hdefs in Hdef.
  assert (Ey : Nat.eqb y d = false).
  { apply Nat.eqb_neq. intros ->. apply (Hapart d); simpl; auto. }
  assert (Em : mem y m = false).
  { apply mem_false. intros Hm. apply (Hapart y); simpl; auto. }
  rewrite Ey in Hdef. unfold touch in Hdef. rewrite Em in Hdef.
  destruct (nth_error (gen_definitions g0) y); [exact Hdef | discriminate].
Qed.

Lemma generateProperty_building a acc g1 acc' g2 :
  building a acc g1 ->
  generateProperty camelcase options rec d acc a g1 = (Ok acc', g2) ->
  building (S a) acc' g2.
Proof.
  intros Hb Hrun. unfold generateProperty in Hrun.
  destruct acc as [imports props].
  apply bind_Ok in Hrun as (u & ga & Hmut & Hrun).
  unfold mutateProperty in Hmut. injection Hmut as _ Hga.
  destruct Hb as (m & done & saved & Hgen & Hnd & Hfresh & Hdefs & Hdone
                  & Hnd_d & Hfiles & Hsaved & Hacc).
  assert (Hdefs_a : forall y,
             nth_error (gen_definitions ga) y
             = option_map (if Nat.eqb y d then renameUpTo (S a)
                           else touch m y)
                          (nth_error (gen_definitions g0) y)).
  { intros y. subst ga. cbn [setGenDefinitions gen_definitions].
    rewrite updateAt_nth_error, Hdefs, Nat.eqb_sym.
    destruct (Nat.eqb y d); [|reflexivity].
    destruct (nth_error (gen_definitions g0) y); [|reflexivity].
    cbn [option_map]. now rewrite renameUpTo_step. }
  assert (Hgen_a : generated ga = generated g1) by (now subst ga).
  assert (Hfiles_a : files ga = files g1) by (now subst ga).
  clear Hga Hdefs.
  apply bind_Ok in Hrun as (p & ga' & Hread & Hrun).
  apply readProperty_inv in Hread as [-> (defa & Hdefa & Hp)].
  rewrite Hdefs_a, Nat.eqb_refl, d_def0 in Hdefa. injection Hdefa as <-.
  cbn [renameUpTo mapProperties Def.properties] in Hp.
  apply upTo_nth in Hp as (p0 & Hp0 & -> & Hfirst).
  (* the state of the loop, but for the accumulators *)
  assert (Hb_a : building (S a)
                   (fold_left (importOf names0 (Def.name def0))
                              (firstn (S a) (Def.properties def0)) [],
                    map (signatureOf names0)
                        (firstn (S a) (Def.properties def0))) ga).
  { exists m, done, saved. rewrite Hgen_a, Hfiles_a. repeat split;
      try assumption; try apply Hdone. }
  injection Hacc as -> ->.
  rewrite rename_setName in Hrun.
  rewrite Hfirst in Hb_a. rewrite fold_left_app, map_app in Hb_a.
  cbn [fold_left map] in Hb_a. unfold signatureOf at 2 in Hb_a.
  rewrite rename_setName in Hb_a.
  destruct p0 as [n sn descr ty arr | n sn descr r arr];
    cbn [Property.setName importOf] in Hrun, Hb_a.
  - injection Hrun as <- <-. exact Hb_a.
  - apply bind_Ok in Hrun as (gen & g3 & Hget & Hrun).
    unfold getGenerated in Hget. injection Hget as <- <-.
    apply bind_Ok in Hrun as (u' & gb & Hstep & Hrun).
    pose proof (building_nested _ _ _ _ _ _ Hb_a Hstep) as Hb_b.
    apply bind_Ok in Hrun as (refDef & g3 & Hread1 & Hrun).
    apply readDefinition_inv in Hread1 as [-> Href].
    apply bind_Ok in Hrun as (self & g3 & Hread2 & Hrun).
    apply readDefinition_inv in Hread2 as [-> Hself].
    apply bind_Ok in Hrun as (p' & g3 & Hread3 & Hrun).
    apply readProperty_inv in Hread3 as [-> (defb & Hdefb & Hp')].
    injection Hrun as <- <-.
    rewrite (building_self _ _ _ Hb_b) in Hself, Hdefb.
    injection Hself as <-. injection Hdefb as <-.
    cbn [renameUpTo mapProperties Def.properties Def.name] in Hp' |- *.
    apply upTo_nth in Hp' as (p1 & Hp1 & -> & _).
    rewrite Hp0 in Hp1. injection Hp1 as <-.
    apply nameAt_nth in Href. rewrite (building_names _ _ _ Hb_b) in Href.
    rewrite <- Href. rewrite rename_setName.
    cbn [Property.setName Property.name Property.isArray].
    exact Hb_b.
Qed.

Lemma foldM_building k :
  forall a acc g1 acc' g2,
    building a acc g1 ->
    foldM (generateProperty camelcase options rec d) (seq a k) acc g1
    = (Ok acc', g2) ->
    building (a + k) acc' g2.
Proof.
  induction k as [|k IH]; intros a acc g1 acc' g2 Hb Hrun;
    cbn [seq foldM] in Hrun.
  - injection Hrun as <- <-. now rewrite Nat.add_0_r.
  - apply bind_Ok in Hrun as (acc1 & ga & Hstep & Hrun).
    rewrite Nat.add_succ_r. change (S (a + k)) with (S a + k).
    apply (IH (S a) acc1 ga); [|exact Hrun].
    exact (generateProperty_building _ _ _ _ _ Hb Hstep).
Qed.

End Building.

Lemma generateDefinitionFile_generates fuel d g g' :
  ~ In d (generated g) ->
  generateDefinitionFile camelcase options fuel d g = (Ok tt, g') ->
  generates g d g'.
Proof.
  revert d g g'.
  induction fuel as [|fuel IH]; intros d g g' Hnot Hrun; [discriminate|].
  cbn [generateDefinitionFile] in Hrun.
  apply bind_Ok in Hrun as (def0 & g0 & Hread & Hrun).
  apply readDefinition_inv in Hread as [-> Hdef0]. cbv zeta in Hrun.
  apply bind_Ok in Hrun as (u & g1 & Hpush & Hrun).
  unfold pushGenerated in Hpush. injection Hpush as _ Hg1.
  apply bind_Ok in Hrun as ([imports props] & g2 & Hloop & Hrun).
  assert (Hb1 : building g d def0 0 ([], []) g1).
  { exists [], [], []. subst g1. cbn [generated files gen_definitions].
    split; [reflexivity|]. split; [repeat constructor; intros []|].
    split; [intros y []|]. split.
    { intros y. symmetry. apply option_map_id. intros x.
      destruct (Nat.eqb y d); [apply renameUpTo_0 | reflexivity]. }
    split; [reflexivity|]. split; [constructor|].
    split; [now rewrite app_nil_r|]. split; [constructor | reflexivity]. }
  pose proof (foldM_building _ IH g d def0 Hdef0 _ _ _ _ _ _ Hb1 Hloop)
    as Hb2.
  cbn [Nat.add] in Hb2.
  apply bind_Ok in Hrun as (def2 & g3 & Hread2 & Hrun).
  apply readDefinition_inv in Hread2 as [-> Hdef2].
  rewrite (building_self _ _ _ Hdef0 _ _ _ Hb2), renameUpTo_all in Hdef2.
  injection Hdef2 as <-.
  unfold saveFile in Hrun. injection Hrun as <-.
  destruct Hb2 as (m & done & saved & Hgen & Hnd & Hfresh & Hdefs & Hdone
                   & Hnd_d & Hfiles & Hsaved & Hacc).
  rewrite firstn_all in Hacc. injection Hacc as -> ->.
  eexists m, done, (saved ++ [_]). cbn [generated files gen_definitions].
  split; [exact Hgen|]. split; [exact Hnd|]. split; [exact Hfresh|].
  split.
  { intros y. rewrite Hdefs.
    destruct (nth_error (gen_definitions g) y) as [def|] eqn:Ey;
      [|reflexivity].
    cbn [option_map]. f_equal. unfold touch, mem. cbn [existsb].
    fold (mem y m).
    destruct (Nat.eqb y d) eqn:E; [|reflexivity].
    apply Nat.eqb_eq in E. rewrite E, Hdef0 in Ey.
    injection Ey as <-. cbn [orb]. apply renameUpTo_all. }
  split; [exact Hdone|]. split; [exact Hnd_d|].
  split; [now rewrite Hfiles, app_assoc|].
  apply Forall2_app; [exact Hsaved|]. constructor; [|constructor].
  exists def0. split; [exact Hdef0|]. reflexivity.
Qed.

End GeneratorFunction.

(** ** Nothing else is generated *)

(** [y] is [d], or a Definition a property of [d] refers to, or one such a
    Definition refers to, and so on. *)
Inductive reachable (defs : list Def.t) : DefId -> DefId -> Prop :=
| reach_here d : reachable defs d d
| reach_step d def p r y :
    nth_error defs d = Some def -> In p (Def.properties def) ->
    Property.ref p = Some r -> reachable defs r y ->
    reachable defs d y.

Lemma reachable_skeleton a b d y :
  skeleton a = skeleton b -> reachable a d y -> reachable b d y.
Proof.
  intros Hs H. induction H as [d | d def p r y Hdef Hp Hr _ IH];
    [constructor|].
  apply skeleton_nth in Hdef. rewrite Hs in Hdef.
  unfold skeleton in Hdef. rewrite nth_error_map in Hdef.
  destruct (nth_error b d) as [def'|] eqn:E; [|discriminate].
  injection Hdef as _ Hrefs.
  assert (Hin : In (Some r) (map Property.ref (Def.properties def'))).
  { rewrite Hrefs, <- Hr. now apply in_map. }
  apply in_map_iff in Hin as (p' & Hr' & Hp').
  exact (reach_step b d def' p' r y E Hp' Hr' IH).
Qed.

(** The five roles of a method. *)
Definition roles (m : Method.t) : list (option DefId) :=
  [Method.paramDefinition m; Method.returnDefinition m;
   Method.inputHeaderDefinition m; Method.outputHeaderDefinition m;
   Method.faultDefinition m].

Lemma forEach_Ok {S A} (I : S -> Prop) (f : A -> St S unit) l :
  (forall x s s', In x l -> I s -> f x s = (Ok tt, s') -> I s') ->
  forall s s', I s -> forEach f l s = (Ok tt, s') -> I s'.
Proof.
  induction l as [|x l IH]; intros Hf s s' Hs Hrun; cbn [forEach] in Hrun.
  - now injection Hrun as <-.
  - apply bind_Ok in Hrun as ([] & s1 & Hx & Hrun).
    apply (IH (fun y t t' Hy => Hf y t t' (or_intror Hy)) s1 s');
      [|exact Hrun].
    exact (Hf x s s1 (or_introl eq_refl) Hs Hx).
Qed.

Section Confinement.

Variable camelcase : string -> bool -> string.
Variable options : GeneratorOptions.

(** What a call for [d] adds to [generated] is reachable from [d]. *)
Definition Confined (rec : DefId -> G unit) : Prop :=
  forall d g g',
    rec d g = (Ok tt, g') ->
    forall y, In y (generated g') ->
              In y (generated g) \/ reachable (gen_definitions g) d y.

Section Loop.

Variable rec : DefId -> G unit.
Hypothesis rec_confined : Confined rec.
Hypothesis rec_keeps : forall d, keeps sameSkeleton (rec d).

Variable defs0 : list Def.t.
Variable d : DefId.

(** [generated] holds only what a predicate [old] allows and what is
    reachable from [d]. *)
Variable old : DefId -> Prop.

Definition confinedAt (g : GenState) : Prop :=
  skeleton (gen_definitions g) = skeleton defs0
  /\ forall y, In y (generated g) -> old y \/ reachable defs0 d y.

Lemma generateProperty_confined acc i g acc' g' :
  confinedAt g ->
  generateProperty camelcase options rec d acc i g = (Ok acc', g') ->
  confinedAt g'.
Proof.
  intros [Hs Hin] Hrun. unfold generateProperty in Hrun.
  destruct acc as [imports props].
  apply bind_Ok in Hrun as (u & ga & Hmut & Hrun).
  unfold mutateProperty in Hmut. injection Hmut as _ Hga.
  assert (Hsa : skeleton (gen_definitions ga) = skeleton defs0).
  { subst ga. cbn [setGenDefinitions gen_definitions].
    now rewrite skeleton_rename. }
  assert (Hgen : generated ga = generated g) by (now subst ga).
  clear Hga.
  apply bind_Ok in Hrun as (p & ga' & Hread & Hrun).
  apply readProperty_inv in Hread as [-> (defa & Hdefa & Hp)].
  apply nth_error_In in Hp.
  destruct p as [n sn descr ty arr | n sn descr r arr].
  - injection Hrun as _ <-. split; [assumption|]. now rewrite Hgen.
  - apply bind_Ok in Hrun as (gen & g2 & Hget & Hrun).
    unfold getGenerated in Hget. injection Hget as <- <-.
    apply bind_Ok in Hrun as ([] & gb & Hstep & Hrun).
    assert (Hb : confinedAt gb).
    { destruct (existsb (Nat.eqb r) (generated ga)).
      - injection Hstep as <-. split; [assumption|]. now rewrite Hgen.
      - split.
        + pose proof (rec_keeps r ga) as H. rewrite Hstep in H.
          unfold sameSkeleton in H. cbn [snd] in H. congruence.
        + intros y Hy.
          destruct (rec_confined r ga gb Hstep y Hy) as [Hy'|Hy'].
          * apply Hin. now rewrite <- Hgen.
          * right. apply (reachable_skeleton (gen_definitions ga));
              [assumption|].
            exact (reach_step _ d defa _ r y Hdefa Hp eq_refl Hy'). }
    apply bind_Ok in Hrun as (refDef & g3 & Hread1 & Hrun).
    apply readDefinition_inv in Hread1 as [-> _].
    apply bind_Ok in Hrun as (self & g3 & Hread2 & Hrun).
    apply readDefinition_inv in Hread2 as [-> _].
    apply bind_Ok in Hrun as (p' & g3 & Hread3 & Hrun).
    apply readProperty_inv in Hread3 as [-> _].
    injection Hrun as _ <-. exact Hb.
Qed.

Lemma foldM_confined l :
  forall acc g acc' g',
    confinedAt g ->
    foldM (generateProperty camelcase options rec d) l acc g = (Ok acc', g') ->
    confinedAt g'.
Proof.
  induction l as [|i l IH]; intros acc g acc' g' Hc Hrun;
    cbn [foldM] in Hrun.
  - now injection Hrun as _ <-.
  - apply bind_Ok in Hrun as (acc1 & g1 & Hstep & Hrun).
    apply (IH acc1 g1 acc' g'); [|exact Hrun].
    exact (generateProperty_confined _ _ _ _ _ Hc Hstep).
Qed.

End Loop.

Lemma generateDefinitionFile_confined fuel :
  Confined (generateDefinitionFile camelcase options fuel).
Proof.
  induction fuel as [|fuel IH]; intros d g g' Hrun; [discriminate|].
  cbn [generateDefinitionFile] in Hrun.
  apply bind_Ok in Hrun as (def0 & g0 & Hread & Hrun).
  apply readDefinition_inv in Hread as [-> Hdef0]. cbv zeta in Hrun.
  apply bind_Ok in Hrun as (u & g1 & Hpush & Hrun).
  unfold pushGenerated in Hpush. injection Hpush as _ Hg1.
  apply bind_Ok in Hrun as ([imports props] & g2 & Hloop & Hrun).
  apply bind_Ok in Hrun as (def2 & g3 & Hread2 & Hrun).
  apply readDefinition_inv in Hread2 as [-> _].
  unfold saveFile in Hrun. injection Hrun as <-. cbn [generated].
  assert (H1 : confinedAt (gen_definitions g) d
                 (fun y => In y (generated g)) g1).
  { subst g1. split; [reflexivity|]. cbn [generated]. intros y Hy.
    apply in_app_or in Hy as [Hy|[<-|[]]]; [now left|].
    right. constructor. }
  exact (proj2 (foldM_confined _ IH
                  (sameSkeleton_generateDefinitionFile camelcase options
                     fuel)
                  _ _ _ _ _ _ _ _ H1 Hloop)).
Qed.

(** X23: generation writes nothing it was not asked for.  What a call of
    [generateDefinitionFile] adds to [generated] is the Definition and
    Definitions reached from it through the [ref]s of properties; what
    [generate] has generated when it returns is reached in this way from a
    role of a method of [ports]. *)
Theorem generate_only_reachable fuel :
  (forall d g g',
     generateDefinitionFile camelcase options fuel d g = (Ok tt, g') ->
     forall y, In y (generated g') ->
               In y (generated g) \/ reachable (gen_definitions g) d y)
  /\ (forall parsedWsdl g',
        generate camelcase options fuel parsedWsdl = (Ok tt, g') ->
        forall y, In y (generated g') ->
        exists port m d,
          In port (pw_ports parsedWsdl) /\ In m (Port.methods port)
          /\ In (Some d) (roles m)
          /\ reachable (pw_definitions parsedWsdl) d y).
Proof.
  split; [exact (generateDefinitionFile_confined fuel)|].
  intros pw g' Hrun.
  set (asked := fun y =>
         exists port m d,
           In port (pw_ports pw) /\ In m (Port.methods port)
           /\ In (Some d) (roles m)
           /\ reachable (pw_definitions pw) d y).
  set (I := fun g : GenState =>
         skeleton (gen_definitions g) = skeleton (pw_definitions pw)
         /\ forall y, In y (generated g) -> asked y).
  assert (Hrole : forall port m role g1 g2,
             In port (pw_ports pw) -> In m (Port.methods port) ->
             In role (roles m) -> I g1 ->
             generateRole camelcase options fuel role g1 = (Ok tt, g2) ->
             I g2).
  { intros port m role g1 g2 Hport Hm Hin [Hs Hall] Hgen.
    destruct role as [d|]; cbn [generateRole] in Hgen;
      [|injection Hgen as <-; split; assumption].
    apply bind_Ok in Hgen as (gen & g3 & Hget & Hgen).
    unfold getGenerated in Hget. injection Hget as <- <-.
    destruct (existsb (Nat.eqb d) (generated g1));
      [injection Hgen as <-; split; assumption|].
    split.
    - pose proof (sameSkeleton_generateDefinitionFile camelcase options
                    fuel d g1) as H.
      rewrite Hgen in H. unfold sameSkeleton in H. cbn [snd] in H.
      congruence.
    - intros y Hy.
      destruct (generateDefinitionFile_confined fuel d g1 g2 Hgen y Hy)
        as [Hy'|Hy']; [auto|].
      exists port, m, d. repeat split; try assumption.
      now apply (reachable_skeleton (gen_definitions g1)). }
  assert (Hfinal : I g'); [|exact (proj2 Hfinal)].
  unfold generate in Hrun.
  refine (forEach_Ok I _ _ _ _ _ _ Hrun);
    [|split; [reflexivity | intros y []]].
  intros sv g1 g2 _ Hg1 Hports.
  refine (forEach_Ok I _ _ _ _ _ Hg1 Hports).
  intros port g3 g4 Hport Hg3 Hmethods.
  refine (forEach_Ok I _ _ _ _ _ Hg3 Hmethods).
  intros m g5 g6 Hm Hg5 Hmethod. unfold generateMethod in Hmethod.
  apply bind_Ok in Hmethod as ([] & t1 & H1 & Hmethod).
  apply bind_Ok in Hmethod as ([] & t2 & H2 & Hmethod).
  apply bind_Ok in Hmethod as ([] & t3 & H3 & Hmethod).
  apply bind_Ok in Hmethod as ([] & t4 & H4 & H5).
  assert (Hin : forall k role, nth_error (roles m) k = Some role ->
                               In role (roles m))
    by (intros k role; apply nth_error_In).
  pose proof (Hrole port m _ _ _ Hport Hm (Hin 0 _ eq_refl) Hg5 H1) as I1.
  pose proof (Hrole port m _ _ _ Hport Hm (Hin 1 _ eq_refl) I1 H2) as I2.
  pose proof (Hrole port m _ _ _ Hport Hm (Hin 2 _ eq_refl) I2 H3) as I3.
  pose proof (Hrole port m _ _ _ Hport Hm (Hin 3 _ eq_refl) I3 H4) as I4.
  exact (Hrole port m _ _ _ Hport Hm (Hin 4 _ eq_refl) I4 H5).
Qed.

End Confinement.

(** ** What [generate] computes *)

Section GenerateFunction.

Variable camelcase : string -> bool -> string.
Variable options : GeneratorOptions.

Local Abbreviation renamed := (touch camelcase options).
Local Abbreviation savedFor := (savedFor camelcase options).

(** What a sequence of calls made of [g]: the Definitions [more] were
    added to [generated], none of which was there and none of which comes
    twice; exactly these had their properties renamed; one file was saved
    for each of them, each the file of the Definition as it was in [g]. *)
Definition generatesAll (g g' : GenState) : Prop :=
  exists more order saved,
    generated g' = generated g ++ more
    /\ NoDup more
    /\ (forall y, In y more -> ~ In y (generated g))
    /\ (forall y,
          nth_error (gen_definitions g') y
          = option_map (renamed more y) (nth_error (gen_definitions g) y))
    /\ (forall y, In y order <-> In y more)
    /\ NoDup order
    /\ files g' = files g ++ saved
    /\ Forall2 (savedFor (gen_definitions g)) order saved.

Lemma generatesAll_refl g : generatesAll g g.
Proof.
  exists [], [], []. rewrite !app_nil_r.
  split; [reflexivity|]. split; [constructor|]. split; [intros y []|].
  split.
  { intros y. symmetry. apply option_map_id. reflexivity. }
  split; [reflexivity|]. split; [constructor|]. split; [reflexivity|].
  constructor.
Qed.

Lemma generates_generatesAll g (d : DefId) g' :
  ~ In d (generated g) ->
  generates camelcase options g d g' -> generatesAll g g'.
Proof.
  intros Hnot (more & earlier & saved & Hgen & Hnd & Hfresh & Hdefs & Horder
               & Hnd_o & Hfiles & Hsaved).
  exists (d :: more), (earlier ++ [d]), saved.
  split; [exact Hgen|]. split; [exact Hnd|].
  split; [intros y [<-|Hy]; auto|].
  split; [exact Hdefs|].
  split.
  { intros y. rewrite in_app_iff, Horder. simpl. tauto. }
  split.
  { apply NoDup_app; [assumption | repeat constructor; intros [] |].
    intros y Hy [<-|[]]. apply Horder in Hy.
    inversion Hnd; subst. contradiction. }
  split; assumption.
Qed.

Lemma generatesAll_trans g1 g2 g3 :
  generatesAll g1 g2 -> generatesAll g2 g3 -> generatesAll g1 g3.
Proof.
  intros (m1 & o1 & s1 & Hgen1 & Hnd1 & Hfresh1 & Hdefs1 & Ho1 & Hndo1
          & Hfiles1 & Hsaved1)
         (m2 & o2 & s2 & Hgen2 & Hnd2 & Hfresh2 & Hdefs2 & Ho2 & Hndo2
          & Hfiles2 & Hsaved2).
  assert (Hapart : forall y, In y m1 -> ~ In y m2).
  { intros y Hy Hy'. apply (Hfresh2 y Hy'). rewrite Hgen1.
    apply in_or_app. auto. }
  exists (m1 ++ m2), (o1 ++ o2), (s1 ++ s2).
  split; [now rewrite Hgen2, Hgen1, <- app_assoc|].
  split; [now apply NoDup_app|].
  split.
  { intros y Hy Hin. apply in_app_or in Hy as [Hy|Hy];
      [exact (Hfresh1 y Hy Hin)|].
    apply (Hfresh2 y Hy). rewrite Hgen1. apply in_or_app. auto. }
  split.
  { intros y. rewrite Hdefs2, Hdefs1.
    destruct (nth_error (gen_definitions g1) y) as [def|]; [|reflexivity].
    cbn [option_map]. f_equal. unfold touch. rewrite mem_app.
    destruct (mem y m1) eqn:E1; [|reflexivity].
    assert (E2 : mem y m2 = false).
    { apply mem_false. apply Hapart. now apply mem_In. }
    now rewrite E2. }
  split.
  { intros y. rewrite !in_app_iff, Ho1, Ho2. tauto. }
  split.
  { apply NoDup_app; [assumption | assumption |].
    intros y Hy Hy'. apply Ho1 in Hy. apply Ho2 in Hy'.
    exact (Hapart y Hy Hy'). }
  split; [now rewrite Hfiles2, Hfiles1, <- app_assoc|].
  apply Forall2_app; [assumption|].
  apply (Forall2_impl_In _ _ _ _ Hsaved2).
  intros y f Hy (def & Hdef & ->). apply Ho2 in Hy.
  exists def.
  assert (Hnames : map Def.name (gen_definitions g2)
                   = map Def.name (gen_definitions g1)).
  { apply (names_pointwise (renamed m1)); [|exact Hdefs1].
    intros z x. apply touch_name. }
  rewrite Hnames. split; [|reflexivity].
  rewrite Hdefs1 in Hdef.
  assert (E1 : mem y m1 = false).
  { apply mem_false. intros Hy1. exact (Hapart y Hy1 Hy). }
  unfold touch in Hdef. rewrite E1 in Hdef.
  destruct (nth_error (gen_definitions g1) y); [exact Hdef | discriminate].
Qed.

(** X17: what generation has computed when it returns.  A call of
    [generateDefinitionFile] for a Definition that was not generated yet
    added the Definition and then only Definitions that were missing to
    [generated], none twice; it renamed every property of exactly these
    Definitions, each once, and changed nothing else of the model; and it
    saved one file for each of them, the one of the Definition last, each
    file a function of the Definition as it was before the call and of the
    names of the Definitions: its name, its documentation, one signature
    for each renamed property, the index signature, and the imports of the
    Definitions referred to.  So for [generate]: no Definition was
    generated twice; the Definitions generated, and no others, had every
    property renamed, once, and nothing else of the parsed model changed;
    one file was saved for each of them and no other file, each the file
    of the Definition as it was parsed. *)
Theorem generate_function fuel :
  (forall d g g',
     ~ In d (generated g) ->
     generateDefinitionFile camelcase options fuel d g = (Ok tt, g') ->
     generates camelcase options g d g')
  /\ (forall parsedWsdl g',
        generate camelcase options fuel parsedWsdl = (Ok tt, g') ->
        NoDup (generated g')
        /\ (forall y,
              nth_error (gen_definitions g') y
              = option_map (renamed (generated g') y)
                           (nth_error (pw_definitions parsedWsdl) y))
        /\ exists order,
             (forall y, In y order <-> In y (generated g'))
             /\ NoDup order
             /\ Forall2 (savedFor (pw_definitions parsedWsdl)) order
                        (files g')).
Proof.
  split; [exact (generateDefinitionFile_generates camelcase options fuel)|].
  intros parsedWsdl g' Hrun.
  set (g0 := {| gen_definitions := pw_definitions parsedWsdl;
                generated := []; files := [] |}).
  assert (Hrole : forall role g1 g2,
             generatesAll g0 g1 ->
             generateRole camelcase options fuel role g1 = (Ok tt, g2) ->
             generatesAll g0 g2).
  { intros role g1 g2 H1 Hgen.
    destruct role as [d|]; cbn [generateRole] in Hgen;
      [|now injection Hgen as <-].
    apply bind_Ok in Hgen as (gen & g3 & Hget & Hgen).
    unfold getGenerated in Hget. injection Hget as <- <-.
    destruct (existsb (Nat.eqb d) (generated g1)) eqn:E;
      [now injection Hgen as <-|].
    apply includes_false in E.
    apply (generatesAll_trans _ _ _ H1).
    apply (generates_generatesAll _ d _ E).
    exact (generateDefinitionFile_generates camelcase options fuel d g1 g2
             E Hgen). }
  assert (Hall : generatesAll g0 g').
  { unfold generate in Hrun. fold g0 in Hrun.
    refine (forEach_Ok (generatesAll g0) _ _ _ _ _ (generatesAll_refl g0)
              Hrun).
    intros sv g1 g2 _ Hg1 Hports.
    refine (forEach_Ok (generatesAll g0) _ _ _ _ _ Hg1 Hports).
    intros port g3 g4 _ Hg3 Hmethods.
    refine (forEach_Ok (generatesAll g0) _ _ _ _ _ Hg3 Hmethods).
    intros m g5 g6 _ Hg5 Hmethod. unfold generateMethod in Hmethod.
    apply bind_Ok in Hmethod as ([] & t1 & H1 & Hmethod).
    apply bind_Ok in Hmethod as ([] & t2 & H2 & Hmethod).
    apply bind_Ok in Hmethod as ([] & t3 & H3 & Hmethod).
    apply bind_Ok in Hmethod as ([] & t4 & H4 & H5).
    exact (Hrole _ _ _
             (Hrole _ _ _
                (Hrole _ _ _ (Hrole _ _ _ (Hrole _ _ _ Hg5 H1) H2) H3) H4)
             H5). }
  destruct Hall as (more & order & saved & Hgen & Hnd & _ & Hdefs & Horder
                    & Hnd_o & Hfiles & Hsaved).
  unfold g0 in *. cbn [generated files gen_definitions app] in *.
  rewrite Hgen, Hfiles.
  split; [exact Hnd|]. split; [exact Hdefs|].
  exists order. auto.
Qed.

End GenerateFunction.

(** * cli.ts *)

Module Cli.

(** What yargs hands over for a [number] option that was given: a count,
    or [NaN] when the text was not a number. *)
Inductive CliNumber :=
| NotANumber
| Number (n : nat).

(** [conf], as far as the script reads it.  A [boolean] option is
    [undefined], [true] or [false], and the script only tests it: the field
    says whether it is truthy.  A [string] option is [undefined] or a
    string. *)
Record Conf := {
  conf_no_color : bool;
  conf_verbose : bool;
  conf_quiet : bool;
  conf_emitDefinitionsOnly : bool;
  conf_modelNamePreffix : option string;
  conf_modelNameSuffix : option string;
  conf_maxRecursiveDefinitionName : option CliNumber;
  conf_caseInsensitiveNames : bool;
  conf_o : option string;
  conf_positional : option (list string)
}.

(** [process.env.NO_COLOR] and [process.env.DEBUG]. *)
Record Env := {
  NO_COLOR : option string;
  DEBUG : option string
}.

(** Truthiness of a value that is [undefined] or a string. *)
Definition truthyString (o : option string) : bool :=
  match o with
  | Some (String _ _) => true
  | _ => false
  end.

(** The flags of [Logger]. *)
Record LoggerFlags := {
  logger_colors : bool;
  isDebug : bool;
  isLog : bool;
  isInfo : bool;
  isWarn : bool;
  isError : bool
}.

(** The logger section: three [if]s, in this order. *)
Definition configureLogger (conf : Conf) (env : Env) (l : LoggerFlags)
  : LoggerFlags :=
  let l :=
    if conf_no_color conf || truthyString (NO_COLOR env)
    then {| logger_colors := false; isDebug := isDebug l; isLog := isLog l;
            isInfo := isInfo l; isWarn := isWarn l; isError := isError l |}
    else l in
  let l :=
    if conf_verbose conf || truthyString (DEBUG env)
    then {| logger_colors := logger_colors l; isDebug := true;
            isLog := isLog l; isInfo := isInfo l; isWarn := isWarn l;
            isError := isError l |}
    else l in
  if conf_quiet conf
  then {| logger_colors := logger_colors l; isDebug := false; isLog := false;
          isInfo := false; isWarn := false; isError := false |}
  else l.

(** [Partial<Options>]: a field is absent or set. *)
Record Options := {
  colors : option bool;
  verbose : option bool;
  quiet : option bool;
  emitDefinitionsOnly : option bool;
  modelNamePreffix : option string;
  modelNameSuffix : option string;
  maxRecursiveDefinitionName : option nat;
  caseInsensitiveNames : option bool
}.

(** The options override section: [const options = {}] and eight [if]s,
    each setting one field. *)
Definition overrideOptions (conf : Conf) (env : Env) : Options :=
  {| colors :=
       if conf_no_color conf || truthyString (NO_COLOR env)
       then Some false else None;
     verbose :=
       if conf_verbose conf || truthyString (DEBUG env)
       then Some true else None;
     quiet := if conf_quiet conf then Some true else None;
     emitDefinitionsOnly :=
       if conf_emitDefinitionsOnly conf then Some true else None;
     modelNamePreffix :=
       if truthyString (conf_modelNamePreffix conf)
       then conf_modelNamePreffix conf else None;
     modelNameSuffix :=
       if truthyString (conf_modelNameSuffix conf)
       then conf_modelNameSuffix conf else None;
     maxRecursiveDefinitionName :=
       match conf_maxRecursiveDefinitionName conf with
       | Some (Number n) => Some n
       | _ => None
       end;
     caseInsensitiveNames :=
       if conf_caseInsensitiveNames conf then Some true else None |}.

Definition lowerAscii (c : ascii) : ascii :=
  let n := nat_of_ascii c in
  if Nat.leb 65 n && Nat.leb n 90 then ascii_of_nat (n + 32) else c.

Fixpoint lowercase (s : string) : string :=
  match s with
  | EmptyString => EmptyString
  | String c rest => String (lowerAscii c) (lowercase rest)
  end.

(** [/^https?:\/\//i.test(pattern)]. *)
Definition isUrlPattern (pattern : string) : bool :=
  String.prefix "http://" (lowercase pattern)
  || String.prefix "https://" (lowercase pattern).

(** The loop that fills [urlPatterns] and [localPatterns]. *)
Definition classify (filePatterns : list string)
  : list string * list string :=
  fold_left
    (fun (acc : list string * list string) pattern =>
       let (urlPatterns, localPatterns) := acc in
       if isUrlPattern pattern
       then (urlPatterns ++ [pattern], localPatterns)
       else (urlPatterns, localPatterns ++ [pattern]))
    filePatterns ([], []).

(** ** The options and the patterns *)

(** X21: whatever the command line and the environment, the options the
    script passes on hold no falsy value but [colors: false] and a
    ceiling of 0: a flag is only ever set to [true], an empty prefix or
    suffix is dropped and a non-empty one is passed as it is, a ceiling is
    passed exactly when it is a number, 0 included.  With [--quiet] the
    logger is silenced even when [--verbose] or [DEBUG] is set, while the
    options carry both. *)
Theorem overrideOptions_truthy conf env :
  let options := overrideOptions conf env in
  (forall b, colors options = Some b -> b = false)
  /\ (forall b, verbose options = Some b -> b = true)
  /\ (forall b, quiet options = Some b -> b = true)
  /\ (forall b, emitDefinitionsOnly options = Some b -> b = true)
  /\ (forall b, caseInsensitiveNames options = Some b -> b = true)
  /\ (forall p, modelNamePreffix options = Some p <->
                conf_modelNamePreffix conf = Some p /\ p <> "")
  /\ (forall p, modelNameSuffix options = Some p <->
                conf_modelNameSuffix conf = Some p /\ p <> "")
  /\ (forall n, maxRecursiveDefinitionName options = Some n <->
                conf_maxRecursiveDefinitionName conf = Some (Number n))
  /\ (conf_quiet conf = true ->
      forall l,
        let l' := configureLogger conf env l in
        isDebug l' = false /\ isLog l' = false /\ isInfo l' = false
        /\ isWarn l' = false /\ isError l' = false
        /\ quiet options = Some true
        /\ (conf_verbose conf = true -> verbose options = Some true)).
Proof.
  intros options. subst options. unfold overrideOptions.
  cbn [colors verbose quiet emitDefinitionsOnly caseInsensitiveNames
       modelNamePreffix modelNameSuffix maxRecursiveDefinitionName].
  assert (Hstr : forall o p,
             (if truthyString o then o else None) = Some p
             <-> o = Some p /\ p <> "").
  { intros [[|c x]|] p; cbn; split;
      try (intros [H Hne]); try (intros H);
      try discriminate; try (injection H as <-);
      try (split; [reflexivity | discriminate]);
      try reflexivity; try congruence. }
  split; [destruct (_ || _); intros b H; congruence|].
  split; [destruct (_ || _); intros b H; congruence|].
  split; [destruct (conf_quiet conf); intros b H; congruence|].
  split; [destruct (conf_emitDefinitionsOnly conf); intros b H; congruence|].
  split; [destruct (conf_caseInsensitiveNames conf); intros b H; congruence|].
  split; [intros p; apply Hstr|].
  split; [intros p; apply Hstr|].
  split.
  { intros n. destruct (conf_maxRecursiveDefinitionName conf) as [[|k]|];
      split; intros H; congruence. }
  intros Hq l. unfold configureLogger. rewrite Hq.
  cbn [isDebug isLog isInfo isWarn isError].
  repeat (split; [reflexivity|]).
  intros Hv. now rewrite Hv.
Qed.

Lemma prefix_split a b :
  String.prefix a b = true <-> exists rest, b = (a ++ rest)%string.
Proof.
  revert b. induction a as [|c a IH]; intros [|c' b];
    cbn [String.prefix append].
  - split; [intros _; now exists "" | reflexivity].
  - split; [intros _; now exists (String c' b) | reflexivity].
  - split; [discriminate | intros [rest H]; discriminate].
  - destruct (ascii_dec c c') as [->|Hne].
    + rewrite IH. split; intros [rest H]; exists rest; congruence.
    + split; [discriminate | intros [rest H]; congruence].
Qed.

Lemma lowercase_append (a b : string) :
  lowercase (a ++ b)%string = (lowercase a ++ lowercase b)%string.
Proof. induction a as [|c a IH]; simpl; [reflexivity | now rewrite IH]. Qed.

Lemma lowercase_split a : forall s rest,
  lowercase s = (a ++ rest)%string ->
  exists a' rest',
    s = (a' ++ rest')%string /\ lowercase a' = a /\ lowercase rest' = rest.
Proof.
  induction a as [|c a IH]; intros s rest H.
  - exists "", s. auto.
  - destruct s as [|c' s]; [discriminate|]. cbn in H.
    injection H as Hc H. destruct (IH s rest H) as (a' & rest' & -> & <- & <-).
    exists (String c' a'), rest'. cbn. rewrite Hc. auto.
Qed.

Lemma lowerAscii_punctuation c x :
  In x [":"%char; "/"%char] -> lowerAscii c = x -> c = x.
Proof.
  intros Hx H.
  destruct c as [[|] [|] [|] [|] [|] [|] [|] [|]];
    vm_compute in H; subst x; try reflexivity;
    exfalso; destruct Hx as [Hx|[Hx|[]]]; discriminate.
Qed.

Lemma lowercase_separator s : lowercase s = "://" -> s = "://".
Proof.
  destruct s as [|c1 [|c2 [|c3 [|c4 s]]]]; try discriminate.
  cbn. intros H. injection H as H1 H2 H3.
  apply lowerAscii_punctuation in H1, H2, H3; simpl; auto.
  now subst.
Qed.

(** X20: a pattern counts as remote exactly when it is a scheme, "://"
    and a rest, with a scheme that is "http" or "https" in any case of
    letters; the loop splits the patterns into the remote ones and the
    others, each kind in the order given. *)
Theorem classify_partition filePatterns :
  classify filePatterns
  = (filter isUrlPattern filePatterns,
     filter (fun pattern => negb (isUrlPattern pattern)) filePatterns)
  /\ forall pattern,
       isUrlPattern pattern = true
       <-> exists scheme rest,
             pattern = (scheme ++ "://" ++ rest)%string
             /\ (lowercase scheme = "http" \/ lowercase scheme = "https").
Proof.
  split.
  - unfold classify.
    assert (H : forall urls locals,
               fold_left
                 (fun (acc : list string * list string) pattern =>
                    let (urlPatterns, localPatterns) := acc in
                    if isUrlPattern pattern
                    then (urlPatterns ++ [pattern], localPatterns)
                    else (urlPatterns, localPatterns ++ [pattern]))
                 filePatterns (urls, locals)
               = (urls ++ filter isUrlPattern filePatterns,
                  locals ++ filter (fun pattern => negb (isUrlPattern pattern))
                                   filePatterns)).
    { induction filePatterns as [|p l IH]; intros urls locals;
        cbn [fold_left filter].
      - now rewrite !app_nil_r.
      - destruct (isUrlPattern p); cbn [negb]; rewrite IH, <- app_assoc;
          reflexivity. }
    apply (H [] []).
  - intros pattern. unfold isUrlPattern. rewrite orb_true_iff, !prefix_split.
    split.
    + assert (Hscheme : forall scheme rest,
                 lowercase pattern = ((scheme ++ "://") ++ rest)%string ->
                 exists scheme' rest',
                   pattern = (scheme' ++ "://" ++ rest')%string
                   /\ lowercase scheme' = scheme).
      { intros scheme rest H.
        apply lowercase_split in H as (a' & rest' & -> & Ha & _).
        apply lowercase_split in Ha as (s1 & s2 & -> & Hs1 & Hs2).
        apply lowercase_separator in Hs2. subst s2.
        exists s1, rest'. split; [|assumption].
        clear. induction s1 as [|c s1 IH]; cbn; [reflexivity|].
        now rewrite IH. }
      intros [[rest H]|[rest H]].
      * destruct (Hscheme "http" rest H) as (scheme & rest' & Hp & Hs).
        exists scheme, rest'. auto.
      * destruct (Hscheme "https" rest H) as (scheme & rest' & Hp & Hs).
        exists scheme, rest'. auto.
    + intros (scheme & rest & -> & [Hs|Hs]); [left | right];
        exists (lowercase rest);
        rewrite !lowercase_append, Hs; reflexivity.
Qed.

(** A call of [Logger.error], [Logger.debug] or [Logger.log]. *)
Inductive Logged :=
| LoggedError (msg : string)
| LoggedDebug (msg : string)
| LoggedLog (msg : string).

(** How a piece of the script ends: it returns, it throws, or the process
    exits. *)
Inductive Result (E A : Type) :=
| Returned (a : A)
| Threw (e : E)
| Exited (code : nat).

Arguments Returned {E A} a.
Arguments Threw {E A} e.
Arguments Exited {E A} code.

Section Script.

(** The world outside: the file system, the network, the generator. *)
Variable W : Type.
Variable Err : Type.
Variable Data : Type.

(** The calls that reach the world; [Some err] and [inl err] are a throw
    (a rejection, for the awaited ones). *)
Variable existsSync : string -> W -> bool * W.
Variable mkdirSync : string -> W -> option Err * W.
Variable axios_get : string -> W -> (Err + Data) * W.
Variable writeFileSync : string -> Data -> W -> option Err * W.
Variable unlinkSync : string -> W -> option Err * W.
Variable rmSync : string -> W -> option Err * W.
Variable glob : list string -> W -> (Err + list string) * W.
Variable parseAndGenerate : string -> string -> Options -> W -> option Err * W.

(** [path.resolve], [path.join], [path.basename]; the text of an error in
    a template; [s.replace(/\?.*$/, "")]; [JSON.stringify(o, null, 2)]. *)
Variable path_resolve : string -> string.
Variable path_join : list string -> string.
Variable path_basename : string -> string.
Variable showError : Err -> string.
Variable stripQuery : string -> string.
Variable stringify : Options -> string.

(** What the script changes: the world, the calls of the logger so far and
    the variable [errorsCount]. *)
Record State := {
  world : W;
  logged : list Logged;
  errorsCount : nat
}.

Definition C (A : Type) : Type := State -> Result Err A * State.

Definition ret {A} (a : A) : C A := fun s => (Returned a, s).

Definition bind {A B} (m : C A) (k : A -> C B) : C B :=
  fun s =>
    match m s with
    | (Returned a, s') => k a s'
    | (Threw e, s') => (Threw e, s')
    | (Exited c, s') => (Exited c, s')
    end.

(** [try { m } catch (err) { h }]: an exit of the process is not caught. *)
Definition tryCatch {A} (m : C A) (h : Err -> C A) : C A :=
  fun s =>
    match m s with
    | (Threw e, s') => h e s'
    | other => other
    end.

(** [process.exit(code)]. *)
Definition exit {A} (code : nat) : C A := fun s => (Exited code, s).

Declare Scope cli_scope.
Notation "x <- m ;; k" := (bind m (fun x => k))
  (at level 61, m at next level, right associativity) : cli_scope.
Notation "m ;; k" := (bind m (fun _ => k))
  (at level 61, right associativity) : cli_scope.
Local Open Scope cli_scope.

Fixpoint forEach {A} (f : A -> C unit) (l : list A) : C unit :=
  match l with
  | [] => ret tt
  | x :: rest => f x ;; forEach f rest
  end.

Definition withWorld (w : W) (s : State) : State :=
  {| world := w; logged := logged s; errorsCount := errorsCount s |}.

(** A call that may throw and returns nothing. *)
Definition call (op : W -> option Err * W) : C unit :=
  fun s =>
    match op (world s) with
    | (None, w) => (Returned tt, withWorld w s)
    | (Some e, w) => (Threw e, withWorld w s)
    end.

(** A call that may throw and returns a value. *)
Definition callFor {A} (op : W -> (Err + A) * W) : C A :=
  fun s =>
    match op (world s) with
    | (inr a, w) => (Returned a, withWorld w s)
    | (inl e, w) => (Threw e, withWorld w s)
    end.

(** A call that does not throw. *)
Definition ask {A} (op : W -> A * W) : C A :=
  fun s => let (a, w) := op (world s) in (Returned a, withWorld w s).

Definition log (entry : Logged) : C unit :=
  fun s => (Returned tt,
            {| world := world s; logged := logged s ++ [entry];
               errorsCount := errorsCount s |}).

(** [errorsCount = n]. *)
Definition setErrorsCount (n : nat) : C unit :=
  fun s => (Returned tt,
            {| world := world s; logged := logged s; errorsCount := n |}).

Definition getErrorsCount : C nat := fun s => (Returned (errorsCount s), s).

Definition quoted (s : string) : string :=
  (doubleQuote ++ s ++ doubleQuote)%string.

Definition tab : string := String (ascii_of_nat 9) EmptyString.

Definition newline : string := String (ascii_of_nat 10) EmptyString.

Section Run.

Variable options : Options.
Variable outDir : string.
Variable tempDir : string.

(** [try { await parseAndGenerate(path, path.join(outDir), options) }
     catch (err) { ...; errorsCount += 1 }]. *)
Definition generateClient (wsdlPath name : string) : C unit :=
  tryCatch
    (call (parseAndGenerate wsdlPath (path_join [outDir]) options))
    (fun err =>
       log (LoggedError ("Error occurred while generating client "
                         ++ quoted name)) ;;
       log (LoggedError (tab ++ showError err)) ;;
       n <- getErrorsCount ;;
       setErrorsCount (n + 1)).

(** The body of the loop over [urlPatterns]. *)
Definition fromUrl (urlPattern : string) : C unit :=
  tryCatch
    (response <- callFor (axios_get urlPattern) ;;
     let fileName := stripQuery (path_basename urlPattern) in
     let tempFilePath := path_join [tempDir; fileName] in
     call (writeFileSync tempFilePath response) ;;
     log (LoggedLog ("Downloaded " ++ quoted fileName ++ " from "
                     ++ quoted urlPattern)) ;;
     log (LoggedLog ("Generating SOAP client from " ++ quoted fileName)) ;;
     generateClient tempFilePath fileName ;;
     call (unlinkSync tempFilePath))
    (fun err =>
       log (LoggedError ("Error downloading " ++ quoted urlPattern ++ ": "
                         ++ showError err)) ;;
       n <- getErrorsCount ;;
       setErrorsCount (n + 1)).

(** The body of the loop over [localMatches]. *)
Definition fromFile (match_ : string) : C unit :=
  let wsdlPath := path_resolve match_ in
  let wsdlName := path_basename wsdlPath in
  log (LoggedLog ("Generating SOAP client from " ++ quoted wsdlName)) ;;
  generateClient wsdlPath wsdlName.

(** The outer [try] block and its [catch]. *)
Definition processPatterns (urlPatterns localPatterns : list string)
  : C unit :=
  tryCatch
    (forEach fromUrl urlPatterns ;;
     call (rmSync tempDir) ;;
     localMatches <- callFor (glob localPatterns) ;;
     (if Nat.eqb (length localMatches) 0
      then log (LoggedError "No local WSDL files found") ;; exit 1
      else ret tt) ;;
     (if Nat.ltb 1 (length localMatches)
      then log (LoggedDebug
                  (Js.join newline (map path_resolve localMatches))) ;;
           log (LoggedLog ("Found " ++ Js.ofNat (length localMatches)
                           ++ " local WSDL files"))
      else ret tt) ;;
     forEach fromFile localMatches ;;
     n <- getErrorsCount ;;
     if Nat.eqb n 0 then ret tt
     else log (LoggedError (Js.ofNat n ++ " Errors occurred!")) ;; exit 1)
    (fun err =>
       log (LoggedError ("Error while processing WSDL files: "
                         ++ showError err)) ;;
       exit 1).

End Run.


(** ** Errors and the exit status *)

(** Every call of [Logger.error] so far is accounted for: there was none,
    or [errorsCount] is not 0. *)
Definition accounted (s : State) : Prop :=
  (forall msg, ~ In (LoggedError msg) (logged s)) \/ 0 < errorsCount s.

(** From a state where the errors are accounted for, [m] exits with
    status 1 only, and where it returns or throws the errors are accounted
    for; what it returns satisfies [Q]. *)
Definition sound {A} (Q : A -> State -> Prop) (m : C A) : Prop :=
  forall s r s',
    accounted s -> m s = (r, s') ->
    match r with
    | Returned a => accounted s' /\ Q a s'
    | Threw _ => accounted s'
    | Exited code => code = 1
    end.

Local Abbreviation any := (fun _ _ => True).

Lemma sound_ret {A} (Q : A -> State -> Prop) a :
  (forall s, Q a s) -> sound Q (ret a).
Proof. intros HQ s r s' Hs [= <- <-]. auto. Qed.

Lemma sound_bind {A B} (P : A -> State -> Prop) (Q : B -> State -> Prop)
    (m : C A) (k : A -> C B) :
  sound P m -> (forall a, sound Q (k a)) -> sound Q (bind m k).
Proof.
  intros Hm Hk s r s' Hs Hrun. unfold bind in Hrun.
  destruct (m s) as [[a|e|c] s1] eqn:E.
  - destruct (Hm s _ _ Hs E) as [Hs1 _]. exact (Hk a s1 r s' Hs1 Hrun).
  - injection Hrun as <- <-. exact (Hm s _ _ Hs E).
  - injection Hrun as <- <-. exact (Hm s _ _ Hs E).
Qed.

Lemma sound_weaken {A} (P Q : A -> State -> Prop) (m : C A) :
  (forall a s, P a s -> Q a s) -> sound P m -> sound Q m.
Proof.
  intros HPQ Hm s r s' Hs Hrun. specialize (Hm s r s' Hs Hrun).
  destruct r; [|assumption|assumption]. destruct Hm. auto.
Qed.

Lemma sound_tryCatch {A} (Q : A -> State -> Prop) (m : C A) h :
  sound Q m -> (forall e, sound Q (h e)) -> sound Q (tryCatch m h).
Proof.
  intros Hm Hh s r s' Hs Hrun. unfold tryCatch in Hrun.
  destruct (m s) as [[a|e|c] s1] eqn:E.
  - injection Hrun as <- <-. exact (Hm s _ _ Hs E).
  - exact (Hh e s1 r s' (Hm s _ _ Hs E) Hrun).
  - injection Hrun as <- <-. exact (Hm s _ _ Hs E).
Qed.

Lemma sound_forEach {A} (f : A -> C unit) l :
  (forall x, sound any (f x)) -> sound any (forEach f l).
Proof.
  intros Hf. induction l as [|x l IH]; cbn [forEach].
  - now apply sound_ret.
  - eapply sound_bind; [apply Hf | intros u; exact IH].
Qed.

Lemma sound_call op : sound any (call op).
Proof.
  intros s r s' Hs Hrun. unfold call in Hrun.
  destruct (op (world s)) as [[e|] w]; injection Hrun as <- <-; auto.
Qed.

Lemma sound_callFor {A} (op : W -> (Err + A) * W) : sound any (callFor op).
Proof.
  intros s r s' Hs Hrun. unfold callFor in Hrun.
  destruct (op (world s)) as [[e|a] w]; injection Hrun as <- <-; auto.
Qed.

Lemma sound_ask {A} (op : W -> A * W) : sound any (ask op).
Proof.
  intros s r s' Hs Hrun. unfold ask in Hrun.
  destruct (op (world s)) as [a w]. injection Hrun as <- <-. auto.
Qed.

Lemma sound_log entry :
  (forall msg, entry <> LoggedError msg) -> sound any (log entry).
Proof.
  intros Hne s r s' [Hs|Hs] [= <- <-]; (split; [|exact I]).
  - left. intros msg Hin. cbn [logged] in Hin.
    apply in_app_or in Hin as [Hin|[Hin|[]]]; [exact (Hs msg Hin)|].
    exact (Hne msg Hin).
  - right. exact Hs.
Qed.

(** An error that is logged and counted. *)
Lemma sound_counted (m : C unit) :
  (forall s, exists s1,
      m s = (Returned tt, s1) /\ errorsCount s1 = errorsCount s) ->
  sound any (m ;; n <- getErrorsCount ;; setErrorsCount (n + 1)).
Proof.
  intros Hm s r s' _ Hrun. unfold bind in Hrun.
  destruct (Hm s) as (s1 & E & Hcount). rewrite E in Hrun.
  cbn in Hrun. injection Hrun as <- <-. split; [|exact I].
  right. cbn. lia.
Qed.

(** An error that is logged before the process exits with status 1. *)
Lemma sound_fatal {A} (Q : A -> State -> Prop) entry :
  sound Q (log entry ;; exit 1).
Proof. intros s r s' _ [= <- <-]. reflexivity. Qed.

Section RunProperties.

Variable options : Options.
Variable outDir : string.
Variable tempDir : string.

Lemma sound_generateClient wsdlPath name :
  sound any (generateClient options outDir wsdlPath name).
Proof.
  apply sound_tryCatch; [apply sound_call|]. intros err.
  apply (sound_counted
           (log (LoggedError ("Error occurred while generating client "
                              ++ quoted name)) ;;
            log (LoggedError (tab ++ showError err)))).
  intros s. eexists. split; reflexivity.
Qed.

Lemma sound_fromUrl urlPattern :
  sound any (fromUrl options outDir tempDir urlPattern).
Proof.
  apply sound_tryCatch.
  - eapply sound_bind; [apply sound_callFor|]. intros response. cbv zeta.
    eapply sound_bind; [apply sound_call|]. intros u1.
    eapply sound_bind; [apply sound_log; discriminate|]. intros u2.
    eapply sound_bind; [apply sound_log; discriminate|]. intros u3.
    eapply sound_bind; [apply sound_generateClient|]. intros u4.
    apply sound_call.
  - intros err.
    apply (sound_counted
             (log (LoggedError ("Error downloading " ++ quoted urlPattern
                                ++ ": " ++ showError err)))).
    intros s. eexists. split; reflexivity.
Qed.

Lemma sound_fromFile match_ :
  sound any (fromFile options outDir match_).
Proof.
  unfold fromFile. cbv zeta.
  eapply sound_bind; [apply sound_log; discriminate|]. intros u.
  apply sound_generateClient.
Qed.

(** The outer [try] block never throws; where it returns, [errorsCount]
    is 0. *)
Lemma sound_processPatterns urlPatterns localPatterns s r s' :
  accounted s ->
  processPatterns options outDir tempDir urlPatterns localPatterns s
  = (r, s') ->
  match r with
  | Returned _ => accounted s' /\ errorsCount s' = 0
  | Threw _ => False
  | Exited code => code = 1
  end.
Proof.
  intros Hs Hrun. unfold processPatterns, tryCatch in Hrun.
  match type of Hrun with
  | match ?body s with _ => _ end = _ =>
      assert (Hbody : sound (fun _ t => errorsCount t = 0) body);
      [|destruct (body s) as [[u|e|c] s1] eqn:E;
        pose proof (Hbody s _ _ Hs E) as H]
  end.
  - eapply sound_bind; [apply sound_forEach, sound_fromUrl|]. intros u1.
    eapply sound_bind; [apply sound_call|]. intros u2.
    eapply sound_bind; [apply sound_callFor|]. intros localMatches.
    eapply sound_bind with (P := any).
    { destruct (Nat.eqb _ 0); [apply sound_fatal | now apply sound_ret]. }
    intros u3.
    eapply sound_bind with (P := any).
    { destruct (Nat.ltb 1 _); [|now apply sound_ret].
      eapply sound_bind; [apply sound_log; discriminate|].
      intros u. apply sound_log. discriminate. }
    intros u4.
    eapply sound_bind; [apply sound_forEach, sound_fromFile|]. intros u5.
    intros t r0 t' Ht Hfinal. unfold bind, getErrorsCount in Hfinal.
    destruct (Nat.eqb (errorsCount t) 0) eqn:E0.
    + injection Hfinal as <- <-. apply Nat.eqb_eq in E0. auto.
    + injection Hfinal as <- <-. reflexivity.
  - injection Hrun as <- <-. exact H.
  - cbn in Hrun. injection Hrun as <- <-. reflexivity.
  - injection Hrun as <- <-. exact H.
Qed.

Lemma fromFile_returns match_ s :
  exists s' errors,
    fromFile options outDir match_ s = (Returned tt, s')
    /\ logged s'
       = logged s
         ++ LoggedLog ("Generating SOAP client from "
                       ++ quoted (path_basename (path_resolve match_)))
            :: errors
    /\ ((errors = [] /\ errorsCount s' = errorsCount s)
        \/ (exists msg1 msg2,
              errors = [LoggedError msg1; LoggedError msg2]
              /\ errorsCount s' = errorsCount s + 1)).
Proof.
  unfold fromFile, generateClient, bind, tryCatch, call, log,
    getErrorsCount, setErrorsCount.
  cbv beta zeta. cbn [world logged errorsCount].
  destruct (parseAndGenerate _ _ _ (world s)) as [[e|] w].
  - eexists _, [_; _]. cbn [withWorld world logged errorsCount].
    split; [reflexivity|].
    split; [rewrite <- !app_assoc; reflexivity|].
    right. eauto.
  - eexists _, []. cbn [withWorld world logged errorsCount].
    split; [reflexivity|]. split; [reflexivity|]. left. auto.
Qed.

Definition isLoggedLog (entry : Logged) : bool :=
  match entry with
  | LoggedLog _ => true
  | _ => false
  end.

Definition isLoggedError (entry : Logged) : bool :=
  match entry with
  | LoggedError _ => true
  | _ => false
  end.

End RunProperties.

(** The script after the logger section: the options, the two checks of
    the arguments, and the asynchronous function. *)
Definition script (conf : Conf) (env : Env) : C unit :=
  let options := overrideOptions conf env in
  log (LoggedDebug "Options") ;;
  log (LoggedDebug (stringify options)) ;;
  match conf_positional conf with
  | None =>
      log (LoggedError "No WSDL files found") ;;
      log (LoggedDebug "Path: undefined") ;;
      exit 1
  | Some [] =>
      log (LoggedError "No WSDL files found") ;;
      log (LoggedDebug "Path: ") ;;
      exit 1
  | Some filePatterns =>
      match conf_o conf with
      | None | Some EmptyString =>
          log (LoggedError
                 "You forgot to pass the path to the output directory -o") ;;
          exit 1
      | Some o =>
          let outDir := path_resolve o in
          setErrorsCount 0 ;;
          let tempDir := path_join [outDir; "temp"] in
          there <- ask (existsSync tempDir) ;;
          (if there then ret tt else call (mkdirSync tempDir)) ;;
          let (urlPatterns, localPatterns) := classify filePatterns in
          processPatterns options outDir tempDir urlPatterns localPatterns
      end
  end.

Lemma run_log {A} entry (k : C A) s :
  (log entry ;; k) s
  = k {| world := world s; logged := logged s ++ [entry];
         errorsCount := errorsCount s |}.
Proof. reflexivity. Qed.

Lemma clean_debug (l : list Logged) msg :
  (forall m, ~ In (LoggedError m) l) ->
  forall m, ~ In (LoggedError m) (l ++ [LoggedDebug msg]).
Proof.
  intros H m Hin. apply in_app_or in Hin as [Hin|[Hin|[]]];
    [exact (H m Hin) | discriminate].
Qed.

(** X18: errors are never swallowed.  From a state where [Logger.error]
    was not called, the script can only return (status 0) when it never
    called [Logger.error]: then [errorsCount] is 0, and patterns and a
    non-empty output directory were given.  Whenever the process exits,
    the status is 1.  A throw that escapes (from [mkdirSync]) comes
    before any error was logged. *)
Theorem script_exit_status conf env s r s' :
  (forall msg, ~ In (LoggedError msg) (logged s)) ->
  script conf env s = (r, s') ->
  match r with
  | Returned _ =>
      (forall msg, ~ In (LoggedError msg) (logged s'))
      /\ errorsCount s' = 0
      /\ exists filePatterns o,
           conf_positional conf = Some filePatterns /\ filePatterns <> []
           /\ conf_o conf = Some o /\ o <> ""
  | Threw _ => forall msg, ~ In (LoggedError msg) (logged s')
  | Exited code => code = 1
  end.
Proof.
  intros Hclean Hrun. unfold script in Hrun. cbv zeta in Hrun.
  rewrite !run_log in Hrun.
  pose proof (clean_debug _ (stringify (overrideOptions conf env))
                (clean_debug _ "Options" Hclean)) as Hclean2.
  match type of Hrun with
  | _ ?t = _ => set (s2 := t) in *
  end.
  destruct (conf_positional conf) as [[|pattern patterns]|] eqn:Hpos.
  - rewrite !run_log in Hrun. injection Hrun as <- _. reflexivity.
  - destruct (conf_o conf) as [[|c o]|] eqn:Ho.
    + rewrite run_log in Hrun. injection Hrun as <- _. reflexivity.
    + unfold bind at 1, setErrorsCount at 1 in Hrun.
      match type of Hrun with
      | _ ?t = _ => set (s3 := t) in *
      end.
      assert (Hclean3 : forall msg, ~ In (LoggedError msg) (logged s3))
        by exact Hclean2.
      unfold bind at 1, ask at 1 in Hrun.
      destruct (existsSync _ (world s3)) as [there w].
      assert (Hpost : forall t,
                 logged t = logged s3 -> errorsCount t = 0 ->
                 (let (urlPatterns, localPatterns) :=
                    classify (pattern :: patterns) in
                  processPatterns (overrideOptions conf env)
                    (path_resolve (String c o))
                    (path_join [path_resolve (String c o); "temp"])
                    urlPatterns localPatterns) t = (r, s') ->
                 match r with
                 | Returned _ =>
                     (forall msg, ~ In (LoggedError msg) (logged s'))
                     /\ errorsCount s' = 0
                     /\ exists filePatterns o0,
                          Some (pattern :: patterns) = Some filePatterns
                          /\ filePatterns <> []
                          /\ Some (String c o) = Some o0 /\ o0 <> ""
                 | Threw _ => forall msg, ~ In (LoggedError msg) (logged s')
                 | Exited code => code = 1
                 end).
      { intros t Hlog Hcount Ht.
        destruct (classify (pattern :: patterns)) as [urls locals].
        assert (Hacc : accounted t) by (left; now rewrite Hlog).
        pose proof (sound_processPatterns _ _ _ _ _ _ _ _ Hacc Ht) as H.
        destruct r as [u|e|code]; [|contradiction|exact H].
        destruct H as [[Hno|Hpos'] Hzero]; [|lia].
        split; [exact Hno|]. split; [exact Hzero|].
        exists (pattern :: patterns), (String c o).
        repeat split; discriminate. }
      destruct there.
      * unfold bind at 1, ret at 1 in Hrun.
        refine (Hpost _ _ _ Hrun); reflexivity.
      * unfold bind at 1, call at 1 in Hrun. cbn [world withWorld] in Hrun.
        destruct (mkdirSync _ w) as [[e|] w'].
        -- injection Hrun as <- <-. exact Hclean3.
        -- refine (Hpost _ _ _ Hrun); reflexivity.
    + rewrite run_log in Hrun. injection Hrun as <- _. reflexivity.
  - rewrite !run_log in Hrun. injection Hrun as <- _. reflexivity.
Qed.

(** X19: one failing file does not stop the others.  The loop over the
    local files runs to its end whatever the generator does: it logs one
    "Generating SOAP client" line for each file, in the order of the
    matches, calls [Logger.error] twice for each failure and adds the
    number of failures, at most the number of files, to [errorsCount]. *)
Theorem local_files_all_processed options outDir localMatches s :
  exists s' added,
    forEach (fromFile options outDir) localMatches s = (Returned tt, s')
    /\ logged s' = logged s ++ added
    /\ filter isLoggedLog added
       = map (fun match_ =>
                LoggedLog ("Generating SOAP client from "
                           ++ quoted (path_basename (path_resolve match_))))
             localMatches
    /\ length (filter isLoggedError added)
       = 2 * (errorsCount s' - errorsCount s)
    /\ errorsCount s <= errorsCount s'
    /\ errorsCount s' <= errorsCount s + length localMatches.
Proof.
  revert s. induction localMatches as [|match_ l IH]; intros s;
    cbn [forEach].
  - exists s, []. rewrite app_nil_r. simpl. repeat split; lia.
  - destruct (fromFile_returns options outDir match_ s)
      as (s1 & errors & Hrun1 & Hlog1 & H).
    destruct (IH s1) as (s' & added & Hrun & Hlog & Hlines & Herrs & Hle & Hge).
    unfold bind. rewrite Hrun1, Hrun.
    eexists s', (_ :: errors ++ added).
    split; [reflexivity|].
    split; [rewrite Hlog, Hlog1, <- app_assoc; reflexivity|].
    destruct H as [[-> Hcount]|(msg1 & msg2 & -> & Hcount)].
    + cbn [app filter isLoggedLog isLoggedError map]. rewrite Hlines.
      split; [reflexivity|]. cbn [length]. split; [lia|]. split; lia.
    + cbn [app filter isLoggedLog isLoggedError map]. rewrite Hlines.
      split; [reflexivity|]. cbn [length]. split; [lia|]. split; lia.
Qed.

End Script.

Arguments world {W} s.
Arguments logged {W} s.
Arguments errorsCount {W} s.

End Cli.

(** ** Concrete runs of the further properties *)

(** A session that already holds a Definition named "Root", built from
    the object at address 0. *)
Definition rootSession : Session :=
  {| definitions :=
       [{| Def.name := "Root"; Def.sourceName := "Root";
           Def.description := ""; Def.docs := ["Root"];
           Def.properties := [] |}];
     visitedDefs :=
       [{| Visited.name := "Root"; Visited.parts := VObj 0;
           Visited.definition := 0 |}];
     logs := [] |}.

(** The session after resolving [A = { b: B }], [B = { "a[]": A }], and
    the store generation starts from on its Definitions. *)
Definition loopSession : Session :=
  snd (parseDefinition Examples.wordCase (Examples.registry None)
         Examples.loopHeap defaultOptions 3 "A" (VObj 0) ["A"] emptySession).

Definition loopState : GenState :=
  {| gen_definitions := definitions loopSession;
     generated := [];
     files := [] |}.

Lemma loopState_closed : refsBelow (skeleton (gen_definitions loopState)).
Proof.
  apply refsBelow_skeleton.
  destruct (parseDefinition_spec Examples.wordCase (Examples.registry None)
              Examples.loopHeap defaultOptions 3 "A" (VObj 0) ["A"]
              emptySession 0 loopSession wellReferenced_empty I)
    as ([_ Hrefs] & _).
  - vm_compute. reflexivity.
  - exact Hrefs.
Qed.

(** The run of [parseWsdl] on the orders document. *)
Definition ordersRun : Outcome ParsedWsdl * Session :=
  Examples.runParseWsdl Examples.ordersHeap Examples.ordersWsdl
    Examples.noOptions 2.

Lemma ordersRun_returns : exists pw, ordersRun = (Ok pw, snd ordersRun).
Proof. eexists. vm_compute. reflexivity. Qed.

Lemma parseDefinition_refused_witness :
  Examples.registry (Some 0) (definitions rootSession)
    (Examples.wordCase "root" true)
  = inl (Registry.NameCollisionExhausted "Root")
  /\ fst (parseDefinition Examples.wordCase (Examples.registry (Some 0))
            Examples.deepHeap defaultOptions 1 "root" (VObj 2) ["Mid"]
            rootSession)
     = Throw (Error ("Error for finding non-collision definition name for "
                     ++ "Mid.root")).
Proof.
  split; [reflexivity|].
  exact (proj1 (parseDefinition_refused Examples.wordCase
                  (Examples.registry (Some 0)) Examples.deepHeap
                  defaultOptions 0 "root" (VObj 2) ["Mid"] rootSession
                  (Registry.NameCollisionExhausted "Root") eq_refl)).
Defined.

Lemma parseDefinition_absent_witness :
  truthy VNull = false
  /\ fst (parseDefinition Examples.wordCase (Examples.registry None) []
            defaultOptions 1 "status" VNull ["status"] rootSession)
     = Ok 1.
Proof.
  split; [reflexivity|].
  exact (proj1 (parseDefinition_absent Examples.wordCase
                  (Examples.registry None) [] defaultOptions 0 "status"
                  VNull ["status"] rootSession "Status" eq_refl eq_refl)).
Defined.

Lemma parseDefinition_descriptor_witness :
  hasChar "|" "tns:Id" = false
  /\ map Def.properties
       (definitions
          (snd (parseDefinition Examples.wordCase (Examples.registry None)
                  [] defaultOptions 1 "id" (VStr "tns:Id|xs:int|minOccurs")
                  ["id"] emptySession)))
     = [[Property.PRIMITIVE "Id" "tns:Id" "tns:Id|xs:int|minOccurs"
           (TsType "number") false]].
Proof.
  split; [reflexivity|].
  destruct (parseDefinition_descriptor Examples.wordCase
              (Examples.registry None) [] defaultOptions 0 "id"
              "tns:Id|xs:int|minOccurs" ["id"] emptySession "Id")
    as [_ H]; [discriminate | reflexivity |].
  destruct (H "tns:Id" "xs:int|minOccurs" eq_refl eq_refl) as [_ Hdefs].
  rewrite Hdefs. reflexivity.
Defined.

Lemma parseEntry_primitive_witness :
  isMetadataKey "items[]" = false
  /\ map (fun def => map Property.name (Def.properties def))
       (definitions
          (snd (parseEntry []
                  (parseDefinition Examples.wordCase (Examples.registry None)
                     [] defaultOptions 1)
                  0 "Root" ["Root"] ("items[]", VStr "xs:string")
                  rootSession)))
     = [["items"]].
Proof.
  split; [reflexivity|].
  rewrite (proj1 (parseEntry_primitive []
                    (parseDefinition Examples.wordCase
                       (Examples.registry None) [] defaultOptions 1)
                    0 "Root" ["Root"] "items[]" "xs:string" rootSession
                    eq_refl)).
  reflexivity.
Defined.

Lemma parseEntry_rethrows_witness :
  findReferenceDefiniton (visitedDefs rootSession) (VObj 2) = None
  /\ fst (parseEntry Examples.deepHeap
            (parseDefinition Examples.wordCase (Examples.registry (Some 0))
               Examples.deepHeap defaultOptions 1)
            0 "Mid" ["Root"; "inner"] ("leaf", VObj 2) rootSession)
     = Throw (Error "Error while parsing Subdefinition for Root.inner.Mid").
Proof.
  split; [reflexivity|].
  rewrite (parseEntry_rethrows Examples.deepHeap
             (parseDefinition Examples.wordCase (Examples.registry (Some 0))
                Examples.deepHeap defaultOptions 1)
             0 "Mid" ["Root"; "inner"] "leaf" 2 rootSession
             (Error ("Error for finding non-collision definition name for "
                     ++ "Root.inner.leaf.Root"))
             (snd (parseDefinition Examples.wordCase
                     (Examples.registry (Some 0)) Examples.deepHeap
                     defaultOptions 1 "Root" (VObj 2)
                     ["Root"; "inner"; "leaf"] rootSession))
             eq_refl eq_refl eq_refl);
    [reflexivity | vm_compute; reflexivity].
Defined.

Lemma parseDefinition_frame_witness :
  nth_error
    (definitions
       (snd (parseDefinition Examples.wordCase (Examples.registry None)
               Examples.ordersHeap defaultOptions 3 "PlaceOrder" (VObj 0)
               ["PlaceOrder"] rootSession)))
    0
  = nth_error (definitions rootSession) 0.
Proof.
  apply (proj1 (proj2 (parseDefinition_frame Examples.wordCase
                         (Examples.registry None) Examples.ordersHeap
                         defaultOptions 3 "PlaceOrder" (VObj 0)
                         ["PlaceOrder"] rootSession))).
  simpl. lia.
Defined.

Lemma parseDefinition_well_referenced_witness :
  wellReferenced emptySession
  /\ wellReferenced loopSession
  /\ 0 < length (definitions loopSession).
Proof.
  split; [exact wellReferenced_empty|].
  apply (parseDefinition_well_referenced Examples.wordCase
           (Examples.registry None) Examples.loopHeap defaultOptions 3 "A"
           (VObj 0) ["A"] emptySession 0 loopSession wellReferenced_empty).
  vm_compute. reflexivity.
Defined.

Lemma parseWsdl_shape_witness :
  exists pw,
    ordersRun = (Ok pw, snd ordersRun)
    /\ modelShape pw = [("Orders", [("OrdersPort", ["Place"])])].
Proof.
  destruct ordersRun_returns as [pw Hrun]. exists pw.
  split; [exact Hrun|].
  rewrite (proj1 (parseWsdl_shape Examples.wordCase Examples.registry
                    Registry.findDefinition Examples.keywords
                    Examples.ordersHeap Examples.ordersWsdl
                    Examples.noOptions 2 pw (snd ordersRun) Hrun)).
  reflexivity.
Defined.

Lemma parseWsdl_well_referenced_witness :
  exists pw, ordersRun = (Ok pw, snd ordersRun) /\ validModel pw.
Proof.
  destruct ordersRun_returns as [pw Hrun]. exists pw.
  split; [exact Hrun|].
  exact (proj1 (parseWsdl_well_referenced Examples.wordCase
                  Examples.registry Registry.findDefinition
                  Examples.keywords Examples.ordersHeap Examples.ordersWsdl
                  Examples.noOptions 2 findDefinition_lt
                  pw (snd ordersRun) Hrun)).
Defined.

Lemma parseWsdl_name_policy_witness :
  let s := snd (Examples.runParseWsdl Examples.ordersHeap
                  Examples.ordersWsdl Examples.prefixI 2) in
  exists def,
    nth_error (definitions s) 2 = Some def
    /\ Def.name def = "IAddress"
    /\ namedByPolicy Examples.wordCase (Examples.registry None)
         (mergedOptions Examples.prefixI) (definitions s) 2 def.
Proof.
  intros s. eexists. split; [vm_compute; reflexivity|].
  split; [reflexivity|].
  apply (proj1 (parseWsdl_name_policy Examples.wordCase Examples.registry
                  Registry.findDefinition Examples.keywords
                  Examples.ordersHeap Examples.ordersWsdl Examples.prefixI
                  2)).
  vm_compute. reflexivity.
Defined.

Lemma generateDefinitionFile_total_witness :
  pending (length (gen_definitions loopState)) (generated loopState) <= 2
  /\ exists g' more,
       generateDefinitionFile Examples.wordCase defaultGeneratorOptions 2 0
         loopState = (Ok tt, g')
       /\ generatedFrom loopState g' (0 :: more).
Proof.
  split; [vm_compute; lia|].
  apply (generateDefinitionFile_total Examples.wordCase
           defaultGeneratorOptions 2 0 loopState loopState_closed
           (NoDup_nil _)).
  - vm_compute. lia.
  - intros [].
  - vm_compute. lia.
Defined.

Lemma generate_total_witness :
  exists pw g',
    ordersRun = (Ok pw, snd ordersRun)
    /\ validModel pw
    /\ generate Examples.wordCase Examples.camelCaseNaming
         (length (pw_definitions pw)) pw = (Ok tt, g')
    /\ generatedFrom (initial pw) g' (generated g').
Proof.
  destruct ordersRun_returns as [pw Hrun].
  assert (Hvalid : validModel pw).
  { destruct (parseWsdl_services Examples.wordCase Examples.registry
                Registry.findDefinition Examples.keywords
                Examples.ordersHeap Examples.ordersWsdl Examples.noOptions 2
                findDefinition_lt pw (snd ordersRun) Hrun)
      as ([_ Hrefs] & Hdefs & Hports & Hall).
    unfold validModel. rewrite Hdefs, Hports.
    split; [exact Hall|]. split; [|exact Hrefs].
    now apply validPorts_flat_map. }
  destruct (generate_total Examples.wordCase Examples.camelCaseNaming
              (length (pw_definitions pw)) pw Hvalid (Nat.le_refl _))
    as (g' & Hgen & Hfrom & _).
  exists pw, g'. auto.
Defined.

Lemma parse_then_generate_witness :
  exists pw g',
    ordersRun = (Ok pw, snd ordersRun)
    /\ generate Examples.wordCase defaultGeneratorOptions
         (length (pw_definitions pw)) pw = (Ok tt, g')
    /\ length (files g') = length (generated g').
Proof.
  destruct ordersRun_returns as [pw Hrun].
  destruct (parse_then_generate Examples.wordCase Examples.registry
              Registry.findDefinition Examples.keywords Examples.ordersHeap
              Examples.ordersWsdl Examples.noOptions 2 Examples.wordCase
              defaultGeneratorOptions pw (snd ordersRun) findDefinition_lt
              Hrun)
    as (g' & Hgen & Hlen & _).
  exists pw, g'. auto.
Defined.

Lemma addSafeImport_safe_witness :
  let imports :=
    [{| moduleSpecifier := "./Address"; namedImport := "Address" |}] in
  NoDup (map moduleSpecifier imports)
  /\ NoDup (map moduleSpecifier (addSafeImport imports "./Item" "Item"))
  /\ addSafeImport imports "./Address" "Other" = imports.
Proof.
  intros imports.
  assert (Hnd : NoDup (map moduleSpecifier imports)).
  { repeat constructor. intros []. }
  split; [exact Hnd|]. split.
  - exact (proj1 (proj2 (proj2 (addSafeImport_safe imports "./Item" "Item"
                                  "Item"))) Hnd).
  - reflexivity.
Defined.

Lemma generateDefinitionFile_file_witness :
  exists g' f,
    generateDefinitionFile Examples.wordCase defaultGeneratorOptions 2 0
      loopState = (Ok tt, g')
    /\ last (files g') f = f
    /\ file_name f = "A"
    /\ map namedImport (file_imports f) = ["Bee"].
Proof.
  destruct (generateDefinitionFile_file Examples.wordCase
              defaultGeneratorOptions 2 0 loopState
              (snd (generateDefinitionFile Examples.wordCase
                      defaultGeneratorOptions 2 0 loopState)))
    as (def & earlier & f & Hdef & Hfiles & Hname & _).
  - vm_compute. reflexivity.
  - exists (snd (generateDefinitionFile Examples.wordCase
                   defaultGeneratorOptions 2 0 loopState)), f.
    split; [vm_compute; reflexivity|].
    split; [rewrite Hfiles; apply last_last|].
    vm_compute in Hfiles.
    destruct earlier as [|f1 [|f2 earlier]];
      [discriminate | | destruct earlier; discriminate].
    injection Hfiles as _ <-. split; reflexivity.
Defined.

Lemma sanitizePropName_quotes_witness :
  hasChar "-" "order-id" = true
  /\ sanitizePropName "order-id"
     = (doubleQuote ++ "order-id" ++ doubleQuote)%string
  /\ sanitizePropName "orderId" = "orderId".
Proof.
  split; [reflexivity|]. split.
  - rewrite (proj1 (sanitizePropName_quotes "order-id")). reflexivity.
  - apply (proj1 (sanitizePropName_quotes "orderId")).
Defined.

Lemma generate_function_witness :
  ~ In 0 (generated loopState)
  /\ exists g',
       generateDefinitionFile Examples.wordCase Examples.camelCaseNaming 2 0
         loopState = (Ok tt, g')
       /\ generates Examples.wordCase Examples.camelCaseNaming loopState 0 g'.
Proof.
  split; [intros []|].
  exists (snd (generateDefinitionFile Examples.wordCase
                 Examples.camelCaseNaming 2 0 loopState)).
  split; [vm_compute; reflexivity|].
  apply (proj1 (generate_function Examples.wordCase
                  Examples.camelCaseNaming 2) 0 loopState).
  - intros [].
  - vm_compute. reflexivity.
Defined.

(** The script in a world where everything succeeds but the generator,
    which fails on the files listed. *)
Definition scriptWith (failing : list string) (conf : Cli.Conf)
  : Cli.C unit string unit :=
  Cli.script unit string string
    (fun _ w => (true, w))
    (fun _ w => (None, w))
    (fun url w => (inr url, w))
    (fun _ _ w => (None, w))
    (fun _ w => (None, w))
    (fun _ w => (None, w))
    (fun patterns w => (inr patterns, w))
    (fun path _ _ w =>
       (if existsb (String.eqb path) failing then Some "not a WSDL"
        else None, w))
    (fun p => p) (Js.join "/") (fun p => p) (fun e => e) (fun s => s)
    (fun _ => "{}")
    conf {| Cli.NO_COLOR := None; Cli.DEBUG := None |}.

Definition ordersConf : Cli.Conf :=
  {| Cli.conf_no_color := false;
     Cli.conf_verbose := true;
     Cli.conf_quiet := true;
     Cli.conf_emitDefinitionsOnly := false;
     Cli.conf_modelNamePreffix := Some "";
     Cli.conf_modelNameSuffix := Some "Dto";
     Cli.conf_maxRecursiveDefinitionName := Some (Cli.Number 0);
     Cli.conf_caseInsensitiveNames := false;
     Cli.conf_o := Some "out";
     Cli.conf_positional := Some ["orders.wsdl"; "status.wsdl"] |}.

Definition freshState : Cli.State unit :=
  {| Cli.world := tt; Cli.logged := []; Cli.errorsCount := 0 |}.

Lemma script_exit_status_witness :
  fst (scriptWith [] ordersConf freshState) = Cli.Returned tt
  /\ Cli.errorsCount (snd (scriptWith [] ordersConf freshState)) = 0
  /\ fst (scriptWith ["status.wsdl"] ordersConf freshState) = Cli.Exited 1.
Proof.
  split; [reflexivity|]. split; [|reflexivity].
  assert (Hrun : scriptWith [] ordersConf freshState
                 = (Cli.Returned tt,
                    snd (scriptWith [] ordersConf freshState)))
    by (vm_compute; reflexivity).
  unfold scriptWith in Hrun at 1.
  apply Cli.script_exit_status in Hrun; [|intros msg []].
  exact (proj1 (proj2 Hrun)).
Defined.

Lemma local_files_all_processed_witness :
  exists s' added,
    Cli.forEach unit string
      (Cli.fromFile unit string
         (fun path _ _ w =>
            (if String.eqb path "status.wsdl" then Some "not a WSDL"
             else None, w))
         (fun p => p) (Js.join "/") (fun p => p) (fun e => e)
         (Cli.overrideOptions ordersConf
            {| Cli.NO_COLOR := None; Cli.DEBUG := None |})
         "out")
      ["status.wsdl"; "orders.wsdl"] freshState
    = (Cli.Returned tt, s')
    /\ Cli.logged s' = added
    /\ length (filter Cli.isLoggedLog added) = 2
    /\ Cli.errorsCount s' = 1.
Proof.
  destruct (Cli.local_files_all_processed unit string
              (fun path _ _ w =>
                 (if String.eqb path "status.wsdl" then Some "not a WSDL"
                  else None, w))
              (fun p => p) (Js.join "/") (fun p => p) (fun e => e)
              (Cli.overrideOptions ordersConf
                 {| Cli.NO_COLOR := None; Cli.DEBUG := None |})
              "out" ["status.wsdl"; "orders.wsdl"] freshState)
    as (s' & added & Hrun & Hlog & Hlines & _).
  exists s', added. split; [exact Hrun|]. split; [exact Hlog|].
  split; [now rewrite Hlines|].
  vm_compute in Hrun. injection Hrun as <-. reflexivity.
Defined.

Lemma classify_partition_witness :
  Cli.classify ["HTTPS://host/a.wsdl?x=1"; "res/*.wsdl"; "http.wsdl"]
  = (["HTTPS://host/a.wsdl?x=1"], ["res/*.wsdl"; "http.wsdl"])
  /\ Cli.isUrlPattern "HTTPS://host/a.wsdl?x=1" = true.
Proof.
  split.
  - rewrite (proj1 (Cli.classify_partition _)). reflexivity.
  - apply (proj2 (Cli.classify_partition []) "HTTPS://host/a.wsdl?x=1").
    exists "HTTPS", "host/a.wsdl?x=1". split; [reflexivity|]. now right.
Defined.

Lemma overrideOptions_truthy_witness :
  let options :=
    Cli.overrideOptions ordersConf
      {| Cli.NO_COLOR := None; Cli.DEBUG := None |} in
  Cli.conf_quiet ordersConf = true
  /\ Cli.modelNamePreffix options = None
  /\ Cli.modelNameSuffix options = Some "Dto"
  /\ Cli.maxRecursiveDefinitionName options = Some 0
  /\ Cli.quiet options = Some true
  /\ Cli.verbose options = Some true.
Proof.
  intros options. split; [reflexivity|].
  destruct (Cli.overrideOptions_truthy ordersConf
              {| Cli.NO_COLOR := None; Cli.DEBUG := None |})
    as (_ & _ & _ & _ & _ & Hprefix & Hsuffix & Hmax & Hquiet).
  split.
  { destruct (Cli.modelNamePreffix options) as [p|] eqn:E; [|reflexivity].
    apply Hprefix in E as [E Hne]. injection E as <-. now elim Hne. }
  split; [apply Hsuffix; split; [reflexivity | discriminate]|].
  split; [now apply Hmax|].
  destruct (Hquiet eq_refl
              {| Cli.logger_colors := true; Cli.isDebug := true;
                 Cli.isLog := true; Cli.isInfo := true; Cli.isWarn := true;
                 Cli.isError := true |})
    as (_ & _ & _ & _ & _ & Hq & Hv).
  split; [exact Hq | exact (Hv eq_refl)].
Defined.

Lemma parseWsdl_terminates_witness :
  heapClosed Examples.ordersHeap = true
  /\ fst ordersRun <> OutOfFuel
  /\ Examples.runParseWsdl Examples.ordersHeap Examples.ordersWsdl
       Examples.noOptions 5
     = Examples.runParseWsdl Examples.ordersHeap Examples.ordersWsdl
         Examples.noOptions 4.
Proof.
  split; [reflexivity|].
  destruct (parseWsdl_terminates Examples.wordCase Examples.registry
              Registry.findDefinition Examples.keywords Examples.ordersHeap
              Examples.ordersWsdl Examples.noOptions 4 eq_refl)
    as [_ Hsame]; [simpl; lia|].
  split; [vm_compute; discriminate|].
  apply (Hsame 5). lia.
Defined.

Lemma generate_only_reachable_witness :
  let g' := snd (generateDefinitionFile Examples.wordCase
                   defaultGeneratorOptions 2 0 loopState) in
  In 1 (generated g')
  /\ reachable (gen_definitions loopState) 0 1.
Proof.
  intros g'. split; [vm_compute; auto|].
  assert (Hrun : generateDefinitionFile Examples.wordCase
                   defaultGeneratorOptions 2 0 loopState = (Ok tt, g'))
    by (vm_compute; reflexivity).
  assert (Hin : In 1 (generated g')) by (vm_compute; auto).
  destruct (proj1 (generate_only_reachable Examples.wordCase
                     defaultGeneratorOptions 2)
              0 loopState g' Hrun 1 Hin) as [[]|H].
  exact H.
Defined.
